(** * Load-Balancer: routing strategies, control plane and churn analysis

    A shallow embedding of the Go engine ([strategy.go], [lb.go]) and of the
    TypeScript visualisation replica ([logic/hashing.ts], [App.tsx]), with the
    properties of the specification stated and proved over it.

    Conventions.
    - Go's [int] is 64 bits wide; slice lengths are bounded by the address
      space, so index arithmetic on them never wraps and is written on [Z].
      Explicit conversions to [uint32] are written out with their wrap-around.
    - A Go [string] is a sequence of bytes: Rocq's [string].  A JavaScript
      string is a sequence of UTF-16 code units; the replica's strings are
      modelled by Rocq strings read as code units below 256.
    - A Go run-time panic and a JavaScript exception are the [Panic] outcome
      of the [result] type. *)

From Stdlib Require Import ZArith List Lia Bool Sorting.Sorted Permutation.
From stdpp Require Import base tactics option list gmap strings pretty sorting.

Set Default Proof Using "Type".

(** ** Outcomes of fallible code *)

Inductive result (A : Type) : Type :=
  | Ok (a : A)
  | Panic (msg : string).
Arguments Ok {A} a.
Arguments Panic {A} msg.

Global Instance result_ret : MRet result := fun _ a => Ok a.
Global Instance result_bind : MBind result := fun _ _ k r =>
  match r with
  | Ok a => k a
  | Panic msg => Panic msg
  end.

Global Instance result_fmap : FMap result := fun _ _ f r =>
  match r with
  | Ok a => Ok (f a)
  | Panic msg => Panic msg
  end.

(** Indexing a slice or array: out of range is a run-time error. *)
Definition index {A} (l : list A) (i : Z) : result A :=
  if (0 <=? i)%Z then
    match l !! Z.to_nat i with
    | Some a => Ok a
    | None => Panic "index out of range"
    end
  else Panic "index out of range".

Definition len {A} (l : list A) : Z := Z.of_nat (length l).

Definition bytes_of_string (s : string) : list Z :=
  (fun c => Z.of_N (Ascii.N_of_ascii c)) <$> String.list_ascii_of_string s.

(** ** SHA-256 (FIPS 180-4), as computed by Go's [crypto/sha256] *)

Module Sha256.
Local Open Scope Z_scope.

Definition w32 (x : Z) : Z := x mod 2 ^ 32.
Definition rotr (n x : Z) : Z := w32 (Z.lor (Z.shiftr x n) (Z.shiftl x (32 - n))).
Definition Ch (x y z : Z) : Z :=
  Z.lxor (Z.land x y) (Z.land (Z.lxor x 0xffffffff) z).
Definition Maj (x y z : Z) : Z :=
  Z.lxor (Z.lxor (Z.land x y) (Z.land x z)) (Z.land y z).
Definition Sigma0 x := Z.lxor (Z.lxor (rotr 2 x) (rotr 13 x)) (rotr 22 x).
Definition Sigma1 x := Z.lxor (Z.lxor (rotr 6 x) (rotr 11 x)) (rotr 25 x).
Definition sigma0 x := Z.lxor (Z.lxor (rotr 7 x) (rotr 18 x)) (Z.shiftr x 3).
Definition sigma1 x := Z.lxor (Z.lxor (rotr 17 x) (rotr 19 x)) (Z.shiftr x 10).

(** The constants are fractional parts of roots of the first primes: the
    first 32 bits of the cube roots of the first 64 primes for the round
    constants, of the square roots of the first 8 primes for the initial
    hash value. *)
Definition is_prime (n : Z) : bool :=
  forallb (fun d => negb (n mod d =? 0)) (seqZ 2 (n - 2)).

Definition primes : list Z := filter (fun n => is_prime n = true) (seqZ 2 310).

(** The integer cube root, by bisection between [lo] and [hi]. *)
Fixpoint cbrt_loop (fuel : nat) (n lo hi : Z) : Z :=
  match fuel with
  | O => lo
  | S fuel' =>
      if hi - lo <=? 1 then lo
      else
        let mid := (lo + hi) / 2 in
        if mid * mid * mid <=? n then cbrt_loop fuel' n mid hi
        else cbrt_loop fuel' n lo mid
  end.

Definition cbrt (n : Z) : Z := cbrt_loop 64 n 0 (2 ^ 40).

Definition K : list Z :=
  Eval vm_compute in (fun p => w32 (cbrt (p * 2 ^ 96))) <$> take 64 primes.

Definition H0 : list Z :=
  Eval vm_compute in (fun p => w32 (Z.sqrt (p * 2 ^ 64))) <$> take 8 primes.

(** Big-endian encoding of [x] on [n] bytes. *)
Fixpoint be_bytes (n : nat) (x : Z) : list Z :=
  match n with
  | O => []
  | S n' => Z.shiftr x (8 * Z.of_nat n') mod 256 :: be_bytes n' x
  end.

Definition be_word (bs : list Z) : Z :=
  fold_left (fun acc b => acc * 256 + b) bs 0.

(** Message padding: a 1 bit, zeros up to 56 modulo 64 bytes, the bit length
    on 64 bits. *)
Definition pad (msg : list Z) : list Z :=
  let l := len msg in
  let k := (55 - l) mod 64 in
  msg ++ [0x80] ++ replicate (Z.to_nat k) 0 ++ be_bytes 8 (8 * l).

Fixpoint words (n : nat) (bs : list Z) : list Z :=
  match n with
  | O => []
  | S n' => be_word (take 4 bs) :: words n' (drop 4 bs)
  end.

(** The message schedule: [w] holds the sixteen most recent words, oldest
    first. *)
Fixpoint expand (n : nat) (w : list Z) : list Z :=
  match n, w with
  | S n', w0 :: rest =>
      w0 :: expand n'
        (rest ++ [w32 (sigma1 (nth 13 rest 0) + nth 8 rest 0
                       + sigma0 (nth 0 rest 0) + w0)])
  | _, _ => []
  end.

Definition round (st : list Z) (kw : Z * Z) : list Z :=
  match st with
  | [a; b; c; d; e; f; g; h] =>
      let T1 := h + Sigma1 e + Ch e f g + fst kw + snd kw in
      let T2 := Sigma0 a + Maj a b c in
      [w32 (T1 + T2); a; b; c; w32 (d + T1); e; f; g]
  | _ => st
  end.

Definition compress (hs : list Z) (block : list Z) : list Z :=
  let W := expand 64 (words 16 block) in
  let st := fold_left round (zip K W) hs in
  zip_with (fun x y => w32 (x + y)) hs st.

Fixpoint blocks (n : nat) (hs : list Z) (bs : list Z) : list Z :=
  match n with
  | O => hs
  | S n' => blocks n' (compress hs (take 64 bs)) (drop 64 bs)
  end.

(** [sha256.Sum256]: the 32 bytes of the digest. *)
Definition Sum256 (msg : list Z) : list Z :=
  let p := pad msg in
  mjoin (be_bytes 4 <$> blocks (length p / 64)%nat H0 p).

End Sha256.

(** [binary.BigEndian.Uint32] *)
Definition BigEndian_Uint32 (bs : list Z) : Z := Sha256.be_word (take 4 bs).

(** ** FNV-1a, 32 bits, as computed by Go's [hash/fnv] ([New32a]) *)

Definition fnv32a (bs : list Z) : Z :=
  fold_left (fun h b => (Z.lxor h b * 16777619) mod 2 ^ 32)%Z bs 2166136261%Z.

(** ** [sort.Search]: binary search for the least index at which [f] holds *)

Section Search.
Local Open Scope Z_scope.

(** The loop [for i < j { h := int(uint(i+j) >> 1); ... }].  Each turn
    shrinks [j - i], so [j - i] turns always suffice (see [Search_loop_fuel]). *)
Fixpoint Search_loop (fuel : nat) (f : Z → result bool) (i j : Z) : result Z :=
  if i <? j then
    match fuel with
    | O => Ok i
    | S fuel' =>
        let h := Z.shiftr (i + j) 1 in
        b ← f h;
        if negb b then Search_loop fuel' f (h + 1) j
        else Search_loop fuel' f i h
    end
  else Ok i.

Definition Search (n : Z) (f : Z → result bool) : result Z :=
  Search_loop (Z.to_nat n) f 0 n.

End Search.

(** ** The Go engine *)

Module Go.
Local Open Scope Z_scope.

(** *** lb.go: data *)

Record Backend := mkBackend
  { Host : string; Port : Z; IsHealthy : bool; NumRequests : Z }.

Global Instance Backend_eq_dec : EqDecision Backend.
Proof. solve_decision. Defined.

(** [func (b *Backend) String() string]: [fmt.Sprintf("%s:%d", b.Host, b.Port)] *)
Definition Backend_String (b : Backend) : string :=
  Host b +:+ ":" +:+ pretty (Port b).

(** The connection handle [srcConn] plays no part in routing. *)
Record IncomingReq := mkReq { reqId : string; key : string }.

(** *** strategy.go: the strategy interface

    [Init], [GetNextBackend] and [RegisterBackend] take the strategy value and
    return the new one.  [PrintTopology] only writes to the standard output
    and is left out. *)

Class BalancingStrategy (T : Type) := {
  Init : list Backend → T → result T;
  GetNextBackend : IncomingReq → T → result (option Backend * T);
  RegisterBackend : Backend → T → result T;
}.

(** *** Simple hash *)

Record SimpleHashStrategy := mkSimple { sh_Backends : list Backend }.

Definition SimpleHash_Init (backends : list Backend) (s : SimpleHashStrategy)
  : result SimpleHashStrategy :=
  Ok {| sh_Backends := backends |}.

Definition SimpleHash_GetNextBackend (req : IncomingReq) (s : SimpleHashStrategy)
  : result (option Backend * SimpleHashStrategy) :=
  let n := len (sh_Backends s) in
  if n =? 0 then Ok (None, s)
  else
    let h := fnv32a (bytes_of_string (key req)) in
    let n32 := n mod 2 ^ 32 in                      (* uint32(n) *)
    if n32 =? 0 then Panic "integer divide by zero"
    else
      let idx := h mod n32 in
      b ← index (sh_Backends s) idx;
      Ok (Some b, s).

Definition SimpleHash_RegisterBackend (b : Backend) (s : SimpleHashStrategy)
  : result SimpleHashStrategy :=
  Ok {| sh_Backends := sh_Backends s ++ [b] |}.

Global Instance SimpleHash_strategy : BalancingStrategy SimpleHashStrategy :=
  {| Init := SimpleHash_Init;
     GetNextBackend := SimpleHash_GetNextBackend;
     RegisterBackend := SimpleHash_RegisterBackend |}.

Definition NewSimpleHashStrategy (backends : list Backend) :=
  Init backends {| sh_Backends := [] |}.

(** *** Round robin *)

Record RRBalancingStrategy := mkRR { rr_Index : Z; rr_Backends : list Backend }.

Definition RR_Init (backends : list Backend) (s : RRBalancingStrategy)
  : result RRBalancingStrategy :=
  Ok {| rr_Index := 0; rr_Backends := backends |}.

Definition RR_GetNextBackend (_ : IncomingReq) (s : RRBalancingStrategy)
  : result (option Backend * RRBalancingStrategy) :=
  if len (rr_Backends s) =? 0 then Ok (None, s)
  else
    let s' := {| rr_Index := Z.rem (rr_Index s + 1) (len (rr_Backends s));
                 rr_Backends := rr_Backends s |} in
    b ← index (rr_Backends s') (rr_Index s');
    Ok (Some b, s').

Definition RR_RegisterBackend (b : Backend) (s : RRBalancingStrategy)
  : result RRBalancingStrategy :=
  Ok {| rr_Index := rr_Index s; rr_Backends := rr_Backends s ++ [b] |}.

Global Instance RR_strategy : BalancingStrategy RRBalancingStrategy :=
  {| Init := RR_Init;
     GetNextBackend := RR_GetNextBackend;
     RegisterBackend := RR_RegisterBackend |}.

Definition NewRRBalancingStrategy (backends : list Backend) :=
  Init backends {| rr_Index := 0; rr_Backends := [] |}.

(** *** Static *)

Record StaticBalancingStrategy :=
  mkStatic { st_Index : Z; st_Backends : list Backend }.

Definition Static_Init (backends : list Backend) (s : StaticBalancingStrategy)
  : result StaticBalancingStrategy :=
  Ok {| st_Index := 0; st_Backends := backends |}.

Definition Static_GetNextBackend (_ : IncomingReq) (s : StaticBalancingStrategy)
  : result (option Backend * StaticBalancingStrategy) :=
  if len (st_Backends s) =? 0 then Ok (None, s)
  else
    b ← index (st_Backends s) (st_Index s);
    Ok (Some b, s).

Definition Static_RegisterBackend (b : Backend) (s : StaticBalancingStrategy)
  : result StaticBalancingStrategy :=
  Ok {| st_Index := st_Index s; st_Backends := st_Backends s ++ [b] |}.

Global Instance Static_strategy : BalancingStrategy StaticBalancingStrategy :=
  {| Init := Static_Init;
     GetNextBackend := Static_GetNextBackend;
     RegisterBackend := Static_RegisterBackend |}.

Definition NewStaticBalancingStrategy (backends : list Backend) :=
  Init backends {| st_Index := 0; st_Backends := [] |}.

(** *** Consistent hashing *)

Record ConsistentHashStrategy := mkCH
  { keys : list Z;               (* sorted ring positions *)
    backends : list Backend;     (* parallel to keys *)
    totalSlots : Z }.            (* fixed hash space *)

Definition chPos (key : string) (totalSlots : Z) : Z :=
  let sum := Sha256.Sum256 (bytes_of_string key) in
  let v := BigEndian_Uint32 sum in
  if totalSlots =? 0 then v
  else (v mod totalSlots) mod 2 ^ 32.

(** [l = append(l[:i+1], l[i:]...); l[i] = x].  The copy inside [append]
    tolerates the overlap of source and destination, so the outcome is the
    old prefix [l[:i]], then [x], then the old suffix [l[i:]].  Slicing
    [l[:i+1]] past the length is taken as a run-time error (Go allows it up
    to the capacity, which the model does not track; it occurs only when the
    two parallel slices differ in length). *)
Definition slice_insert {A} (l : list A) (i : Z) (x : A) : result (list A) :=
  if (0 <=? i) && (i + 1 <=? len l) then
    Ok (<[Z.to_nat i := x]> (take (Z.to_nat (i + 1)) l ++ drop (Z.to_nat i) l))
  else Panic "slice bounds out of range".

Definition insert (k : Z) (b : Backend) (s : ConsistentHashStrategy)
  : result ConsistentHashStrategy :=
  i ← Search (len (keys s)) (fun i => ki ← index (keys s) i; Ok (k <=? ki));
  if i =? len (keys s) then
    Ok {| keys := keys s ++ [k]; backends := backends s ++ [b];
          totalSlots := totalSlots s |}
  else
    ks ← slice_insert (keys s) i k;
    bs ← slice_insert (backends s) i b;
    Ok {| keys := ks; backends := bs; totalSlots := totalSlots s |}.

Fixpoint CH_Init_loop (bs : list Backend) (s : ConsistentHashStrategy)
  : result ConsistentHashStrategy :=
  match bs with
  | [] => Ok s
  | b :: bs' =>
      let k := chPos (Backend_String b) (totalSlots s) in
      s' ← insert k b s;
      CH_Init_loop bs' s'
  end.

Definition CH_Init (bs : list Backend) (s : ConsistentHashStrategy)
  : result ConsistentHashStrategy :=
  CH_Init_loop bs {| keys := []; backends := []; totalSlots := totalSlots s |}.

Definition CH_RegisterBackend (b : Backend) (s : ConsistentHashStrategy)
  : result ConsistentHashStrategy :=
  let k := chPos (Backend_String b) (totalSlots s) in
  insert k b s.

Definition CH_GetNextBackend (req : IncomingReq) (s : ConsistentHashStrategy)
  : result (option Backend * ConsistentHashStrategy) :=
  if len (backends s) =? 0 then Ok (None, s)
  else
    let slot := chPos (key req) (totalSlots s) in
    (* first node strictly to the right of slot; wrap *)
    i ← Search (len (keys s)) (fun i => ki ← index (keys s) i; Ok (slot <? ki));
    b ← index (backends s) (Z.rem i (len (backends s)));
    Ok (Some b, s).

Global Instance CH_strategy : BalancingStrategy ConsistentHashStrategy :=
  {| Init := CH_Init;
     GetNextBackend := CH_GetNextBackend;
     RegisterBackend := CH_RegisterBackend |}.

Definition NewConsistentHashStrategy (bs : list Backend) :=
  Init bs {| keys := []; backends := []; totalSlots := 2 ^ 32 |}.

(** *** The active strategy of the balancer: one of the four implementations *)

Inductive Strategy :=
  | SimpleHash (s : SimpleHashStrategy)
  | RoundRobin (s : RRBalancingStrategy)
  | Static (s : StaticBalancingStrategy)
  | ConsistentHash (s : ConsistentHashStrategy).

Definition Strategy_Init (bs : list Backend) (st : Strategy) : result Strategy :=
  match st with
  | SimpleHash s => SimpleHash <$> Init bs s
  | RoundRobin s => RoundRobin <$> Init bs s
  | Static s => Static <$> Init bs s
  | ConsistentHash s => ConsistentHash <$> Init bs s
  end.

Definition Strategy_GetNextBackend (req : IncomingReq) (st : Strategy)
  : result (option Backend * Strategy) :=
  match st with
  | SimpleHash s => prod_map id SimpleHash <$> GetNextBackend req s
  | RoundRobin s => prod_map id RoundRobin <$> GetNextBackend req s
  | Static s => prod_map id Static <$> GetNextBackend req s
  | ConsistentHash s => prod_map id ConsistentHash <$> GetNextBackend req s
  end.

Definition Strategy_RegisterBackend (b : Backend) (st : Strategy) : result Strategy :=
  match st with
  | SimpleHash s => SimpleHash <$> RegisterBackend b s
  | RoundRobin s => RoundRobin <$> RegisterBackend b s
  | Static s => Static <$> RegisterBackend b s
  | ConsistentHash s => ConsistentHash <$> RegisterBackend b s
  end.

Global Instance Strategy_strategy : BalancingStrategy Strategy :=
  {| Init := Strategy_Init;
     GetNextBackend := Strategy_GetNextBackend;
     RegisterBackend := Strategy_RegisterBackend |}.

(** *** lb.go: the balancer

    The control plane of [Run] is modelled: the handling of one event
    ([handle]) and of a queue of events ([run]).  The data plane ([proxy],
    the accept loop) relays bytes over the network once [GetNextBackend] has
    chosen a backend. *)

Definition CMD_Exit := "exit".
Definition CMD_BackendAdd := "backend:add".
Definition CMD_BackendRemove := "backend:remove".
Definition CMD_StrategyChange := "strategy:change".
Definition CMD_ShowMapping := "mapping:show".

(** [Data interface{}]: the dynamic types the handlers assert on; any other
    value fails every type assertion, as [DNil] does. *)
Inductive Data :=
  | DBackend (b : Backend)
  | DInt (n : Z)
  | DString (s : string)
  | DNil.

Record Event := mkEvent { EventName : string; EventData : Data }.

Record LB := mkLB
  { lb_backends : list Backend;
    lb_strategy : Strategy;
    demoKeys : list string }.

Definition InitLB : result LB :=
  let backends :=
    [ mkBackend "localhost" 8081 true 0; mkBackend "localhost" 8082 true 0;
      mkBackend "localhost" 8083 true 0; mkBackend "localhost" 8084 true 0 ] in
  s ← NewConsistentHashStrategy backends;
  Ok {| lb_backends := backends;
        lb_strategy := ConsistentHash s;
        demoKeys :=
          [ "10.0.0.1"; "10.0.0.2"; "10.0.0.3"; "10.0.0.4";
            "10.0.0.5"; "10.0.0.6"; "10.0.0.7"; "10.0.0.8";
            "10.0.0.9"; "10.0.0.10"; "10.0.0.11"; "10.0.0.12" ] |}.

(** A Go [map[string]string]; [None] is the nil map.  Reading a missing key
    (or reading the nil map) yields the empty string. *)
Definition GoMap := option (gmap string string).

Definition map_get (m : GoMap) (k : string) : string :=
  default "" (m ≫= (fun m => m !! k)).

(** [snapshot]: the strategy is asked for every demo key in turn; the strategy
    state after each call is the state the next call sees. *)
Fixpoint snapshot_loop (ks : list string) (st : Strategy) (m : gmap string string)
  : result (gmap string string * Strategy) :=
  match ks with
  | [] => Ok (m, st)
  | k :: ks' =>
      r ← GetNextBackend {| reqId := ""; key := k |} st;
      let '(b, st') := r in
      match b with
      | Some b => snapshot_loop ks' st' (<[k := Backend_String b]> m)
      | None => snapshot_loop ks' st' (<[k := "<nil>"]> m)
      end
  end.

Definition snapshot (lb : LB) : result (GoMap * LB) :=
  r ← snapshot_loop (demoKeys lb) (lb_strategy lb) ∅;
  Ok (Some r.1, {| lb_backends := lb_backends lb; lb_strategy := r.2;
                   demoKeys := demoKeys lb |}).

(** What the control plane writes to the log, line by line. *)
Inductive LogLine :=
  | LogHeader (what : string)                     (* "=== %s ===" *)
  | LogRow (k b a : string) (moved : bool)        (* "key=%-12s  %s -> %s%s" *)
  | LogShowRow (k a : string)                     (* "key=%-12s  -> %s" *)
  | LogMoved (moved total : Z)                    (* "moved=%d/%d keys" *)
  | LogNoBackend (port : Z)                       (* "no backend found on port %d" *)
  | LogTerminating.                               (* "Gracefully terminating ..." *)

(** The loop of [printRemap]: the counter [moved] and the lines written. *)
Fixpoint printRemap_loop (ks : list string) (before after : GoMap) (moved : Z)
  : Z * list LogLine :=
  match ks with
  | [] => (moved, [])
  | k :: ks' =>
      let a := map_get after k in
      match before with
      | Some _ =>
          let b := map_get before k in
          let changed := negb (bool_decide (b = a)) in
          let moved' := if changed then moved + 1 else moved in
          let r := printRemap_loop ks' before after moved' in
          (r.1, LogRow k b a changed :: r.2)
      | None =>
          let r := printRemap_loop ks' before after moved in
          (r.1, LogShowRow k a :: r.2)
      end
  end.

Definition printRemap (lb : LB) (what : string) (before after : GoMap)
  : Z * list LogLine :=
  let r := printRemap_loop (demoKeys lb) before after 0 in
  (r.1, LogHeader what :: r.2 ++
        match before with
        | Some _ => [LogMoved r.1 (len (demoKeys lb))]
        | None => []
        end).

(** The search loop of [removeBackend]: the index of the first backend with
    the given host and port, or -1. *)
Fixpoint find_backend (host : string) (port : Z) (bs : list Backend) (i : Z) : Z :=
  match bs with
  | [] => -1
  | b :: bs' =>
      if bool_decide (Host b = host) && (Port b =? port) then i
      else find_backend host port bs' (i + 1)
  end.

Definition removeBackend (host : string) (port : Z) (lb : LB) : bool * LB :=
  let idx := find_backend host port (lb_backends lb) 0 in
  if idx =? -1 then (false, lb)
  else
    (true, {| lb_backends := take (Z.to_nat idx) (lb_backends lb)
                             ++ drop (Z.to_nat (idx + 1)) (lb_backends lb);
              lb_strategy := lb_strategy lb;
              demoKeys := demoKeys lb |}).

Definition set_strategy (st : Strategy) (lb : LB) : LB :=
  {| lb_backends := lb_backends lb; lb_strategy := st; demoKeys := demoKeys lb |}.

Definition set_backends (bs : list Backend) (lb : LB) : LB :=
  {| lb_backends := bs; lb_strategy := lb_strategy lb; demoKeys := demoKeys lb |}.

(** The [switch name] of the strategy-change handler; an unknown name falls
    back to consistent hashing. *)
Definition strategy_by_name (name : string) (bs : list Backend) : result Strategy :=
  if bool_decide (name = "round-robin") || bool_decide (name = "rr") then
    RoundRobin <$> NewRRBalancingStrategy bs
  else if bool_decide (name = "static") then
    Static <$> NewStaticBalancingStrategy bs
  else if bool_decide (name = "simple") || bool_decide (name = "simple-hash") then
    SimpleHash <$> NewSimpleHashStrategy bs
  else
    ConsistentHash <$> NewConsistentHashStrategy bs.

(** One turn of the control-plane loop of [Run]: the balancer afterwards
    ([None] once the loop has returned) and the lines logged. *)
Definition handle (event : Event) (lb : LB) : result (option LB * list LogLine) :=
  let name := EventName event in
  if bool_decide (name = CMD_Exit) then
    Ok (None, [LogTerminating])
  else if bool_decide (name = CMD_BackendAdd) then
    r ← snapshot lb;
    let '(before, lb) := r in
    match EventData event with
    | DBackend backend =>
        let lb := set_backends (lb_backends lb ++ [backend]) lb in
        st ← Init (lb_backends lb) (lb_strategy lb);
        let lb := set_strategy st lb in
        r ← snapshot lb;
        let '(after, lb) := r in
        Ok (Some lb, (printRemap lb "ADD" before after).2)
    | _ => Panic "invalid backend data"
    end
  else if bool_decide (name = CMD_BackendRemove) then
    r ← snapshot lb;
    let '(before, lb) := r in
    match EventData event with
    | DInt port =>
        let '(found, lb) := removeBackend "localhost" port lb in
        if found then
          st ← Init (lb_backends lb) (lb_strategy lb);
          let lb := set_strategy st lb in
          r ← snapshot lb;
          let '(after, lb) := r in
          Ok (Some lb, (printRemap lb "REMOVE" before after).2)
        else Ok (Some lb, [LogNoBackend port])
    | _ => Panic "invalid remove data"
    end
  else if bool_decide (name = CMD_StrategyChange) then
    r ← snapshot lb;
    let '(before, lb) := r in
    match EventData event with
    | DString name =>
        st ← strategy_by_name name (lb_backends lb);
        let lb := set_strategy st lb in
        r ← snapshot lb;
        let '(after, lb) := r in
        Ok (Some lb, (printRemap lb ("STRATEGY:" +:+ name) before after).2)
    | _ => Panic "invalid strategy name"
    end
  else if bool_decide (name = CMD_ShowMapping) then
    r ← snapshot lb;
    let '(cur, lb) := r in
    Ok (Some lb, (printRemap lb "SHOW" None cur).2)
  else Ok (Some lb, []).

(** The control-plane loop over a queue of events. *)
Fixpoint run (events : list Event) (lb : LB) : result (option LB * list LogLine) :=
  match events with
  | [] => Ok (Some lb, [])
  | e :: es =>
      r ← handle e lb;
      match r.1 with
      | None => Ok r
      | Some lb' => r' ← run es lb'; Ok (r'.1, r.2 ++ r'.2)
      end
  end.

(** *** lb.go: [clientIP] *)

Import Stdlib.Strings.Ascii.

(** [strings.LastIndex(s, sep)] for a separator of one byte: the index of its
    last occurrence in [s], or -1. *)
Fixpoint LastIndexByte_from (c : Ascii.ascii) (s : list Ascii.ascii) (i last : Z) : Z :=
  match s with
  | [] => last
  | x :: s' => LastIndexByte_from c s' (i + 1) (if bool_decide (x = c) then i else last)
  end.

Definition LastIndexByte (s : string) (c : Ascii.ascii) : Z :=
  LastIndexByte_from c (String.list_ascii_of_string s) 0 (-1).

Fixpoint drop_while {A} (f : A → bool) (l : list A) : list A :=
  match l with
  | [] => []
  | x :: l' => if f x then drop_while f l' else l
  end.

(** [strings.Trim(s, cutset)] for a cutset of ASCII bytes: the bytes of the
    cutset are taken off the right end, then off the left end. *)
Definition Trim (s : string) (cutset : list Ascii.ascii) : string :=
  let f c := bool_decide (c ∈ cutset) in
  let l := String.list_ascii_of_string s in
  String.string_of_list_ascii (drop_while f (reverse (drop_while f (reverse l)))).

(** [remote[:i]] *)
Definition prefix (s : string) (i : Z) : string :=
  String.string_of_list_ascii (take (Z.to_nat i) (String.list_ascii_of_string s)).

Definition clientIP (remote : string) : string :=
  let i := LastIndexByte remote ":"%char in
  if negb (i =? -1) then
    let ip := prefix remote i in
    Trim ip ["["%char; "]"%char]
  else remote.

End Go.

(** ** The visualisation replica (TypeScript) *)

Module TS.
Local Open Scope Z_scope.

(** *** logic/hashing.ts *)

Definition ToUint32 (x : Z) : Z := x mod 2 ^ 32.
Definition ToInt32 (x : Z) : Z := (x + 2 ^ 31) mod 2 ^ 32 - 2 ^ 31.

(** [x << n] and [x ^ y] on JavaScript numbers: 32-bit signed operations. *)
Definition shl (x n : Z) : Z := ToInt32 (Z.shiftl (ToInt32 x) n).
Definition xor (x y : Z) : Z := ToInt32 (Z.lxor (ToInt32 x) (ToInt32 y)).

Definition charCodes (str : string) : list Z :=
  (fun c => Z.of_N (Ascii.N_of_ascii c)) <$> String.list_ascii_of_string str.

Definition fnv1a (str : string) : Z :=
  let h :=
    fold_left
      (fun h c =>
         let h := xor h c in
         ToUint32 (h + (shl h 1 + shl h 4 + shl h 7 + shl h 8 + shl h 24)))
      (charCodes str) 0x811c9dc5 in
  ToUint32 h.

Definition hash32 (str : string) : Z := ToUint32 (fnv1a str).

Record Server := mkServer { id : string; port : Z; healthy : bool }.

Global Instance Server_eq_dec : EqDecision Server.
Proof. solve_decision. Defined.

(** Reading an array: [undefined] ([None]) out of range. *)
Definition at_index {A} (l : list A) (i : Z) : option A :=
  if 0 <=? i then l !! Z.to_nat i else None.

Definition simpleHashPick (servers : list Server) (key : string) : option Server :=
  if len servers =? 0 then None
  else
    let idx := Z.rem (hash32 key) (len servers) in
    at_index servers idx.

Definition REPLICAS : Z := 64.

Record RingPair := mkPair { key : Z; server : Server }.

(** [pairs.sort((a, b) => a.key - b.key)].  [Array.prototype.sort] is stable:
    pairs of equal key keep their order.  The result of a stable sort is
    determined by the input; it is computed here by insertion, each element
    going in front of the elements to its right that are not smaller. *)
Fixpoint sort_insert (p : RingPair) (l : list RingPair) : list RingPair :=
  match l with
  | [] => [p]
  | q :: l' => if key p <=? key q then p :: l else q :: sort_insert p l'
  end.

Definition sort_by_key (l : list RingPair) : list RingPair :=
  foldr sort_insert [] l.

(** The inner loop [for (let r = 0; r < REPLICAS; r++)]. *)
Definition replicas (s : Server) : list RingPair :=
  (fun r => {| key := hash32 (id s +:+ "#" +:+ pretty r); server := s |})
    <$> seqZ 0 REPLICAS.

Definition ringPositions (servers : list Server) : list RingPair :=
  sort_by_key (servers ≫= replicas).

(** The binary search of [chPickServer]; [(lo + hi) >>> 1] is an unsigned
    32-bit shift.  The turns allotted are [hi - lo] of the first call,
    enough whenever [lo + hi] stays below 2^32. *)
Fixpoint chPick_loop (fuel : nat) (pairs : list RingPair) (slot lo hi : Z)
  : result Z :=
  if lo <? hi then
    match fuel with
    | O => Panic "out of fuel"
    | S fuel' =>
        let mid := Z.shiftr (ToUint32 (lo + hi)) 1 in
        match at_index pairs mid with
        | None => Panic "TypeError: pairs[mid] is undefined"
        | Some p =>
            if slot <=? key p then chPick_loop fuel' pairs slot lo mid
            else chPick_loop fuel' pairs slot (mid + 1) hi
        end
    end
  else Ok lo.

Definition chPickServer (servers : list Server) (keyStr : string)
  : result (option Server) :=
  if len servers =? 0 then Ok None
  else
    let pairs := ringPositions servers in
    let slot := hash32 keyStr in
    (* first position >= slot *)
    lo ← chPick_loop (length pairs) pairs slot 0 (len pairs);
    let i := Z.rem lo (len pairs) in
    match at_index pairs i with
    | None => Panic "TypeError: pairs[i] is undefined"
    | Some p => Ok (Some (server p))
    end.

(** *** App.tsx: pure routing, mappings and the churn diff *)

Inductive Strategy := RR | SIMPLE | CH | STATIC.

(** The router used for assignments and diffs; it does not read the
    round-robin pointer [rrIndex]. *)
Definition routePure (staticIndex : Z) (srvs : list Server) (strat : Strategy)
    (k : string) : result (option Server) :=
  if len srvs =? 0 then Ok None
  else
    match strat with
    | RR => Ok (at_index srvs (Z.rem (hash32 k) (len srvs)))
    | STATIC => Ok (at_index srvs (Z.min staticIndex (len srvs - 1)))
    | SIMPLE => Ok (simpleHashPick srvs k)
    | CH => chPickServer srvs k
    end.

(** [m[k] = v] on an object made by a literal, as a map of its own
    properties: the assignment makes an own property, except for the key
    [__proto__], where it runs the setter inherited from [Object.prototype],
    and the setter ignores a value that is not an object. *)
Definition obj_set (k v : string) (m : gmap string string) : gmap string string :=
  if bool_decide (k = "__proto__") then m else <[k := v]> m.

Fixpoint computeMap_loop (staticIndex : Z) (srvs : list Server) (strat : Strategy)
    (ks : list string) (m : gmap string string) : result (gmap string string) :=
  match ks with
  | [] => Ok m
  | k :: ks' =>
      s ← routePure staticIndex srvs strat k;
      computeMap_loop staticIndex srvs strat ks'
        (obj_set k (match s with Some s => id s | None => "<nil>" end) m)
  end.

Definition computeMap (staticIndex : Z) (strat : Strategy)
    (trackedKeys : list string) (srvs : list Server) : result (gmap string string) :=
  computeMap_loop staticIndex srvs strat trackedKeys ∅.

Record DiffRow := mkRow
  { row_k : string; row_b : option string; row_a : option string; changed : bool }.

Record DiffResult := mkDiff { moved : Z; total : Z; rows : list DiffRow }.

(** [Array.from(new Set(xs))]: the first occurrence of each element. *)
Fixpoint dedup (seen : list string) (xs : list string) : list string :=
  match xs with
  | [] => []
  | x :: xs' =>
      if bool_decide (x ∈ seen) then dedup seen xs'
      else x :: dedup (x :: seen) xs'
  end.

(** [keys.map((k) => { ...; if (changed) moved++; ... })] *)
Fixpoint diff_rows (ks : list string) (beforeMap afterMap : gmap string string)
    (moved : Z) : Z * list DiffRow :=
  match ks with
  | [] => (moved, [])
  | k :: ks' =>
      let b := beforeMap !! k in
      let a := afterMap !! k in
      let changed := negb (bool_decide (b = a)) in
      let moved' := if changed then moved + 1 else moved in
      let r := diff_rows ks' beforeMap afterMap moved' in
      (r.1, {| row_k := k; row_b := b; row_a := a; changed := changed |} :: r.2)
  end.

Section Diff.
(** [Object.keys]: an enumeration of the own keys of an object.  Its order
    (insertion order, integer-like keys first) is left open. *)
Variable Object_keys : gmap string string → list string.

Definition diff (beforeMap afterMap : option (gmap string string))
  : option DiffResult :=
  match beforeMap, afterMap with
  | Some b, Some a =>
      let keys := dedup [] (Object_keys b ++ Object_keys a) in
      let r := diff_rows keys b a 0 in
      Some {| moved := r.1; total := len keys; rows := r.2 |}
  | _, _ => None
  end.
End Diff.

(** *** App.tsx and logic/utils.ts: [initServers], [nextPort] *)

Definition initServers (n : Z) : list Server :=
  let base := 8081 in
  (fun i => {| id := "localhost:" +:+ pretty (base + i); port := base + i;
               healthy := true |}) <$> seqZ 0 n.

(** [while (ports.includes(p)) p++]: among the candidates [p, p+1, ...] at
    most [ports.length] are taken, so [ports.length + 1] tests suffice. *)
Fixpoint nextPort_loop (fuel : nat) (ports : list Z) (p : Z) : Z :=
  match fuel with
  | O => p
  | S fuel' =>
      if bool_decide (p ∈ ports) then nextPort_loop fuel' ports (p + 1) else p
  end.

Definition nextPort (servers : list Server) : Z :=
  let ports := port <$> servers in
  nextPort_loop (S (length ports)) ports 8081.

(** *** App.tsx: [rebuildAssignments]

    The table handed to [setAssigned]: for every distinct tracked key that is
    routed to a server, the key is pushed on the list of that server's id.

    [next[s.id]] reads through the prototype of the object literal: for an id
    that names a property of [Object.prototype] the value read is a function
    or an object, so no list is made and the call of [push] throws. *)
Definition Object_prototype_names : list string :=
  ["constructor"; "hasOwnProperty"; "isPrototypeOf"; "propertyIsEnumerable";
   "toLocaleString"; "toString"; "valueOf"; "__proto__";
   "__defineGetter__"; "__defineSetter__"; "__lookupGetter__"; "__lookupSetter__"].

Fixpoint rebuildAssignments_loop (staticIndex : Z) (srvs : list Server)
    (strat : Strategy) (keys : list string) (next : gmap string (list string))
  : result (gmap string (list string)) :=
  match keys with
  | [] => Ok next
  | k :: keys' =>
      s ← routePure staticIndex srvs strat k;
      match s with
      | Some s =>
          if bool_decide (id s ∈ Object_prototype_names) then
            Panic "TypeError: next[s.id].push is not a function"
          else
            let next :=
              match next !! id s with
              | None => <[id s := []]> next
              | Some _ => next
              end in
            let next := <[id s := default [] (next !! id s) ++ [k]]> next in
            rebuildAssignments_loop staticIndex srvs strat keys' next
      | None => rebuildAssignments_loop staticIndex srvs strat keys' next
      end
  end.

Definition rebuildAssignments (staticIndex : Z) (strat : Strategy)
    (trackedKeys : list string) (srvs : list Server)
  : result (gmap string (list string)) :=
  let keys := dedup [] trackedKeys in
  rebuildAssignments_loop staticIndex srvs strat keys ∅.

End TS.

(** ** Notions used to state the properties of the engine *)

Module GoSpec.
Import Go.
Local Open Scope Z_scope.

(** The ring as a list of (position, backend) entries. *)
Definition entries (s : ConsistentHashStrategy) : list (Z * Backend) :=
  zip (keys s) (backends s).

(** The invariant of [ConsistentHashStrategy]: positions ascending, and as
    many positions as backends. *)
Definition ch_inv (s : ConsistentHashStrategy) : Prop :=
  Sorted Z.le (keys s) ∧ length (keys s) = length (backends s).

Definition key_le (e1 e2 : Z * Backend) : Prop := e1.1 ≤ e2.1.

(** Insertion in front of the first entry whose position is not smaller. *)
Fixpoint ins (k : Z) (b : Backend) (es : list (Z * Backend)) : list (Z * Backend) :=
  match es with
  | [] => [(k, b)]
  | e :: es' => if k <=? e.1 then (k, b) :: es else e :: ins k b es'
  end.

Definition ring_from (ts : Z) (es : list (Z * Backend)) (bs : list Backend)
  : list (Z * Backend) :=
  fold_left (fun es b => ins (chPos (Backend_String b) ts) b es) bs es.

Definition ring (ts : Z) (bs : list Backend) : list (Z * Backend) :=
  ring_from ts [] bs.

(** The backend of the first entry strictly to the right of [slot], or of
    entry 0 when there is none. *)
Definition pick (slot : Z) (es : list (Z * Backend)) : option Backend :=
  match find (fun e => slot <? e.1) es with
  | Some e => Some e.2
  | None => snd <$> head es
  end.

(** [del1 e es es']: [es'] is [es] with one occurrence of [e] taken out. *)
Definition del1 (e : Z * Backend) (es es' : list (Z * Backend)) : Prop :=
  ∃ xs ys, es = xs ++ e :: ys ∧ es' = xs ++ ys.

(** Strategy states that the program can build. *)
Inductive reachable : Strategy → Prop :=
  | reach_new name bs st :
      strategy_by_name name bs = Ok st → reachable st
  | reach_Init bs st st' :
      reachable st → Init bs st = Ok st' → reachable st'
  | reach_GetNextBackend req st r st' :
      reachable st → GetNextBackend req st = Ok (r, st') → reachable st'
  | reach_RegisterBackend b st st' :
      reachable st → RegisterBackend b st = Ok st' → reachable st'.

(** The backends a strategy routes to. *)
Definition Strategy_backends (st : Strategy) : list Backend :=
  match st with
  | SimpleHash s => sh_Backends s
  | RoundRobin s => rr_Backends s
  | Static s => st_Backends s
  | ConsistentHash s => backends s
  end.

Definition Strategy_wf (st : Strategy) : Prop :=
  match st with
  | SimpleHash s => True
  | RoundRobin s => 0 ≤ rr_Index s < Z.max 1 (len (rr_Backends s))
  | Static s => st_Index s = 0
  | ConsistentHash s => ch_inv s
  end.

(** Serving a sequence of requests with one strategy value. *)
Fixpoint serve {T} `{BalancingStrategy T} (reqs : list IncomingReq) (s : T)
  : result (list (option Backend) * T) :=
  match reqs with
  | [] => Ok ([], s)
  | req :: reqs' =>
      r ← GetNextBackend req s;
      r' ← serve reqs' r.2;
      Ok (r.1 :: r'.1, r'.2)
  end.

(** Routing one key on the ring built from a topology. *)
Definition ch_route (bs : list Backend) (key : string) : result (option Backend) :=
  s ← NewConsistentHashStrategy bs;
  r ← GetNextBackend {| reqId := ""; key := key |} s;
  Ok r.1.

(** The cursor of the active strategy, when it is round robin. *)
Definition cursor (st : Strategy) : option Z :=
  match st with
  | RoundRobin s => Some (rr_Index s)
  | _ => None
  end.

Definition identity (b : Backend) : string * Z := (Host b, Port b).

(** The seed topology of [InitLB] and the events the REPL sends. *)
Definition localhost (port : Z) : Backend := mkBackend "localhost" port true 0.
Definition seed : list Backend := localhost <$> [8081; 8082; 8083; 8084].

Definition ev_add (port : Z) : Event := mkEvent CMD_BackendAdd (DBackend (localhost port)).
Definition ev_rm (port : Z) : Event := mkEvent CMD_BackendRemove (DInt port).
Definition ev_strat (name : string) : Event := mkEvent CMD_StrategyChange (DString name).
Definition ev_show : Event := mkEvent CMD_ShowMapping DNil.

(** The balancer as [InitLB] leaves it, and after a queue of events. *)
Definition lb_of (r : result LB) : LB :=
  match r with
  | Ok lb => lb
  | Panic _ => mkLB [] (SimpleHash (mkSimple [])) []
  end.

Definition lb0 : LB := lb_of InitLB.

Definition lb_after (events : list Event) : LB :=
  match run events lb0 with
  | Ok (Some lb, _) => lb
  | _ => lb0
  end.

Definition is_error_line (l : LogLine) : bool :=
  match l with
  | LogNoBackend _ => true
  | _ => false
  end.

(** The specification's reading of the lookup rule: the first entry whose
    position is greater than or equal to the slot, or entry 0. *)
Definition pick_ge (slot : Z) (es : list (Z * Backend)) : option Backend :=
  match find (fun e => slot <=? e.1) es with
  | Some e => Some e.2
  | None => snd <$> head es
  end.

(** The control plane keeps the active strategy in step with the topology. *)
Definition LB_inv (lb : LB) : Prop :=
  Strategy_wf (lb_strategy lb) ∧
  Strategy_backends (lb_strategy lb) ≡ₚ lb_backends lb.

(** Events whose payload has the dynamic type their handler asserts. *)
Definition well_typed (e : Event) : Prop :=
  (EventName e = CMD_BackendAdd → ∃ b, EventData e = DBackend b) ∧
  (EventName e = CMD_BackendRemove → ∃ n, EventData e = DInt n) ∧
  (EventName e = CMD_StrategyChange → ∃ s, EventData e = DString s).

(** What [snapshot] records for a key under a strategy value. *)
Definition route_label (st : Strategy) (k : string) : string :=
  match GetNextBackend {| reqId := ""; key := k |} st with
  | Ok (Some b, _) => Backend_String b
  | _ => "<nil>"
  end.

Definition position (b : Backend) : Z := chPos (Backend_String b) (2 ^ 32).

End GoSpec.

(** ** Notions used to state the properties of the replica *)

Module TSSpec.
Import TS.
Local Open Scope Z_scope.

Definition pair_le (p q : RingPair) : Prop := key p ≤ key q.

(** The servers of [initServers(4)]. *)
Definition srv (p : Z) : Server :=
  {| id := "localhost:" +:+ pretty p; port := p; healthy := true |}.
Definition servers4 : list Server := srv <$> [8081; 8082; 8083; 8084].

(** An enumeration of the keys of a mapping. *)
Definition keys_of (m : gmap string string) : list string := (map_to_list m).*1.

(** The pair of the first ring entry at or to the right of [slot], or
    entry 0 when there is none. *)
Definition pick_pair (slot : Z) (pairs : list RingPair) : option RingPair :=
  match find (fun p => slot <=? key p) pairs with
  | Some p => Some p
  | None => head pairs
  end.

(** What [computeMap] records for a key. *)
Definition route_id (staticIndex : Z) (srvs : list Server) (strat : Strategy)
    (k : string) : string :=
  match routePure staticIndex srvs strat k with
  | Ok (Some s) => id s
  | _ => "<nil>"
  end.

End TSSpec.

(** ** Facts about the building blocks *)

Section SearchFacts.
Local Open Scope Z_scope.

Lemma index_lookup {A} (l : list A) (i : Z) (x : A) :
  0 ≤ i → l !! Z.to_nat i = Some x → index l i = Ok x.
Proof.
  intros Hi Hx. unfold index.
  destruct (0 <=? i) eqn:E; [|lia]. by rewrite Hx.
Qed.

Lemma index_Ok {A} (l : list A) (i : Z) (x : A) :
  index l i = Ok x → 0 ≤ i < len l ∧ l !! Z.to_nat i = Some x.
Proof.
  unfold index, len. destruct (0 <=? i) eqn:E; [|done].
  destruct (l !! Z.to_nat i) eqn:El; [|done].
  intros [= ->]. apply lookup_lt_Some in El as Hlt. split; [lia|done].
Qed.

Lemma index_in_range {A} (l : list A) (i : Z) :
  0 ≤ i < len l → ∃ x, index l i = Ok x ∧ l !! Z.to_nat i = Some x.
Proof.
  intros Hi. unfold len in Hi.
  destruct (lookup_lt_is_Some_2 l (Z.to_nat i)) as [x Hx]; [lia|].
  exists x. split; [|done]. apply index_lookup; [lia|done].
Qed.

Lemma StronglySorted_lookup_lt {A} (R : relation A) (l : list A) (i j : nat) x y :
  StronglySorted R l → (i < j)%nat → l !! i = Some x → l !! j = Some y → R x y.
Proof.
  intros Hs. revert i j.
  induction Hs as [|z l Hs IH Hall]; intros i j Hlt Hx Hy; [done|].
  destruct j as [|j]; [lia|]. destruct i as [|i]; simpl in *.
  - injection Hx as ->. rewrite Forall_forall in Hall. apply Hall.
    by eapply list_elem_of_lookup_2.
  - apply (IH i j); [lia|done|done].
Qed.

(** The binary search returns the boundary of a monotone predicate. *)
Lemma Search_loop_spec (p : Z → bool) (f : Z → result bool) (n : Z) :
  (∀ h, 0 ≤ h < n → f h = Ok (p h)) →
  (∀ a b, 0 ≤ a ≤ b → b < n → p a = true → p b = true) →
  ∀ fuel i j,
    0 ≤ i ≤ j → j ≤ n → (Z.to_nat (j - i) ≤ fuel)%nat →
    (∀ a, 0 ≤ a < i → p a = false) →
    (∀ a, j ≤ a < n → p a = true) →
    ∃ r, Search_loop fuel f i j = Ok r ∧ i ≤ r ≤ j ∧
         (∀ a, 0 ≤ a < r → p a = false) ∧ (∀ a, r ≤ a < n → p a = true).
Proof.
  intros Hf Hmono. induction fuel as [|fuel IH]; intros i j Hij Hjn Hfuel Hlo Hhi.
  - simpl. destruct (i <? j) eqn:E; [lia|].
    exists i. repeat split; try lia; auto.
    intros a Ha. apply Hhi. lia.
  - simpl. destruct (i <? j) eqn:E.
    + apply Z.ltb_lt in E.
      assert (Hh : i ≤ Z.shiftr (i + j) 1 < j).
      { rewrite Z.shiftr_div_pow2 by lia. change (2 ^ 1) with 2.
        split; [apply Z.div_le_lower_bound|apply Z.div_lt_upper_bound]; lia. }
      set (h := Z.shiftr (i + j) 1) in *.
      rewrite Hf by lia. simpl.
      destruct (p h) eqn:Eh; simpl.
      * destruct (IH i h) as (r & Hr & Hb & H1 & H2); try lia; auto.
        { intros a Ha. apply (Hmono h a); [lia|lia|done]. }
        exists r. repeat split; try lia; auto.
      * destruct (IH (h + 1) j) as (r & Hr & Hb & H1 & H2); try lia; auto.
        { intros a Ha. destruct (p a) eqn:Ea; [|done].
          rewrite (Hmono a h) in Eh; [done|lia|lia|done]. }
        exists r. repeat split; try lia; auto.
    + apply Z.ltb_ge in E. exists i. repeat split; try lia; auto.
      intros a Ha. apply Hhi. lia.
Qed.

Lemma Search_spec (p : Z → bool) (f : Z → result bool) (n : Z) :
  0 ≤ n →
  (∀ h, 0 ≤ h < n → f h = Ok (p h)) →
  (∀ a b, 0 ≤ a ≤ b → b < n → p a = true → p b = true) →
  ∃ r, Search n f = Ok r ∧ 0 ≤ r ≤ n ∧
       (∀ a, 0 ≤ a < r → p a = false) ∧ (∀ a, r ≤ a < n → p a = true).
Proof.
  intros Hn Hf Hmono. unfold Search.
  apply (Search_loop_spec p f n Hf Hmono); try lia.
Qed.

(** Extra turns change nothing: the loop never runs out of them. *)
Lemma Search_loop_fuel (f : Z → result bool) fuel1 fuel2 i j :
  (Z.to_nat (j - i) ≤ fuel1)%nat → (Z.to_nat (j - i) ≤ fuel2)%nat →
  0 ≤ i →
  Search_loop fuel1 f i j = Search_loop fuel2 f i j.
Proof.
  revert fuel2 i j. induction fuel1 as [|fuel1 IH]; intros fuel2 i j H1 H2 Hi.
  - cbn [Search_loop]. destruct (i <? j) eqn:E; [lia|].
    destruct fuel2; cbn [Search_loop]; by rewrite E.
  - cbn [Search_loop]. destruct (i <? j) eqn:E.
    + pose proof (proj1 (Z.ltb_lt _ _) E) as Hlt.
      destruct fuel2 as [|fuel2]; [lia|].
      cbn [Search_loop]. rewrite E.
      assert (Hh : i ≤ Z.shiftr (i + j) 1 < j).
      { rewrite Z.shiftr_div_pow2 by lia. change (2 ^ 1) with 2.
        split; [apply Z.div_le_lower_bound|apply Z.div_lt_upper_bound]; lia. }
      destruct (f (Z.shiftr (i + j) 1)) as [b|]; [|done]. simpl.
      destruct b; simpl; apply IH; lia.
    + destruct fuel2; cbn [Search_loop]; by rewrite E.
Qed.

End SearchFacts.

(** ** Facts about the consistent-hash ring of the engine *)

Module GoFacts.
Import Go GoSpec.
Local Open Scope Z_scope.

Global Instance key_le_trans : Transitive key_le.
Proof. intros x y z. unfold key_le. lia. Qed.

Lemma slice_insert_ok {A} (l : list A) (i : Z) (x : A) :
  0 ≤ i < len l →
  slice_insert l i x = Ok (take (Z.to_nat i) l ++ x :: drop (Z.to_nat i) l).
Proof.
  intros Hi. unfold slice_insert.
  destruct (0 <=? i) eqn:E1; [|lia].
  destruct (i + 1 <=? len l) eqn:E2; [|lia]. simpl. f_equal.
  unfold len in Hi.
  destruct (lookup_lt_is_Some_2 l (Z.to_nat i)) as [y Hy]; [lia|].
  replace (Z.to_nat (i + 1)) with (S (Z.to_nat i)) by lia.
  rewrite (take_S_r _ _ y) by done.
  rewrite <-app_assoc.
  rewrite insert_app_r_alt by (rewrite length_take; lia).
  rewrite length_take.
  replace (Z.to_nat i - Z.to_nat i `min` length l)%nat with 0%nat by lia.
  done.
Qed.

(** *** Insertion on the list of entries *)

Lemma ins_take_drop k b es (r : nat) :
  (r ≤ length es)%nat →
  (∀ a e, (a < r)%nat → es !! a = Some e → e.1 < k) →
  (∀ e, es !! r = Some e → k ≤ e.1) →
  ins k b es = take r es ++ (k, b) :: drop r es.
Proof.
  revert r. induction es as [|e es IH]; intros r Hr Hlo Hhi.
  - simpl in Hr. assert (r = 0%nat) as -> by lia. done.
  - destruct r as [|r].
    + simpl. specialize (Hhi e eq_refl).
      destruct (k <=? e.1) eqn:E; [done|lia].
    + simpl. pose proof (Hlo 0%nat e ltac:(lia) eq_refl) as He.
      destruct (k <=? e.1) eqn:E; [lia|].
      f_equal. apply IH.
      * simpl in Hr. lia.
      * intros a e' Ha. apply (Hlo (S a)). lia.
      * intros e'. apply (Hhi e').
Qed.

Lemma ins_Permutation k b es : ins k b es ≡ₚ (k, b) :: es.
Proof.
  induction es as [|e es IH]; simpl; [done|].
  destruct (k <=? e.1); [done|]. rewrite IH. apply Permutation_swap.
Qed.

Lemma ins_length k b es : length (ins k b es) = S (length es).
Proof. by rewrite ins_Permutation. Qed.

Lemma ins_sorted k b es :
  StronglySorted key_le es → StronglySorted key_le (ins k b es).
Proof.
  induction 1 as [|e es Hs IH Hall]; simpl.
  - repeat constructor.
  - destruct (k <=? e.1) eqn:E.
    + apply Z.leb_le in E. constructor; [by constructor|].
      constructor; [done|].
      eapply Forall_impl; [exact Hall|]. intros e'. unfold key_le. simpl. lia.
    + apply Z.leb_gt in E. constructor; [done|].
      rewrite ins_Permutation. constructor; [|done].
      unfold key_le. simpl. lia.
Qed.

(** *** The invariant, read on the entries *)

Lemma keys_sorted_entries (ks : list Z) (bs : list Backend) :
  length ks = length bs →
  Sorted Z.le ks ↔ StronglySorted key_le (zip ks bs).
Proof.
  intros Hlen. split.
  - intros Hs. apply Sorted_StronglySorted in Hs; [|apply _].
    revert bs Hlen. induction Hs as [|k ks Hs IH Hall]; intros [|b bs] Hlen;
      simplify_eq/=; constructor; [by apply IH|].
    apply Forall_forall. intros [k' b'] Hin.
    apply elem_of_zip_l in Hin. unfold key_le. simpl.
    rewrite Forall_forall in Hall. by apply Hall.
  - intros Hs. apply StronglySorted_Sorted.
    rewrite <-(fst_zip ks bs) by lia.
    eapply (StronglySorted_fmap fst key_le Z.le); [|done]. done.
Qed.

Lemma ch_inv_entries s :
  ch_inv s ↔
  StronglySorted key_le (entries s) ∧ length (keys s) = length (backends s).
Proof.
  unfold ch_inv, entries. split; intros [H1 H2]; split; try done.
  - by apply keys_sorted_entries.
  - by apply (keys_sorted_entries _ (backends s)).
Qed.

Lemma entries_length s :
  length (keys s) = length (backends s) → length (entries s) = length (keys s).
Proof. intros H. unfold entries. rewrite length_zip_with. lia. Qed.

Lemma entries_lookup s (i : nat) k :
  length (keys s) = length (backends s) →
  keys s !! i = Some k → ∃ b, backends s !! i = Some b ∧ entries s !! i = Some (k, b).
Proof.
  intros Hlen Hk. apply lookup_lt_Some in Hk as Hlt.
  destruct (lookup_lt_is_Some_2 (backends s) i) as [b Hb]; [lia|].
  exists b. split; [done|]. unfold entries.
  rewrite lookup_zip_with, Hk. simpl. by rewrite Hb.
Qed.

(** *** [insert] computes [ins], and keeps the invariant *)

Lemma Search_keys (p : Z → Z → bool) (ks : list Z) (k : Z) :
  Sorted Z.le ks →
  (∀ x y, x ≤ y → p k x = true → p k y = true) →
  ∃ r, Search (len ks) (fun i => ki ← index ks i; Ok (p k ki)) = Ok (Z.of_nat r) ∧
       (r ≤ length ks)%nat ∧
       (∀ a x, (a < r)%nat → ks !! a = Some x → p k x = false) ∧
       (∀ a x, (r ≤ a)%nat → ks !! a = Some x → p k x = true).
Proof.
  intros Hs Hp.
  apply Sorted_StronglySorted in Hs; [|apply _].
  destruct (Search_spec (fun i => p k (default 0 (ks !! Z.to_nat i)))
              (fun i => ki ← index ks i; Ok (p k ki)) (len ks))
    as (r & Hr & Hb & Hlo & Hhi).
  - unfold len. lia.
  - intros h Hh. destruct (index_in_range ks h Hh) as (x & -> & Hx).
    simpl. by rewrite Hx.
  - intros a b Hab Hb.
    destruct (index_in_range ks a ltac:(lia)) as (x & _ & Hx).
    destruct (index_in_range ks b ltac:(lia)) as (y & _ & Hy).
    rewrite Hx, Hy. simpl. apply Hp.
    destruct (decide (a = b)) as [->|Hne]; [simplify_eq; lia|].
    assert (Hlt : (Z.to_nat a < Z.to_nat b)%nat) by lia.
    clear -Hs Hx Hy Hlt.
    revert Hx Hy Hlt. generalize (Z.to_nat a) (Z.to_nat b). clear a b.
    induction Hs as [|z ks Hs IH Hall]; intros a b Hx Hy Hlt; [done|].
    destruct a as [|a], b as [|b]; simplify_eq/=; try lia.
    + rewrite Forall_forall in Hall. apply Hall. by eapply list_elem_of_lookup_2.
    + eapply IH; eauto. lia.
  - exists (Z.to_nat r). rewrite Z2Nat.id by lia. split; [done|].
    unfold len in Hb. split; [lia|]. split.
    + intros a x Ha Hx. specialize (Hlo (Z.of_nat a) ltac:(lia)).
      by rewrite Nat2Z.id, Hx in Hlo.
    + intros a x Ha Hx. apply lookup_lt_Some in Hx as Hlt.
      specialize (Hhi (Z.of_nat a) ltac:(unfold len; lia)).
      by rewrite Nat2Z.id, Hx in Hhi.
Qed.

Lemma insert_spec k b s :
  ch_inv s →
  ∃ s', insert k b s = Ok s' ∧
        entries s' = ins k b (entries s) ∧
        totalSlots s' = totalSlots s ∧
        ch_inv s'.
Proof.
  intros Hinv. pose proof Hinv as [Hs Hlen].
  destruct (Search_keys (fun k x => k <=? x) (keys s) k Hs)
    as (r & Hr & Hb & Hlo & Hhi).
  { intros x y Hxy Hx. apply Z.leb_le in Hx. apply Z.leb_le. lia. }
  assert (Hins : ins k b (entries s)
                 = zip (take r (keys s) ++ k :: drop r (keys s))
                       (take r (backends s) ++ b :: drop r (backends s))).
  { rewrite (ins_take_drop k b _ r).
    - unfold entries. rewrite zip_with_app by (rewrite !length_take; lia).
      simpl. by rewrite zip_with_take, zip_with_drop.
    - rewrite entries_length by done. lia.
    - intros a [k' b'] Ha He. unfold entries in He.
      apply lookup_zip_with_Some in He as (? & ? & [= <- <-] & Hk & _).
      simpl. specialize (Hlo a _ Ha Hk). apply Z.leb_gt in Hlo. lia.
    - intros [k' b'] He. unfold entries in He.
      apply lookup_zip_with_Some in He as (? & ? & [= <- <-] & Hk & _).
      simpl. specialize (Hhi r _ ltac:(lia) Hk). by apply Z.leb_le in Hhi. }
  assert (Hfinal : ∀ s',
    keys s' = take r (keys s) ++ k :: drop r (keys s) →
    backends s' = take r (backends s) ++ b :: drop r (backends s) →
    totalSlots s' = totalSlots s →
    entries s' = ins k b (entries s) ∧ totalSlots s' = totalSlots s ∧ ch_inv s').
  { intros s' Hk' Hb' Ht'.
    assert (He : entries s' = ins k b (entries s)).
    { rewrite Hins. unfold entries. by rewrite Hk', Hb'. }
    split; [done|]. split; [done|].
    apply ch_inv_entries. rewrite He. split.
    - apply ins_sorted. by apply ch_inv_entries.
    - rewrite Hk', Hb', !length_app. simpl.
      rewrite !length_take, !length_drop. lia. }
  unfold insert. rewrite Hr. simpl.
  destruct (Z.of_nat r =? len (keys s)) eqn:E.
  - apply Z.eqb_eq in E. unfold len in E.
    assert (r = length (keys s)) as Hr' by lia.
    eexists. split; [done|]. apply Hfinal; simpl; try done.
    + by rewrite Hr', take_ge, drop_ge by lia.
    + by rewrite Hr', Hlen, take_ge, drop_ge by lia.
  - apply Z.eqb_neq in E. unfold len in E.
    rewrite !slice_insert_ok by (unfold len; lia). simpl.
    rewrite Nat2Z.id.
    eexists. split; [done|]. by apply Hfinal.
Qed.

(** *** [Init] builds the ring of the topology, whatever the state before *)

Lemma CH_Init_loop_spec bs s :
  ch_inv s →
  ∃ s', CH_Init_loop bs s = Ok s' ∧
        entries s' = ring_from (totalSlots s) (entries s) bs ∧
        totalSlots s' = totalSlots s ∧
        ch_inv s'.
Proof.
  revert s. induction bs as [|b bs IH]; intros s Hinv.
  - exists s. by simpl.
  - simpl.
    destruct (insert_spec (chPos (Backend_String b) (totalSlots s)) b s Hinv)
      as (s1 & -> & He & Ht & Hinv1).
    simpl. destruct (IH s1 Hinv1) as (s' & -> & He' & Ht' & Hinv').
    exists s'. split; [done|]. split; [|split; [congruence|done]].
    rewrite He', He, Ht. done.
Qed.

Lemma ch_inv_empty ts : ch_inv {| keys := []; backends := []; totalSlots := ts |}.
Proof. split; [constructor|done]. Qed.

Lemma CH_Init_spec bs s :
  ∃ s', CH_Init bs s = Ok s' ∧
        entries s' = ring (totalSlots s) bs ∧
        totalSlots s' = totalSlots s ∧
        ch_inv s'.
Proof.
  unfold CH_Init.
  destruct (CH_Init_loop_spec bs _ (ch_inv_empty (totalSlots s)))
    as (s' & Hs' & He & Ht & Hinv).
  exists s'. done.
Qed.

Lemma New_spec bs :
  ∃ s, NewConsistentHashStrategy bs = Ok s ∧
       entries s = ring (2 ^ 32) bs ∧ totalSlots s = 2 ^ 32 ∧ ch_inv s.
Proof. apply (CH_Init_spec bs {| keys := []; backends := []; totalSlots := 2 ^ 32 |}). Qed.

Lemma CH_RegisterBackend_spec b s :
  ch_inv s →
  ∃ s', CH_RegisterBackend b s = Ok s' ∧
        entries s' = ins (chPos (Backend_String b) (totalSlots s)) b (entries s) ∧
        totalSlots s' = totalSlots s ∧ ch_inv s'.
Proof. apply insert_spec. Qed.

Lemma ring_from_sorted ts es bs :
  StronglySorted key_le es → StronglySorted key_le (ring_from ts es bs).
Proof.
  revert es. induction bs as [|b bs IH]; intros es Hs; simpl; [done|].
  apply IH. by apply ins_sorted.
Qed.

Lemma ring_from_Permutation ts es bs :
  ring_from ts es bs ≡ₚ es ++ ((fun b => (chPos (Backend_String b) ts, b)) <$> bs).
Proof.
  revert es. induction bs as [|b bs IH]; intros es; simpl.
  - by rewrite app_nil_r.
  - rewrite IH, ins_Permutation. simpl. by rewrite <-Permutation_middle.
Qed.

Lemma ring_app ts bs1 bs2 :
  ring ts (bs1 ++ bs2) = ring_from ts (ring ts bs1) bs2.
Proof. unfold ring, ring_from. by rewrite fold_left_app. Qed.

Lemma ring_sorted ts bs : StronglySorted key_le (ring ts bs).
Proof. apply ring_from_sorted. constructor. Qed.

Lemma ring_Permutation ts bs :
  ring ts bs ≡ₚ (fun b => (chPos (Backend_String b) ts, b)) <$> bs.
Proof. unfold ring. by rewrite ring_from_Permutation. Qed.

Lemma backends_entries s :
  length (keys s) = length (backends s) → backends s = (entries s).*2.
Proof. intros H. unfold entries. rewrite snd_zip; [done|lia]. Qed.

Lemma keys_entries s :
  length (keys s) = length (backends s) → keys s = (entries s).*1.
Proof. intros H. unfold entries. rewrite fst_zip; [done|lia]. Qed.

(** *** Lookup *)

Lemma find_skip {A} (P : A → bool) (es : list A) (r : nat) :
  (∀ a e, (a < r)%nat → es !! a = Some e → P e = false) →
  find P es = find P (drop r es).
Proof.
  revert r. induction es as [|e es IH]; intros r Hlo; [by destruct r|].
  destruct r as [|r]; [done|]. simpl.
  rewrite (Hlo 0%nat e) by (done || lia).
  apply IH. intros a e' Ha. apply (Hlo (S a)). lia.
Qed.

(** Under the invariant, [GetNextBackend] returns the backend of the first
    entry strictly to the right of the slot, wrapping to entry 0. *)
Lemma CH_GetNextBackend_spec req s :
  ch_inv s →
  CH_GetNextBackend req s
  = Ok (pick (chPos (key req) (totalSlots s)) (entries s), s).
Proof.
  intros [Hs Hlen]. unfold CH_GetNextBackend.
  destruct (len (backends s) =? 0) eqn:E.
  - apply Z.eqb_eq in E. unfold len in E.
    assert (backends s = []) as Hb by (apply length_zero_iff_nil; lia).
    unfold entries. rewrite Hb, zip_with_nil_r. done.
  - apply Z.eqb_neq in E. unfold len in E.
    set (slot := chPos (key req) (totalSlots s)).
    destruct (Search_keys (fun k x => k <? x) (keys s) slot Hs)
      as (r & Hr & Hb & Hlo & Hhi).
    { intros x y Hxy Hx. apply Z.ltb_lt in Hx. apply Z.ltb_lt. lia. }
    rewrite Hr. simpl.
    assert (Hfind : find (fun e : Z * Backend => slot <? e.1) (entries s)
                    = find (fun e : Z * Backend => slot <? e.1) (drop r (entries s))).
    { apply find_skip. intros a [k b] Ha He. unfold entries in He.
      apply lookup_zip_with_Some in He as (? & ? & [= <- <-] & Hk & _).
      simpl. by apply (Hlo a). }
    unfold pick. rewrite Hfind.
    destruct (decide (r = length (keys s))) as [->|Hne].
    + rewrite drop_ge by (rewrite entries_length; done). simpl.
      unfold len. rewrite Hlen, Z.rem_same by lia.
      destruct (backends s) as [|b bs] eqn:Eb; [done|].
      destruct (keys s) as [|k ks] eqn:Ek; [done|].
      unfold entries. rewrite Eb, Ek. done.
    + destruct (lookup_lt_is_Some_2 (keys s) r) as [k Hk]; [lia|].
      destruct (entries_lookup s r k Hlen Hk) as (b & Hbk & He).
      rewrite (drop_S _ (k, b)) by done. simpl.
      rewrite (Hhi r k) by (done || lia).
      rewrite Z.rem_small by (unfold len; lia).
      rewrite (index_lookup _ _ b); [done|lia|by rewrite Nat2Z.id].
Qed.

Lemma pick_elem_of slot es b : pick slot es = Some b → b ∈ es.*2.
Proof.
  unfold pick. destruct (find _ es) as [e|] eqn:E.
  - intros [= <-]. apply find_some in E as [Hin _].
    apply list_elem_of_fmap. exists e. split; [done|]. by apply list_elem_of_In.
  - destruct es as [|e es]; [done|]. simpl. intros [= <-]. left.
Qed.

Lemma pick_is_Some slot es : es ≠ [] → is_Some (pick slot es).
Proof.
  unfold pick. destruct (find _ es); [by eexists|].
  destruct es; [done|]. by eexists.
Qed.

(** *** Removing one entry *)

Lemma ins_del1_new k b es : del1 (k, b) (ins k b es) es.
Proof.
  induction es as [|e es IH]; simpl.
  - by exists [], [].
  - destruct (k <=? e.1).
    + by exists [], (e :: es).
    + destruct IH as (xs & ys & -> & Hes). exists (e :: xs), ys.
      split; [done|]. simpl. by f_equal.
Qed.

Lemma ins_all_lt k b xs ys :
  Forall (fun e => e.1 < k) xs → ins k b (xs ++ ys) = xs ++ ins k b ys.
Proof.
  induction 1 as [|e xs He _ IH]; [done|]. simpl.
  destruct (k <=? e.1) eqn:E; [lia|]. by rewrite IH.
Qed.

Lemma ins_some_ge k b xs ys :
  Exists (fun e => k ≤ e.1) xs → ins k b (xs ++ ys) = ins k b xs ++ ys.
Proof.
  induction xs as [|e xs IH]; intros Hex; [by apply Exists_nil in Hex|].
  simpl. destruct (k <=? e.1) eqn:E; [done|].
  apply Exists_cons in Hex as [He|Hex]; [lia|]. by rewrite IH.
Qed.

Lemma ins_del1 k b e es es' :
  StronglySorted key_le es →
  del1 e es es' → del1 e (ins k b es) (ins k b es').
Proof.
  intros Hs (xs & ys & -> & ->).
  destruct (decide (Exists (fun e => k ≤ e.1) xs)) as [Hex|Hall].
  - rewrite !ins_some_ge by done. by exists (ins k b xs), ys.
  - apply not_Exists_Forall in Hall; [|intros x; apply _].
    assert (Hlt : Forall (fun e => e.1 < k) xs).
    { eapply Forall_impl; [exact Hall|]. simpl. intros x. lia. }
    rewrite !ins_all_lt by done. simpl.
    destruct (k <=? e.1) eqn:E.
    + apply Z.leb_le in E.
      assert (Hys : ins k b ys = (k, b) :: ys).
      { destruct ys as [|y ys]; [done|]. simpl.
        apply StronglySorted_app_1_r, StronglySorted_cons in Hs as [Hall' _].
        apply Forall_cons in Hall' as [Hy _]. unfold key_le in Hy.
        destruct (k <=? y.1) eqn:E'; [done|lia]. }
      rewrite Hys. exists (xs ++ [(k, b)]), ys. by rewrite <-!app_assoc.
    + by exists xs, (ins k b ys).
Qed.

Lemma del1_sorted e es es' :
  StronglySorted key_le es → del1 e es es' → StronglySorted key_le es'.
Proof.
  intros Hs (xs & ys & -> & ->).
  apply StronglySorted_app in Hs as (H1 & H2 & H3).
  apply StronglySorted_app. split; [|split; [done|]].
  - intros x1 x2 Hx1 Hx2. apply H1; [done|]. by right.
  - by apply StronglySorted_cons in H3 as [_ H3].
Qed.

Lemma ring_from_del1 ts e es es' bs :
  StronglySorted key_le es →
  del1 e es es' → del1 e (ring_from ts es bs) (ring_from ts es' bs).
Proof.
  revert es es'. induction bs as [|b bs IH]; intros es es' Hs Hd; simpl; [done|].
  apply IH; [by apply ins_sorted|by apply ins_del1].
Qed.

(** A key that was not routed to the removed entry keeps its backend. *)
Lemma pick_del1 slot e es es' b :
  del1 e es es' → pick slot es = Some b → b ≠ e.2 → pick slot es' = Some b.
Proof.
  intros (xs & ys & -> & ->) Hp Hne. unfold pick in *.
  destruct (find (fun e => slot <? e.1) xs) as [x|] eqn:Ex.
  - apply find_some in Ex as Hx.
    assert (∀ zs, find (fun e : Z * Backend => slot <? e.1) (xs ++ zs) = Some x) as Hf.
    { intros zs. clear -Ex. induction xs as [|y xs IH]; [done|]. simpl in *.
      destruct (slot <? y.1); [done|]. by apply IH. }
    by rewrite Hf in *.
  - assert (∀ zs, find (fun e : Z * Backend => slot <? e.1) (xs ++ zs)
                  = find (fun e : Z * Backend => slot <? e.1) zs) as Hf.
    { intros zs. clear -Ex. induction xs as [|y xs IH]; [done|]. simpl in *.
      destruct (slot <? y.1); [done|]. by apply IH. }
    rewrite Hf in *. simpl in Hp.
    destruct (slot <? e.1); [by simplify_eq|].
    destruct (find _ ys); [done|].
    destruct xs as [|x xs]; [by simplify_eq/=|done].
Qed.

(** *** The four strategies: well-formed states and what a call returns *)

Lemma len_nil_iff {A} (l : list A) : len l = 0 ↔ l = [].
Proof.
  unfold len. split; [|by intros ->].
  intros H. apply length_zero_iff_nil. lia.
Qed.

Lemma len_nonneg {A} (l : list A) : 0 ≤ len l.
Proof. unfold len. lia. Qed.

Lemma index_elem_of {A} (l : list A) i x : index l i = Ok x → x ∈ l.
Proof. intros [_ H]%index_Ok. by eapply list_elem_of_lookup_2. Qed.

Lemma SimpleHash_next req s :
  len (sh_Backends s) < 2 ^ 32 →
  ∃ r, SimpleHash_GetNextBackend req s = Ok (r, s) ∧
       (r = None ↔ sh_Backends s = []) ∧ (∀ b, r = Some b → b ∈ sh_Backends s).
Proof.
  intros Hsz. unfold SimpleHash_GetNextBackend.
  pose proof (len_nonneg (sh_Backends s)) as Hn.
  destruct (len (sh_Backends s) =? 0) eqn:E.
  - apply Z.eqb_eq, len_nil_iff in E. exists None. rewrite E. naive_solver.
  - apply Z.eqb_neq in E. rewrite Z.mod_small by lia.
    rewrite (proj2 (Z.eqb_neq _ _) E).
    set (idx := fnv32a _ mod _).
    assert (0 ≤ idx < len (sh_Backends s)) as Hidx
      by (apply Z.mod_pos_bound; lia).
    destruct (index_in_range _ _ Hidx) as (b & Hb & Hl). rewrite Hb. simpl.
    exists (Some b). split; [done|]. split.
    + split; [done|]. intros Hnil. by rewrite Hnil in E.
    + intros b' [= <-]. by eapply index_elem_of.
Qed.

Lemma RR_next req s :
  0 ≤ rr_Index s →
  rr_Backends s ≠ [] →
  ∃ b, RR_GetNextBackend req s
       = Ok (Some b, {| rr_Index := (rr_Index s + 1) mod len (rr_Backends s);
                        rr_Backends := rr_Backends s |}) ∧
       rr_Backends s !! Z.to_nat ((rr_Index s + 1) mod len (rr_Backends s)) = Some b.
Proof.
  intros Hidx Hne. unfold RR_GetNextBackend.
  pose proof (len_nonneg (rr_Backends s)) as Hn.
  destruct (len (rr_Backends s) =? 0) eqn:E.
  { apply Z.eqb_eq, len_nil_iff in E. done. }
  apply Z.eqb_neq in E. simpl.
  rewrite Z.rem_mod_nonneg by lia.
  assert (0 ≤ (rr_Index s + 1) mod len (rr_Backends s) < len (rr_Backends s)) as Hi
    by (apply Z.mod_pos_bound; lia).
  destruct (index_in_range _ _ Hi) as (b & Hb & Hl). rewrite Hb. simpl.
  by exists b.
Qed.

Lemma pick_None slot es : pick slot es = None ↔ es = [].
Proof.
  split; [|by intros ->]. intros H.
  destruct es as [|e es]; [done|].
  destruct (pick_is_Some slot (e :: es)) as [b Hb]; [done|]. congruence.
Qed.

Lemma entries_nil s :
  length (keys s) = length (backends s) → entries s = [] ↔ backends s = [].
Proof.
  intros Hlen. rewrite (backends_entries s Hlen). split; [by intros ->|].
  by intros ?%fmap_nil_inv.
Qed.

Lemma GetNextBackend_total st req :
  Strategy_wf st →
  len (Strategy_backends st) < 2 ^ 32 →
  ∃ r st', GetNextBackend req st = Ok (r, st') ∧
           Strategy_wf st' ∧
           Strategy_backends st' = Strategy_backends st ∧
           (r = None ↔ Strategy_backends st = []) ∧
           (∀ b, r = Some b → b ∈ Strategy_backends st) ∧
           (cursor st = None → st' = st).
Proof.
  intros Hwf Hsz. destruct st as [s|s|s|s]; simpl in *.
  - destruct (SimpleHash_next req s Hsz) as (r & -> & H1 & H2).
    exists r, (SimpleHash s). by simpl.
  - destruct (decide (rr_Backends s = [])) as [Hnil|Hne].
    + exists None, (RoundRobin s). split.
      { unfold RR_GetNextBackend. by rewrite Hnil. }
      simpl. split_and!; done || lia.
    + destruct (RR_next req s) as (b & -> & Hb); [lia|done|]. simpl.
      eexists _, _. split; [done|]. simpl.
      pose proof (len_nonneg (rr_Backends s)).
      assert (len (rr_Backends s) ≠ 0) by by rewrite len_nil_iff.
      split; [|split; [done|split; [done|split; [|done]]]].
      * pose proof (Z.mod_pos_bound (rr_Index s + 1) (len (rr_Backends s))). lia.
      * intros b' [= <-]. by eapply list_elem_of_lookup_2.
  - unfold Static_GetNextBackend.
    destruct (len (st_Backends s) =? 0) eqn:E.
    + apply Z.eqb_eq, len_nil_iff in E. exists None, (Static s).
      rewrite E. naive_solver.
    + apply Z.eqb_neq in E. rewrite Hwf.
      pose proof (len_nonneg (st_Backends s)).
      destruct (index_in_range (st_Backends s) 0) as (b & Hb & Hl); [lia|].
      rewrite Hb. simpl. exists (Some b), (Static s).
      split; [done|]. split; [done|]. split; [done|]. split.
      * split; [done|]. intros Hnil. by rewrite Hnil in E.
      * split; [|done]. intros b' [= <-]. by eapply index_elem_of.
  - rewrite (CH_GetNextBackend_spec req s Hwf). simpl.
    destruct Hwf as [Hs Hlen].
    eexists _, (ConsistentHash s). split; [done|]. split; [done|].
    split; [done|]. split; [|split; [|done]].
    + by rewrite pick_None, entries_nil.
    + intros b Hb. rewrite (backends_entries s Hlen). by eapply pick_elem_of.
Qed.

Lemma fmap_Ok_inv {A B} (f : A → B) (r : result A) (y : B) :
  f <$> r = Ok y → ∃ x, r = Ok x ∧ y = f x.
Proof. destruct r as [x|]; [|done]. intros [= <-]. by exists x. Qed.

Lemma strategy_by_name_spec name bs :
  ∃ st, strategy_by_name name bs = Ok st ∧ Strategy_wf st ∧
        Strategy_backends st ≡ₚ bs ∧ (cursor st = None ∨ cursor st = Some 0).
Proof.
  unfold strategy_by_name.
  destruct (_ || _).
  { eexists. split; [done|]. simpl. split; [|by auto].
    pose proof (len_nonneg bs). lia. }
  destruct (bool_decide _).
  { eexists. split; [done|]. simpl. by auto. }
  destruct (_ || _).
  { eexists. split; [done|]. simpl. by auto. }
  destruct (New_spec bs) as (s & -> & He & Ht & Hinv).
  exists (ConsistentHash s). split; [done|]. split; [done|]. split; [|by left].
  simpl. destruct Hinv as [_ Hlen].
  rewrite (backends_entries s Hlen), He, ring_Permutation.
  rewrite <-list_fmap_compose. by rewrite list_fmap_id.
Qed.

Lemma Strategy_Init_spec bs st :
  ∃ st', Init bs st = Ok st' ∧ Strategy_wf st' ∧ Strategy_backends st' ≡ₚ bs ∧
         (cursor st' = None ∨ cursor st' = Some 0).
Proof.
  destruct st as [s|s|s|s]; simpl.
  - eexists. split; [done|]. simpl. split_and!; auto.
  - eexists. split; [done|]. simpl. split; [|by auto].
    pose proof (len_nonneg bs). lia.
  - eexists. split; [done|]. simpl. split_and!; auto.
  - destruct (CH_Init_spec bs s) as (s' & -> & He & Ht & Hinv).
    exists (ConsistentHash s'). split; [done|]. split; [done|]. split; [|by left].
    simpl. destruct Hinv as [_ Hlen].
    rewrite (backends_entries s' Hlen), He, ring_Permutation.
    rewrite <-list_fmap_compose. by rewrite list_fmap_id.
Qed.

Lemma Strategy_RegisterBackend_wf b st :
  Strategy_wf st → ∃ st', RegisterBackend b st = Ok st' ∧ Strategy_wf st'.
Proof.
  intros Hwf. destruct st as [s|s|s|s]; simpl in *.
  - by eexists.
  - eexists. split; [done|]. simpl. unfold len in *. rewrite length_app. simpl. lia.
  - by eexists.
  - destruct (CH_RegisterBackend_spec b s Hwf) as (s' & -> & _ & _ & Hinv).
    by exists (ConsistentHash s').
Qed.

(** Every state the program can build is well formed. *)
Lemma reachable_wf st : reachable st → Strategy_wf st.
Proof.
  induction 1 as [name bs st Hnew|bs st st' _ _ Hinit|req st r st' _ IH Hnext
                 |b st st' _ IH Hreg].
  - destruct (strategy_by_name_spec name bs) as (st0 & H0 & Hwf & _). congruence.
  - destruct (Strategy_Init_spec bs st) as (st0 & H0 & Hwf & _). congruence.
  - destruct st as [s|s|s|s]; simpl in *;
      apply fmap_Ok_inv in Hnext as ([r0 s0] & Hnext & [= -> ->]); simpl.
    + done.
    + unfold RR_GetNextBackend in Hnext.
      destruct (len (rr_Backends s) =? 0) eqn:E; [by simplify_eq|].
      apply Z.eqb_neq in E. simpl in Hnext.
      destruct (index _ _) eqn:Ei; simplify_eq/=.
      apply index_Ok in Ei as [Hb _]. lia.
    + unfold Static_GetNextBackend in Hnext.
      destruct (len (st_Backends s) =? 0); [by simplify_eq|].
      destruct (index _ _); by simplify_eq/=.
    + rewrite (CH_GetNextBackend_spec req s IH) in Hnext. by simplify_eq.
  - destruct (Strategy_RegisterBackend_wf b st IH) as (st0 & H0 & Hwf). congruence.
Qed.

(** *** Round robin over a sequence of requests *)

Lemma RR_serve reqs s :
  0 ≤ rr_Index s < len (rr_Backends s) →
  serve reqs s
  = Ok ((fun j => rr_Backends s
                    !! Z.to_nat ((rr_Index s + 1 + Z.of_nat j) mod len (rr_Backends s)))
          <$> seq 0 (length reqs),
        {| rr_Index := (rr_Index s + Z.of_nat (length reqs)) mod len (rr_Backends s);
           rr_Backends := rr_Backends s |}).
Proof.
  revert s. induction reqs as [|req reqs IH]; intros s Hidx.
  - simpl. rewrite Z.add_0_r, Z.mod_small by lia. by destruct s.
  - assert (rr_Backends s ≠ []) as Hne.
    { intros Hnil. rewrite Hnil in Hidx. unfold len in Hidx. simpl in Hidx. lia. }
    destruct (RR_next req s) as (b & Hb & Hl); [lia|done|].
    pose proof (Z.mod_pos_bound (rr_Index s + 1) (len (rr_Backends s))
                  ltac:(lia)) as Hm.
    specialize (IH {| rr_Index := (rr_Index s + 1) mod len (rr_Backends s);
                      rr_Backends := rr_Backends s |} Hm).
    cbn [rr_Index rr_Backends] in IH.
    change (serve (req :: reqs) s)
      with (r ← RR_GetNextBackend req s; r' ← serve reqs r.2; Ok (r.1 :: r'.1, r'.2)).
    rewrite Hb. cbn [mbind result_bind snd fst]. rewrite IH.
    cbn [mbind result_bind snd fst].
    change (seq 0 (length (req :: reqs))) with (0%nat :: seq 1 (length reqs)).
    rewrite fmap_cons, <-fmap_S_seq, <-list_fmap_compose.
    f_equal. f_equal; [f_equal|].
    + rewrite <-Hl. by replace (rr_Index s + 1 + Z.of_nat 0) with (rr_Index s + 1) by lia.
    + apply list_fmap_ext. intros i j _. cbn [compose].
      rewrite <-Z.add_assoc, Z.add_mod_idemp_l by lia.
      by replace (rr_Index s + 1 + (1 + Z.of_nat j))
        with (rr_Index s + 1 + Z.of_nat (S j)) by lia.
    + rewrite Z.add_mod_idemp_l by lia.
      by replace (rr_Index s + 1 + Z.of_nat (length reqs))
        with (rr_Index s + Z.of_nat (length (req :: reqs))) by (simpl length; lia).
Qed.

Lemma rotate_lookups {A} (l : list A) (c : Z) :
  0 ≤ c →
  Some <$> rotate (Z.to_nat c) l
  = (fun j => l !! Z.to_nat ((c + Z.of_nat j) mod len l)) <$> seq 0 (length l).
Proof.
  intros Hc. apply list_eq. intros i.
  rewrite !list_lookup_fmap.
  destruct (decide (i < length l)%nat) as [Hlt|Hge].
  - rewrite lookup_rotate_r, lookup_seq_lt by done. simpl.
    unfold rotate_nat_add, len. rewrite Z2Nat.id by lia.
    destruct (l !! _) eqn:E; [done|].
    apply lookup_ge_None in E.
    pose proof (Z.mod_pos_bound (c + Z.of_nat i) (Z.of_nat (length l))). lia.
  - rewrite lookup_seq_ge by lia.
    rewrite (proj2 (lookup_ge_None _ _)); [done|]. rewrite length_rotate. lia.
Qed.

(** *** The control plane *)

Lemma find_backend_spec host port bs i :
  (find_backend host port bs i = -1 ∧ 0 ≤ i →
     Forall (fun b => identity b ≠ (host, port)) bs) ∧
  (0 ≤ i → find_backend host port bs i ≠ -1 →
     ∃ l1 B l2, bs = l1 ++ B :: l2 ∧ identity B = (host, port) ∧
                find_backend host port bs i = i + len l1).
Proof.
  revert i. induction bs as [|b bs IH]; intros i.
  - split; [by constructor|done].
  - simpl. destruct (bool_decide (Host b = host) && (Port b =? port)) eqn:E.
    + split; [lia|]. intros Hi _. exists [], b, bs.
      apply andb_true_iff in E as [E1%bool_decide_eq_true E2%Z.eqb_eq].
      split; [done|]. split; [unfold identity; congruence|].
      unfold len. simpl. lia.
    + destruct (IH (i + 1)) as [IH1 IH2]. split.
      * intros [H Hi]. constructor; [|apply IH1; split; [done|lia]].
        unfold identity. intros [= H1 H2].
        apply andb_false_iff in E as [E%bool_decide_eq_false|E%Z.eqb_neq]; done.
      * intros Hi Hne.
        destruct (IH2 ltac:(lia) Hne) as (l1 & B & l2 & -> & HB & Hf).
        exists (b :: l1), B, l2. split; [done|]. split; [done|].
        rewrite Hf. unfold len. simpl length. lia.
Qed.

Lemma removeBackend_true host port lb lb' :
  removeBackend host port lb = (true, lb') →
  ∃ l1 B l2, lb_backends lb = l1 ++ B :: l2 ∧ identity B = (host, port) ∧
             lb_backends lb' = l1 ++ l2 ∧
             lb_strategy lb' = lb_strategy lb ∧ demoKeys lb' = demoKeys lb.
Proof.
  unfold removeBackend.
  destruct (find_backend host port (lb_backends lb) 0 =? -1) eqn:E; [done|].
  apply Z.eqb_neq in E. intros [= <-].
  destruct (find_backend_spec host port (lb_backends lb) 0) as [_ H].
  destruct (H ltac:(lia) E) as (l1 & B & l2 & Hbs & HB & Hf).
  exists l1, B, l2. split; [done|]. split; [done|]. simpl. split; [|done].
  rewrite Hf, Hbs. unfold len.
  replace (Z.to_nat (0 + Z.of_nat (length l1))) with (length l1) by lia.
  replace (Z.to_nat (0 + Z.of_nat (length l1) + 1)) with (S (length l1)) by lia.
  rewrite take_app_length. f_equal.
  rewrite (cons_middle B), app_assoc.
  apply drop_app_length'. rewrite length_app. simpl. lia.
Qed.

Lemma removeBackend_false host port lb lb' :
  removeBackend host port lb = (false, lb') →
  lb' = lb ∧ Forall (fun b => identity b ≠ (host, port)) (lb_backends lb).
Proof.
  unfold removeBackend.
  destruct (find_backend host port (lb_backends lb) 0 =? -1) eqn:E; [|done].
  apply Z.eqb_eq in E. intros [= <-]. split; [done|].
  apply (find_backend_spec host port (lb_backends lb) 0). split; [done|lia].
Qed.

Lemma ch_route_spec bs key :
  ch_route bs key = Ok (pick (chPos key (2 ^ 32)) (ring (2 ^ 32) bs)).
Proof.
  unfold ch_route. destruct (New_spec bs) as (s & -> & He & Ht & Hinv).
  cbn [mbind result_bind GetNextBackend CH_strategy].
  rewrite (CH_GetNextBackend_spec _ s Hinv). simpl. by rewrite He, Ht.
Qed.

Lemma snapshot_loop_total ks st m :
  Strategy_wf st →
  len (Strategy_backends st) < 2 ^ 32 →
  ∃ m' st', snapshot_loop ks st m = Ok (m', st') ∧
            Strategy_wf st' ∧
            Strategy_backends st' = Strategy_backends st ∧
            (cursor st = None → st' = st).
Proof.
  revert st m. induction ks as [|k ks IH]; intros st m Hwf Hsz.
  - by exists m, st.
  - destruct (GetNextBackend_total st {| reqId := ""; key := k |} Hwf Hsz)
      as (r & st1 & Hr & Hwf1 & Hbs1 & _ & _ & Hc1).
    cbn [snapshot_loop]. rewrite Hr. cbn [mbind result_bind].
    assert (len (Strategy_backends st1) < 2 ^ 32) as Hsz1 by by rewrite Hbs1.
    destruct r as [b|].
    + destruct (IH st1 (<[k:=Backend_String b]> m) Hwf1 Hsz1)
        as (m' & st' & -> & Hwf' & Hbs' & Hc').
      exists m', st'. split; [done|]. split; [done|]. split; [congruence|].
      intros Hc. specialize (Hc1 Hc). subst st1. by apply Hc'.
    + destruct (IH st1 (<[k:="<nil>"]> m) Hwf1 Hsz1)
        as (m' & st' & -> & Hwf' & Hbs' & Hc').
      exists m', st'. split; [done|]. split; [done|]. split; [congruence|].
      intros Hc. specialize (Hc1 Hc). subst st1. by apply Hc'.
Qed.

Lemma snapshot_total lb :
  Strategy_wf (lb_strategy lb) →
  len (Strategy_backends (lb_strategy lb)) < 2 ^ 32 →
  ∃ m lb', snapshot lb = Ok (Some m, lb') ∧
           lb_backends lb' = lb_backends lb ∧
           demoKeys lb' = demoKeys lb ∧
           Strategy_wf (lb_strategy lb') ∧
           Strategy_backends (lb_strategy lb') = Strategy_backends (lb_strategy lb) ∧
           (cursor (lb_strategy lb) = None → lb' = lb).
Proof.
  intros Hwf Hsz. unfold snapshot.
  destruct (snapshot_loop_total (demoKeys lb) (lb_strategy lb) ∅ Hwf Hsz)
    as (m & st' & -> & Hwf' & Hbs' & Hc).
  cbn [mbind result_bind fst snd]. eexists _, _. split; [done|]. simpl.
  split_and!; try done. intros Hcur. rewrite (Hc Hcur). by destruct lb.
Qed.

Lemma printRemap_loop_no_error ks before after moved :
  Forall (fun l => is_error_line l = false)
    (printRemap_loop ks before after moved).2.
Proof.
  revert moved. induction ks as [|k ks IH]; intros moved; simpl; [done|].
  destruct before; simpl; constructor; auto.
Qed.

Lemma printRemap_no_error lb what before after :
  Forall (fun l => is_error_line l = false) (printRemap lb what before after).2.
Proof.
  unfold printRemap. simpl. constructor; [done|].
  apply Forall_app. split; [apply printRemap_loop_no_error|].
  destruct before; by repeat constructor.
Qed.

Lemma handle_add_eq b lb :
  handle (mkEvent CMD_BackendAdd (DBackend b)) lb
  = (r ← snapshot lb;
     let '(before, lb) := r in
     let lb := set_backends (lb_backends lb ++ [b]) lb in
     st ← Init (lb_backends lb) (lb_strategy lb);
     let lb := set_strategy st lb in
     r ← snapshot lb;
     let '(after, lb) := r in
     Ok (Some lb, (printRemap lb "ADD" before after).2)).
Proof. reflexivity. Qed.

Lemma handle_rm_eq port lb :
  handle (mkEvent CMD_BackendRemove (DInt port)) lb
  = (r ← snapshot lb;
     let '(before, lb) := r in
     let '(found, lb) := removeBackend "localhost" port lb in
     if found then
       st ← Init (lb_backends lb) (lb_strategy lb);
       let lb := set_strategy st lb in
       r ← snapshot lb;
       let '(after, lb) := r in
       Ok (Some lb, (printRemap lb "REMOVE" before after).2)
     else Ok (Some lb, [LogNoBackend port])).
Proof. reflexivity. Qed.

(** What a remove command for an absent backend does by design: the
    topology is kept, the error is logged, and a strategy without a cursor is
    kept as it was. *)
Lemma handle_rm_absent port lb :
  Strategy_wf (lb_strategy lb) →
  len (Strategy_backends (lb_strategy lb)) < 2 ^ 32 →
  Forall (fun b => identity b ≠ ("localhost", port)) (lb_backends lb) →
  ∃ lb', handle (mkEvent CMD_BackendRemove (DInt port)) lb
         = Ok (Some lb', [LogNoBackend port]) ∧
         lb_backends lb' = lb_backends lb ∧
         (cursor (lb_strategy lb) = None → lb' = lb).
Proof.
  intros Hwf Hsz Habs. rewrite handle_rm_eq.
  destruct (snapshot_total lb Hwf Hsz) as (m & lb1 & -> & Hbs & _ & _ & _ & Hc).
  cbn [mbind result_bind].
  destruct (removeBackend "localhost" port lb1) as [found lb2] eqn:Erm.
  destruct found.
  - apply removeBackend_true in Erm as (l1 & B & l2 & Hl & HB & _).
    rewrite Hbs in Hl. rewrite Hl in Habs.
    apply Forall_app in Habs as [_ Habs]. by apply Forall_cons in Habs as [? _].
  - apply removeBackend_false in Erm as [-> _].
    exists lb1. split; [done|]. split; [done|]. done.
Qed.

End GoFacts.

(** ** Properties of the engine *)

Module GoClaims.
Import Go GoSpec GoFacts.
Local Open Scope Z_scope.

(** C3 (bounded movement).  On the ring of the engine, removing one backend
    from the topology changes the backend of a key only if the key was routed
    to a backend with the removed identity: a key routed to any other backend
    is routed to the same backend afterwards. *)
Theorem bounded_movement_on_removal
    (lb lb' : LB) (host : string) (port : Z) (key : string) (b : Backend) :
  removeBackend host port lb = (true, lb') →
  ch_route (lb_backends lb) key = Ok (Some b) →
  identity b ≠ (host, port) →
  ch_route (lb_backends lb') key = Ok (Some b).
Proof.
  intros Hrm Hroute Hid.
  apply removeBackend_true in Hrm as (l1 & B & l2 & Hl & HB & Hl' & _).
  rewrite ch_route_spec in *. injection Hroute as Hpick. f_equal.
  rewrite Hl in Hpick. rewrite Hl'.
  rewrite ring_app in *. cbn [ring_from fold_left] in Hpick.
  eapply (pick_del1 _ (chPos (Backend_String B) (2 ^ 32), B)); [|exact Hpick|].
  - apply ring_from_del1; [apply ins_sorted, ring_sorted|apply ins_del1_new].
  - simpl. intros ->. by apply Hid.
Qed.

Lemma bounded_movement_on_removal_witness :
  removeBackend "localhost" 8083 lb0
    = (true, (removeBackend "localhost" 8083 lb0).2) ∧
  ch_route (lb_backends lb0) "10.0.0.1" = Ok (Some (localhost 8081)) ∧
  identity (localhost 8081) ≠ ("localhost", 8083) ∧
  ch_route (lb_backends (removeBackend "localhost" 8083 lb0).2) "10.0.0.1"
    = Ok (Some (localhost 8081)).
Proof.
  assert (H1 : removeBackend "localhost" 8083 lb0
               = (true, (removeBackend "localhost" 8083 lb0).2))
    by (vm_compute; reflexivity).
  assert (H2 : ch_route (lb_backends lb0) "10.0.0.1" = Ok (Some (localhost 8081)))
    by (vm_compute; reflexivity).
  assert (H3 : identity (localhost 8081) ≠ ("localhost", 8083))
    by (vm_compute; discriminate).
  exact (conj H1 (conj H2 (conj H3
    (bounded_movement_on_removal _ _ _ _ _ _ H1 H2 H3)))).
Defined.

(** C4.  Evaluation at the failing input: with round robin active over five
    backends (the seed topology after [strat rr] and [add 8085]), computing a
    snapshot moves the cursor from 2 to 4. *)
Theorem snapshot_advances_round_robin_cursor :
  let lb := lb_after [ev_strat "rr"; ev_add 8085] in
  cursor (lb_strategy lb) = Some 2 ∧
  (fun r : GoMap * LB => cursor (lb_strategy r.2)) <$> snapshot lb = Ok (Some 4).
Proof. split; vm_compute; reflexivity. Qed.

(** C5, as amended.  An add command appends the backend to the topology and
    re-initialises the active strategy on the new topology, whether or not the
    identity is already present; no error is logged. *)
Theorem add_backend_appends (lb : LB) (b : Backend) :
  Strategy_wf (lb_strategy lb) →
  len (Strategy_backends (lb_strategy lb)) < 2 ^ 32 →
  len (lb_backends lb) + 1 < 2 ^ 32 →
  ∃ lb' log,
    handle (mkEvent CMD_BackendAdd (DBackend b)) lb = Ok (Some lb', log) ∧
    lb_backends lb' = lb_backends lb ++ [b] ∧
    Strategy_backends (lb_strategy lb') ≡ₚ lb_backends lb ++ [b] ∧
    Forall (fun l => is_error_line l = false) log.
Proof.
  intros Hwf Hsz Hsz'. rewrite handle_add_eq.
  destruct (snapshot_total lb Hwf Hsz) as (m & lb1 & -> & Hbs1 & _ & _ & _ & _).
  cbn [mbind result_bind]. cbn [set_backends lb_backends lb_strategy].
  destruct (Strategy_Init_spec (lb_backends lb1 ++ [b]) (lb_strategy lb1))
    as (st & -> & Hwf' & Hperm & _).
  cbn [mbind result_bind].
  set (lb2 := set_strategy st _).
  destruct (snapshot_total lb2) as (m' & lb3 & -> & Hbs3 & _ & _ & Hsb3 & _).
  { done. }
  { simpl. replace (len (Strategy_backends st)) with (len (lb_backends lb1 ++ [b])).
    - rewrite Hbs1. unfold len in *. rewrite length_app. simpl. lia.
    - unfold len. by rewrite Hperm. }
  cbn [mbind result_bind]. eexists _, _. split; [done|].
  split; [by rewrite Hbs3, <-Hbs1|]. split.
  - rewrite Hsb3. simpl. by rewrite Hperm, Hbs1.
  - apply printRemap_no_error.
Qed.

Lemma add_backend_appends_witness :
  ∃ lb' log,
    handle (mkEvent CMD_BackendAdd (DBackend (localhost 8085))) lb0
      = Ok (Some lb', log) ∧
    lb_backends lb' = lb_backends lb0 ++ [localhost 8085] ∧
    Strategy_backends (lb_strategy lb') ≡ₚ lb_backends lb0 ++ [localhost 8085] ∧
    Forall (fun l => is_error_line l = false) log.
Proof.
  apply (add_backend_appends lb0 (localhost 8085)).
  - vm_compute. split; [repeat constructor; discriminate|reflexivity].
  - vm_compute. reflexivity.
  - vm_compute. reflexivity.
Defined.

(** C5, the claim as stated fails: adding [localhost:8081] to the seed
    topology, where it is present, logs no error and leaves a topology of
    five backends, two of them with the identity [localhost:8081]. *)
Lemma add_duplicate_counterexample :
  (fun r : option LB * list LogLine =>
     (lb_backends <$> r.1, forallb (fun l => negb (is_error_line l)) r.2))
    <$> handle (ev_add 8081) lb0
  = Ok (Some (seed ++ [localhost 8081]), true) ∧
  lb_backends lb0 = seed ∧
  (seed ++ [localhost 8081]) !! 0%nat = Some (localhost 8081) ∧
  (seed ++ [localhost 8081]) !! 4%nat = Some (localhost 8081).
Proof. repeat split; vm_compute; reflexivity. Qed.

(** C6.  Evaluation at the failing input: with round robin active over five
    backends, a remove command for the absent port 9999 logs the error and
    keeps the topology, and leaves the cursor of the strategy at 4 instead
    of 2. *)
Theorem remove_absent_advances_cursor :
  let lb := lb_after [ev_strat "rr"; ev_add 8085] in
  lb_strategy lb = RoundRobin {| rr_Index := 2; rr_Backends := lb_backends lb |} ∧
  handle (ev_rm 9999) lb
  = Ok (Some (set_strategy
                (RoundRobin {| rr_Index := 4; rr_Backends := lb_backends lb |}) lb),
        [LogNoBackend 9999]).
Proof. split; vm_compute; reflexivity. Qed.

(** C7.  Every strategy returns no backend exactly when its backend list is
    empty, and otherwise a backend of that list: in every state the program
    can build, for a strategy freshly built from a topology, and for
    consistent hashing on the ring built from a non-empty topology.  (Lists
    are taken shorter than 2^32, the range in which the [uint32] conversion of
    the simple-hash strategy is exact.) *)
Theorem select_none_iff_empty :
  (∀ st req,
     reachable st → len (Strategy_backends st) < 2 ^ 32 →
     ∃ r st', GetNextBackend req st = Ok (r, st') ∧
              (r = None ↔ Strategy_backends st = []) ∧
              (∀ b, r = Some b → b ∈ Strategy_backends st)) ∧
  (∀ name bs req,
     len bs < 2 ^ 32 →
     ∃ st r st', strategy_by_name name bs = Ok st ∧
                 GetNextBackend req st = Ok (r, st') ∧
                 (r = None ↔ bs = []) ∧
                 (∀ b, r = Some b → b ∈ bs)) ∧
  (∀ bs key, bs ≠ [] → ∃ b, ch_route bs key = Ok (Some b) ∧ b ∈ bs).
Proof.
  split_and!.
  - intros st req Hreach Hsz.
    destruct (GetNextBackend_total st req (reachable_wf st Hreach) Hsz)
      as (r & st' & Hr & _ & _ & H1 & H2 & _).
    by exists r, st'.
  - intros name bs req Hsz.
    destruct (strategy_by_name_spec name bs) as (st & Hst & Hwf & Hperm & _).
    destruct (GetNextBackend_total st req Hwf) as (r & st' & Hr & _ & _ & H1 & H2 & _).
    { unfold len. by rewrite Hperm. }
    exists st, r, st'. split; [done|]. split; [done|]. split.
    + rewrite H1. split; intros Hnil.
      * rewrite Hnil in Hperm. symmetry. by apply Permutation_nil_l.
      * rewrite Hnil in Hperm. by apply Permutation_nil_r.
    + intros b Hb. rewrite <-Hperm. by apply H2.
  - intros bs key Hne. rewrite ch_route_spec.
    assert (ring (2 ^ 32) bs ≠ []) as Hring.
    { intros Hnil. pose proof (ring_Permutation (2 ^ 32) bs) as Hp.
      rewrite Hnil in Hp. apply Permutation_nil_l in Hp. symmetry in Hp.
      by apply fmap_nil_inv in Hp. }
    destruct (pick_is_Some (chPos key (2 ^ 32)) _ Hring) as [b Hb].
    exists b. split; [by rewrite Hb|].
    apply pick_elem_of in Hb. rewrite ring_Permutation in Hb.
    rewrite <-list_fmap_compose in Hb. by rewrite list_fmap_id in Hb.
Qed.

Lemma select_none_iff_empty_witness :
  (∃ r st',
     GetNextBackend (mkReq "" "10.0.0.1") (RoundRobin (mkRR 0 seed)) = Ok (r, st') ∧
     (r = None ↔ Strategy_backends (RoundRobin (mkRR 0 seed)) = []) ∧
     (∀ b, r = Some b → b ∈ Strategy_backends (RoundRobin (mkRR 0 seed)))) ∧
  (∃ st r st',
     strategy_by_name "simple" seed = Ok st ∧
     GetNextBackend (mkReq "" "10.0.0.1") st = Ok (r, st') ∧
     (r = None ↔ seed = []) ∧ (∀ b, r = Some b → b ∈ seed)) ∧
  (∃ b, ch_route seed "10.0.0.1" = Ok (Some b) ∧ b ∈ seed).
Proof.
  split_and!.
  - apply (proj1 select_none_iff_empty).
    + apply (reach_new "rr" seed). vm_compute. reflexivity.
    + vm_compute. reflexivity.
  - apply (proj1 (proj2 select_none_iff_empty)). vm_compute. reflexivity.
  - apply (proj2 (proj2 select_none_iff_empty)). discriminate.
Defined.

(** C8.  Round robin ignores the key: a call moves the cursor to
    [(cursor + 1) mod K] and returns the backend at the new cursor.  From any
    cursor in [[0, K)], K calls return the backends in the order of the
    topology, starting after the cursor and wrapping around (each backend
    once), and leave the cursor where it was. *)
Theorem round_robin_cycle (s : RRBalancingStrategy) :
  0 ≤ rr_Index s < len (rr_Backends s) →
  (∀ req, ∃ b,
     GetNextBackend req s
     = Ok (Some b, {| rr_Index := (rr_Index s + 1) mod len (rr_Backends s);
                      rr_Backends := rr_Backends s |}) ∧
     rr_Backends s !! Z.to_nat ((rr_Index s + 1) mod len (rr_Backends s)) = Some b) ∧
  (∀ reqs,
     length reqs = length (rr_Backends s) →
     serve reqs s
     = Ok (Some <$> rotate (Z.to_nat (rr_Index s + 1)) (rr_Backends s), s) ∧
     rotate (Z.to_nat (rr_Index s + 1)) (rr_Backends s) ≡ₚ rr_Backends s).
Proof.
  intros Hidx. split.
  - intros req. apply RR_next; [lia|].
    intros Hnil. rewrite Hnil in Hidx. unfold len in Hidx. simpl in Hidx. lia.
  - intros reqs Hlen. split.
    + rewrite RR_serve by done. rewrite Hlen. f_equal. f_equal.
      * rewrite rotate_lookups by lia. apply list_fmap_ext.
        intros i j _. simpl. repeat f_equal; lia.
      * destruct s as [i bs]. simpl in *. f_equal.
        fold (len bs). rewrite <-(Z.mul_1_l (len bs)) at 1.
        rewrite Z.mod_add by lia. apply Z.mod_small. lia.
    + unfold rotate. rewrite Permutation_app_comm. by rewrite take_drop.
Qed.

Lemma round_robin_cycle_witness :
  serve (mkReq "" <$> ["a"; "b"; "c"; "d"]) (mkRR 1 seed)
  = Ok (Some <$> rotate 2 seed, mkRR 1 seed).
Proof.
  apply (proj2 (round_robin_cycle (mkRR 1 seed) ltac:(vm_compute; split; [discriminate|reflexivity]))).
  reflexivity.
Defined.

(** C10.  [Init], on any backend list and from any prior state, and
    [RegisterBackend], from a state that satisfies the invariant, return a
    state whose positions are sorted in ascending order and as many as its
    backends; and under this invariant the lookup returns the backend of the
    first entry to the right of the slot, or of entry 0. *)
Theorem consistent_hash_invariant :
  (∀ bs s, ∃ s', Init bs s = Ok s' ∧
                 Sorted Z.le (keys s') ∧ length (keys s') = length (backends s')) ∧
  (∀ b s,
     Sorted Z.le (keys s) ∧ length (keys s) = length (backends s) →
     ∃ s', RegisterBackend b s = Ok s' ∧
           Sorted Z.le (keys s') ∧ length (keys s') = length (backends s')) ∧
  (∀ req s,
     Sorted Z.le (keys s) ∧ length (keys s) = length (backends s) →
     GetNextBackend req s
     = Ok (pick (chPos (key req) (totalSlots s)) (zip (keys s) (backends s)), s)).
Proof.
  split_and!.
  - intros bs s. destruct (CH_Init_spec bs s) as (s' & Hs' & _ & _ & Hinv).
    by exists s'.
  - intros b s Hinv.
    destruct (CH_RegisterBackend_spec b s Hinv) as (s' & Hs' & _ & _ & Hinv').
    by exists s'.
  - intros req s Hinv. by apply CH_GetNextBackend_spec.
Qed.

Lemma consistent_hash_invariant_witness :
  (∃ s', RegisterBackend (localhost 8085)
           (mkCH [5; 9] [localhost 1; localhost 2] (2 ^ 32)) = Ok s' ∧
         Sorted Z.le (keys s') ∧ length (keys s') = length (backends s')) ∧
  GetNextBackend (mkReq "" "10.0.0.1")
    (mkCH [5; 9] [localhost 1; localhost 2] (2 ^ 32))
  = Ok (pick (chPos "10.0.0.1" (2 ^ 32)) [(5, localhost 1); (9, localhost 2)],
        mkCH [5; 9] [localhost 1; localhost 2] (2 ^ 32)).
Proof.
  assert (Hinv : Sorted Z.le [5; 9] ∧ length [5; 9] = length [localhost 1; localhost 2]).
  { split; [|reflexivity]. repeat constructor; vm_compute; discriminate. }
  split.
  - exact (proj1 (proj2 consistent_hash_invariant) (localhost 8085)
             (mkCH [5; 9] [localhost 1; localhost 2] (2 ^ 32)) Hinv).
  - exact (proj2 (proj2 consistent_hash_invariant) (mkReq "" "10.0.0.1")
             (mkCH [5; 9] [localhost 1; localhost 2] (2 ^ 32)) Hinv).
Defined.

End GoClaims.

(** ** Facts about the replica *)

Module TSFacts.
Import TS TSSpec.
Local Open Scope Z_scope.

Global Instance pair_le_trans : Transitive pair_le.
Proof. intros x y z. unfold pair_le. lia. Qed.

(** *** The ring *)

Lemma sort_insert_Permutation p l : sort_insert p l ≡ₚ p :: l.
Proof.
  induction l as [|q l IH]; simpl; [done|].
  destruct (key p <=? key q); [done|]. rewrite IH. apply Permutation_swap.
Qed.

Lemma sort_insert_sorted p l :
  StronglySorted pair_le l → StronglySorted pair_le (sort_insert p l).
Proof.
  induction 1 as [|q l Hs IH Hall]; simpl.
  - repeat constructor.
  - destruct (key p <=? key q) eqn:E.
    + apply Z.leb_le in E. constructor; [by constructor|].
      constructor; [done|].
      eapply Forall_impl; [exact Hall|]. intros q'. unfold pair_le. lia.
    + apply Z.leb_gt in E. constructor; [done|].
      rewrite sort_insert_Permutation. constructor; [|done].
      unfold pair_le. lia.
Qed.

Lemma sort_by_key_Permutation l : sort_by_key l ≡ₚ l.
Proof.
  induction l as [|p l IH]; simpl; [done|].
  by rewrite sort_insert_Permutation, IH.
Qed.

Lemma sort_by_key_sorted l : StronglySorted pair_le (sort_by_key l).
Proof.
  induction l as [|p l IH]; simpl; [constructor|]. by apply sort_insert_sorted.
Qed.

(** The sort is stable: the pairs of any one key keep their order. *)
Lemma sort_insert_filter k p l :
  StronglySorted pair_le l →
  filter (fun q => key q = k) (sort_insert p l)
  = filter (fun q => key q = k) (p :: l).
Proof.
  induction 1 as [|q l Hs IH Hall]; simpl; [done|].
  destruct (key p <=? key q) eqn:E; [done|]. apply Z.leb_gt in E.
  rewrite (filter_cons _ q), IH, !(filter_cons _ p), (filter_cons _ q).
  repeat case_decide; try done. lia.
Qed.

Lemma sort_by_key_stable k l :
  filter (fun q => key q = k) (sort_by_key l) = filter (fun q => key q = k) l.
Proof.
  induction l as [|p l IH]; simpl; [done|].
  rewrite sort_insert_filter by apply sort_by_key_sorted.
  by rewrite !(filter_cons _ p), IH.
Qed.

Lemma replicas_length s : length (replicas s) = 64%nat.
Proof. unfold replicas. by rewrite length_fmap, length_seqZ. Qed.

Lemma bind_replicas_length servers :
  length (servers ≫= replicas) = (64 * length servers)%nat.
Proof.
  induction servers as [|s servers IH]; [done|].
  rewrite bind_cons, length_app, replicas_length, IH. simpl. lia.
Qed.

Lemma ringPositions_length servers :
  length (ringPositions servers) = (64 * length servers)%nat.
Proof.
  unfold ringPositions. by rewrite sort_by_key_Permutation, bind_replicas_length.
Qed.

(** *** The lookup *)

Lemma at_index_lookup {A} (l : list A) (i : Z) :
  0 ≤ i → at_index l i = l !! Z.to_nat i.
Proof. intros Hi. unfold at_index. destruct (0 <=? i) eqn:E; [done|lia]. Qed.

Lemma chPick_loop_spec pairs slot :
  StronglySorted pair_le pairs →
  len pairs < 2 ^ 31 →
  ∀ fuel lo hi,
    0 ≤ lo ≤ hi → hi ≤ len pairs → (Z.to_nat (hi - lo) ≤ fuel)%nat →
    (∀ a p, Z.of_nat a < lo → pairs !! a = Some p → key p < slot) →
    (∀ a p, hi ≤ Z.of_nat a → pairs !! a = Some p → slot ≤ key p) →
    ∃ r : nat, chPick_loop fuel pairs slot lo hi = Ok (Z.of_nat r) ∧
      (r ≤ length pairs)%nat ∧
      (∀ a p, (a < r)%nat → pairs !! a = Some p → key p < slot) ∧
      (∀ a p, (r ≤ a)%nat → pairs !! a = Some p → slot ≤ key p).
Proof.
  intros Hs Hsz. unfold len in *.
  induction fuel as [|fuel IH]; intros lo hi Hlh Hhi Hfuel Hlo Hge.
  - cbn [chPick_loop]. destruct (lo <? hi) eqn:E; [lia|].
    exists (Z.to_nat lo). rewrite Z2Nat.id by lia. split; [done|].
    split; [lia|]. split; intros a p Ha; [apply Hlo|apply Hge]; lia.
  - cbn [chPick_loop]. destruct (lo <? hi) eqn:E.
    + apply Z.ltb_lt in E.
      assert (Hu : ToUint32 (lo + hi) = lo + hi).
      { unfold ToUint32. apply Z.mod_small. lia. }
      rewrite Hu.
      assert (Hm : lo ≤ Z.shiftr (lo + hi) 1 < hi).
      { rewrite Z.shiftr_div_pow2 by lia. change (2 ^ 1) with 2.
        split; [apply Z.div_le_lower_bound|apply Z.div_lt_upper_bound]; lia. }
      set (mid := Z.shiftr (lo + hi) 1) in *.
      rewrite at_index_lookup by lia.
      destruct (lookup_lt_is_Some_2 pairs (Z.to_nat mid)) as [p Hp]; [lia|].
      rewrite Hp.
      destruct (slot <=? key p) eqn:Ep.
      * apply Z.leb_le in Ep. apply IH; try lia; [done|].
        intros a q Ha Hq.
        destruct (decide (a = Z.to_nat mid)) as [->|Hne]; [by simplify_eq|].
        pose proof (StronglySorted_lookup_lt pair_le pairs (Z.to_nat mid) a p q Hs
                      ltac:(lia) Hp Hq) as Hle.
        unfold pair_le in Hle. lia.
      * apply Z.leb_gt in Ep. apply IH; try lia; [|done].
        intros a q Ha Hq.
        destruct (decide (a = Z.to_nat mid)) as [->|Hne]; [by simplify_eq|].
        pose proof (StronglySorted_lookup_lt pair_le pairs a (Z.to_nat mid) q p Hs
                      ltac:(lia) Hq Hp) as Hle.
        unfold pair_le in Hle. lia.
    + apply Z.ltb_ge in E.
      exists (Z.to_nat lo). rewrite Z2Nat.id by lia. split; [done|].
      split; [lia|]. split; intros a p Ha; [apply Hlo|apply Hge]; lia.
Qed.

Lemma chPickServer_spec servers keyStr :
  servers ≠ [] →
  64 * len servers < 2 ^ 31 →
  ∃ (i : nat) (p : RingPair),
    chPickServer servers keyStr = Ok (Some (server p)) ∧
    (i ≤ length (ringPositions servers))%nat ∧
    (∀ j q, (j < i)%nat → ringPositions servers !! j = Some q →
            key q < hash32 keyStr) ∧
    (∀ j q, (i ≤ j)%nat → ringPositions servers !! j = Some q →
            hash32 keyStr ≤ key q) ∧
    ringPositions servers !! (i mod length (ringPositions servers))%nat = Some p.
Proof.
  intros Hne Hsz. unfold chPickServer.
  destruct (len servers =? 0) eqn:E.
  { apply Z.eqb_eq in E. unfold len in E. destruct servers; [done|simpl in E; lia]. }
  pose proof (ringPositions_length servers) as Hlen.
  set (pairs := ringPositions servers) in *.
  assert (Hpos : (0 < length pairs)%nat).
  { rewrite Hlen. destruct servers; [done|simpl; lia]. }
  destruct (chPick_loop_spec pairs (hash32 keyStr)) with
    (fuel := length pairs) (lo := 0) (hi := len pairs)
    as (r & Hr & Hb & Hlo & Hhi).
  - apply sort_by_key_sorted.
  - unfold len in *. lia.
  - unfold len. lia.
  - lia.
  - unfold len. lia.
  - intros a p Ha. lia.
  - intros a p Ha Hp. apply lookup_lt_Some in Hp. unfold len in Ha. lia.
  - rewrite Hr. cbn [mbind result_bind].
    assert (Hrem : Z.rem (Z.of_nat r) (len pairs) = Z.of_nat (r mod length pairs)).
    { unfold len. rewrite Z.rem_mod_nonneg by lia. by rewrite Nat2Z.inj_mod. }
    rewrite Hrem, at_index_lookup, Nat2Z.id by lia.
    destruct (lookup_lt_is_Some_2 pairs (r mod length pairs)) as [p Hp].
    { apply Nat.mod_upper_bound. lia. }
    rewrite Hp. exists r, p. done.
Qed.

(** *** The churn diff *)

Lemma diff_rows_moved ks b a m :
  (diff_rows ks b a m).1
  = m + Z.of_nat (length (filter (fun k => b !! k ≠ a !! k) ks)).
Proof.
  revert m. induction ks as [|k ks IH]; intros m; simpl; [lia|].
  rewrite IH, filter_cons.
  destruct (decide (b !! k ≠ a !! k)) as [Hne|Heq].
  - rewrite bool_decide_eq_false_2 by done. simpl. lia.
  - apply dec_stable in Heq. rewrite bool_decide_eq_true_2 by done. simpl. lia.
Qed.

Lemma diff_rows_changed ks b a m :
  Forall (fun row => changed row = true ↔ row_b row ≠ row_a row)
    (diff_rows ks b a m).2.
Proof.
  revert m. induction ks as [|k ks IH]; intros m; simpl; constructor; [|apply IH].
  simpl. rewrite negb_true_iff, bool_decide_eq_false. done.
Qed.

Lemma diff_rows_moved_rows ks b a m :
  (diff_rows ks b a m).1
  = m + Z.of_nat (length (filter (fun row => changed row = true)
                            (diff_rows ks b a m).2)).
Proof.
  revert m. induction ks as [|k ks IH]; intros m; simpl; [lia|].
  rewrite IH, filter_cons. simpl.
  destruct (bool_decide (b !! k = a !! k)); simpl; lia.
Qed.

Lemma filter_server_replicas s s' :
  filter (fun p => server p = s) (replicas s')
  = if decide (s' = s) then replicas s' else [].
Proof.
  unfold replicas. induction (seqZ 0 REPLICAS) as [|r rs IH].
  - by case_decide.
  - rewrite fmap_cons, filter_cons, IH. cbn [server]. by repeat case_decide.
Qed.

Lemma filter_server_bind s servers :
  length (filter (fun p => server p = s) (servers ≫= replicas))
  = (64 * length (filter (fun s' => s' = s) servers))%nat.
Proof.
  induction servers as [|s' servers IH]; [done|].
  rewrite bind_cons, filter_app, length_app, IH, filter_server_replicas, filter_cons.
  repeat case_decide; try done; rewrite ?replicas_length; cbn [length]; lia.
Qed.

End TSFacts.

(** ** Test vectors of the hash functions *)

Section Vectors.
Local Open Scope Z_scope.

Example sha256_abc :
  Sha256.Sum256 (bytes_of_string "abc") =
  [0xba; 0x78; 0x16; 0xbf; 0x8f; 0x01; 0xcf; 0xea; 0x41; 0x41; 0x40; 0xde;
   0x5d; 0xae; 0x22; 0x23; 0xb0; 0x03; 0x61; 0xa3; 0x96; 0x17; 0x7a; 0x9c;
   0xb4; 0x10; 0xff; 0x61; 0xf2; 0x00; 0x15; 0xad].
Proof. vm_compute. reflexivity. Qed.

Example sha256_empty_prefix :
  BigEndian_Uint32 (Sha256.Sum256 []) = 0xe3b0c442.
Proof. vm_compute. reflexivity. Qed.

Example sha256_two_blocks :
  BigEndian_Uint32 (Sha256.Sum256 (bytes_of_string
    "abcdbcdecdefdefgefghfghighijhijkijkljklmklmnlmnomnopnopq")) = 0x248d6a61.
Proof. vm_compute. reflexivity. Qed.

Example sha256_constants :
  length Sha256.K = 64%nat ∧ Sha256.K !! 0%nat = Some 0x428a2f98 ∧
  Sha256.K !! 63%nat = Some 0xc67178f2 ∧ Sha256.H0 !! 0%nat = Some 0x6a09e667 ∧
  Sha256.H0 !! 7%nat = Some 0x5be0cd19.
Proof. repeat split. Qed.

Example fnv32a_a : fnv32a (bytes_of_string "a") = 0xe40c292c.
Proof. vm_compute. reflexivity. Qed.

Example fnv1a_a : TS.hash32 "a" = 0xe40c292c.
Proof. vm_compute. reflexivity. Qed.

Example chPos_seed :
  (fun p => Go.chPos (Go.Backend_String (GoSpec.localhost p)) (2 ^ 32))
    <$> [8081; 8082; 8083; 8084]
  = [349088647; 3169355326; 2248540249; 3470656588].
Proof. vm_compute. reflexivity. Qed.

End Vectors.

(** ** Properties that concern both the engine and the replica *)

Module Claims.
Import GoSpec TSSpec.
Local Open Scope Z_scope.

(** C1, as amended.  In the replica, the ring holds for every server exactly
    64 entries, at the positions [hash32(id + "#" + r)] for [r] in [[0, 64)],
    sorted by position.  In the engine, [Init] puts exactly one entry per
    backend on the ring, at the position [chPos(identity)]. *)
Theorem ring_entries_per_backend :
  (∀ servers : list TS.Server,
     TS.ringPositions servers
       ≡ₚ servers ≫= (fun s =>
            (fun r => TS.mkPair (TS.hash32 (TS.id s +:+ "#" +:+ pretty r)) s)
              <$> seqZ 0 64) ∧
     (∀ s, length (filter (fun p => TS.server p = s) (TS.ringPositions servers))
           = (64 * length (filter (fun s' => s' = s) servers))%nat) ∧
     length (TS.ringPositions servers) = (64 * length servers)%nat ∧
     Sorted Z.le (TS.key <$> TS.ringPositions servers)) ∧
  (∀ (bs : list Go.Backend) (s0 : Go.ConsistentHashStrategy),
     ∃ s, Go.Init bs s0 = Ok s ∧
          zip (Go.keys s) (Go.backends s)
            ≡ₚ (fun b => (Go.chPos (Go.Backend_String b) (Go.totalSlots s0), b)) <$> bs ∧
          Go.backends s ≡ₚ bs ∧
          length (Go.keys s) = length bs).
Proof.
  split.
  - intros servers. split_and!.
    + unfold TS.ringPositions. by rewrite TSFacts.sort_by_key_Permutation.
    + intros s. unfold TS.ringPositions.
      rewrite TSFacts.sort_by_key_Permutation. apply TSFacts.filter_server_bind.
    + apply TSFacts.ringPositions_length.
    + apply StronglySorted_Sorted.
      eapply (StronglySorted_fmap TS.key pair_le Z.le); [done|].
      apply TSFacts.sort_by_key_sorted.
  - intros bs s0.
    destruct (GoFacts.CH_Init_spec bs s0) as (s & Hs & He & _ & Hinv).
    exists s. split; [done|]. destruct Hinv as [_ Hlen].
    fold (entries s). rewrite He. split_and!.
    + apply GoFacts.ring_Permutation.
    + rewrite (GoFacts.backends_entries s Hlen), He, GoFacts.ring_Permutation.
      rewrite <-list_fmap_compose. by rewrite list_fmap_id.
    + rewrite <-(GoFacts.entries_length s Hlen), He, GoFacts.ring_Permutation.
      by rewrite length_fmap.
Qed.

(** C1, the claim as stated fails on the engine: on the ring built from the
    seed topology, the backend [localhost:8081] has one entry, not 64, and the
    ring has 4 entries in all. *)
Lemma ring_replicas_counterexample :
  (fun s : Go.ConsistentHashStrategy =>
     (length (Go.keys s),
      length (filter (fun b => b = localhost 8081) (Go.backends s)),
      bool_decide (length (filter (fun b => b = localhost 8081) (Go.backends s))
                   = 64%nat)))
    <$> Go.NewConsistentHashStrategy seed
  = Ok (4%nat, 1%nat, false).
Proof. vm_compute. reflexivity. Qed.

(** C2, as amended.  In the engine, on a non-empty ring that satisfies the
    invariant, the lookup returns the backend of the first entry whose
    position is strictly greater than the slot of the key, or of entry 0 when
    no position is greater: an entry whose position equals the slot is
    skipped.  In the replica, the lookup returns the server of the first entry
    whose position is greater than or equal to the slot, or of entry 0 when
    there is none: an entry whose position equals the slot is picked. *)
Theorem lookup_clockwise :
  (∀ (s : Go.ConsistentHashStrategy) (req : Go.IncomingReq),
     Sorted Z.le (Go.keys s) ∧ length (Go.keys s) = length (Go.backends s) →
     Go.backends s ≠ [] →
     ∃ (i : nat) (b : Go.Backend),
       Go.GetNextBackend req s = Ok (Some b, s) ∧
       (i ≤ length (Go.keys s))%nat ∧
       (∀ j k, (j < i)%nat → Go.keys s !! j = Some k →
               k ≤ Go.chPos (Go.key req) (Go.totalSlots s)) ∧
       (∀ k, Go.keys s !! i = Some k →
             Go.chPos (Go.key req) (Go.totalSlots s) < k) ∧
       Go.backends s !! (i mod length (Go.backends s))%nat = Some b) ∧
  (∀ (servers : list TS.Server) (keyStr : string),
     servers ≠ [] →
     64 * len servers < 2 ^ 31 →
     ∃ (i : nat) (p : TS.RingPair),
       TS.chPickServer servers keyStr = Ok (Some (TS.server p)) ∧
       (i ≤ length (TS.ringPositions servers))%nat ∧
       (∀ j q, (j < i)%nat → TS.ringPositions servers !! j = Some q →
               TS.key q < TS.hash32 keyStr) ∧
       (∀ q, TS.ringPositions servers !! i = Some q →
             TS.hash32 keyStr ≤ TS.key q) ∧
       TS.ringPositions servers !! (i mod length (TS.ringPositions servers))%nat
         = Some p ∧
       (∀ j q, TS.ringPositions servers !! j = Some q →
               TS.key q = TS.hash32 keyStr → TS.key p = TS.hash32 keyStr)).
Proof.
  split.
  - intros s req Hinv Hne.
    change (Go.GetNextBackend req s) with (Go.CH_GetNextBackend req s).
    rewrite (GoFacts.CH_GetNextBackend_spec req s Hinv).
    destruct Hinv as [Hs Hlen].
    set (slot := Go.chPos (Go.key req) (Go.totalSlots s)).
    destruct (GoFacts.Search_keys (fun k x => k <? x) (Go.keys s) slot Hs)
      as (r & _ & Hb & Hlo & Hhi).
    { intros x y Hxy Hx. apply Z.ltb_lt in Hx. apply Z.ltb_lt. lia. }
    assert (Hpos : (0 < length (Go.backends s))%nat).
    { destruct (Go.backends s); [done|simpl; lia]. }
    destruct (lookup_lt_is_Some_2 (Go.backends s) (r mod length (Go.backends s)))
      as [b Hbk]; [apply Nat.mod_upper_bound; lia|].
    exists r, b. split_and!; try done.
    + f_equal. f_equal. unfold pick.
      rewrite (GoFacts.find_skip _ _ r).
      2:{ intros a [k b'] Ha He. unfold entries in He.
          apply lookup_zip_with_Some in He as (? & ? & [= <- <-] & Hk & _).
          simpl. by apply (Hlo a). }
      destruct (decide (r = length (Go.keys s))) as [->|Hr].
      * rewrite drop_ge by (rewrite GoFacts.entries_length; done). simpl.
        rewrite Hlen, Nat.Div0.mod_same in Hbk.
        rewrite (GoFacts.backends_entries s Hlen) in Hbk.
        rewrite list_lookup_fmap in Hbk.
        by rewrite head_lookup.
      * destruct (lookup_lt_is_Some_2 (Go.keys s) r) as [k Hk]; [lia|].
        destruct (GoFacts.entries_lookup s r k Hlen Hk) as (b' & Hbk' & He).
        rewrite (drop_S _ (k, b')) by done. simpl.
        rewrite (Hhi r k) by (done || lia). simpl.
        rewrite Nat.mod_small in Hbk by lia. congruence.
    + intros j k Hj Hk. specialize (Hlo j k Hj Hk). apply Z.ltb_ge in Hlo. done.
    + intros k Hk. specialize (Hhi r k ltac:(lia) Hk). by apply Z.ltb_lt in Hhi.
  - intros servers keyStr Hne Hsz.
    destruct (TSFacts.chPickServer_spec servers keyStr Hne Hsz)
      as (i & p & Hpick & Hb & Hlo & Hhi & Hp).
    exists i, p. split_and!; try done.
    + intros q Hq. by apply (Hhi i).
    + intros j q Hq Hkey.
      destruct (decide (j < i)%nat) as [Hlt|Hge].
      { specialize (Hlo j q Hlt Hq). lia. }
      apply lookup_lt_Some in Hq as Hj.
      rewrite Nat.mod_small in Hp by lia.
      pose proof (Hhi i p ltac:(lia) Hp) as H1.
      destruct (decide (i = j)) as [->|Hij]; [congruence|].
      pose proof (StronglySorted_lookup_lt pair_le _ i j p q
                    (TSFacts.sort_by_key_sorted _) ltac:(lia) Hp Hq) as H2.
      unfold pair_le in H2. lia.
Qed.

Lemma lookup_clockwise_witness :
  (∃ (i : nat) (b : Go.Backend),
     Go.GetNextBackend (Go.mkReq "" "10.0.0.1")
       (Go.mkCH [5; 9] [localhost 1; localhost 2] (2 ^ 32))
     = Ok (Some b, Go.mkCH [5; 9] [localhost 1; localhost 2] (2 ^ 32)) ∧
     (i ≤ 2)%nat ∧
     (∀ j k, (j < i)%nat → [5; 9] !! j = Some k →
             k ≤ Go.chPos "10.0.0.1" (2 ^ 32)) ∧
     (∀ k, [5; 9] !! i = Some k → Go.chPos "10.0.0.1" (2 ^ 32) < k) ∧
     [localhost 1; localhost 2] !! (i mod 2)%nat = Some b) ∧
  (∃ (i : nat) (p : TS.RingPair),
     TS.chPickServer servers4 "10.0.0.1" = Ok (Some (TS.server p)) ∧
     (i ≤ length (TS.ringPositions servers4))%nat ∧
     (∀ j q, (j < i)%nat → TS.ringPositions servers4 !! j = Some q →
             TS.key q < TS.hash32 "10.0.0.1") ∧
     (∀ q, TS.ringPositions servers4 !! i = Some q →
           TS.hash32 "10.0.0.1" ≤ TS.key q) ∧
     TS.ringPositions servers4 !! (i mod length (TS.ringPositions servers4))%nat
       = Some p ∧
     (∀ j q, TS.ringPositions servers4 !! j = Some q →
             TS.key q = TS.hash32 "10.0.0.1" → TS.key p = TS.hash32 "10.0.0.1")).
Proof.
  split.
  - apply (proj1 lookup_clockwise
             (Go.mkCH [5; 9] [localhost 1; localhost 2] (2 ^ 32))
             (Go.mkReq "" "10.0.0.1")).
    + split; [|reflexivity]. repeat constructor; vm_compute; discriminate.
    + discriminate.
  - apply (proj2 lookup_clockwise servers4 "10.0.0.1").
    + discriminate.
    + vm_compute. reflexivity.
Defined.

(** C2, the claim as stated fails on the engine: on the ring of the seed
    topology, entry 0 is that of [localhost:8081] and its position is the
    slot of the key ["localhost:8081"]; the rule of the claim picks this
    entry, the engine returns [localhost:8083], the backend of entry 1. *)
Lemma lookup_tie_counterexample :
  (fun s : Go.ConsistentHashStrategy =>
     (entries s !! 0%nat, Go.backends s !! 1%nat,
      pick_ge (Go.chPos "localhost:8081" (Go.totalSlots s)) (entries s)))
    <$> Go.NewConsistentHashStrategy seed
  = Ok (Some (Go.chPos "localhost:8081" (2 ^ 32), localhost 8081),
        Some (localhost 8083),
        Some (localhost 8081)) ∧
  ch_route seed "localhost:8081" = Ok (Some (localhost 8083)).
Proof. split; vm_compute; reflexivity. Qed.

(** C9.  The diff of a mapping with itself counts no moved key, in the engine
    ([printRemap]) and in the replica ([diff]); in general the count is the
    number of keys whose before and after strings differ. *)
Theorem diff_same_mapping_moves_nothing :
  (∀ (lb : Go.LB) (what : string) (m : Go.GoMap),
     (Go.printRemap lb what m m).1 = 0) ∧
  (∀ (lb : Go.LB) (what : string) (b : gmap string string) (a : Go.GoMap),
     (Go.printRemap lb what (Some b) a).1
     = Z.of_nat (length (filter (fun k => Go.map_get (Some b) k ≠ Go.map_get a k)
                           (Go.demoKeys lb)))) ∧
  (∀ (Object_keys : gmap string string → list string) (m : gmap string string),
     ∃ d, TS.diff Object_keys (Some m) (Some m) = Some d ∧ TS.moved d = 0) ∧
  (∀ (Object_keys : gmap string string → list string) (b a : gmap string string),
     ∃ d, TS.diff Object_keys (Some b) (Some a) = Some d ∧
          TS.moved d
          = Z.of_nat (length (filter (fun row => TS.changed row = true) (TS.rows d))) ∧
          Forall (fun row => TS.changed row = true ↔ TS.row_b row ≠ TS.row_a row)
            (TS.rows d)).
Proof.
  assert (Hgo : ∀ ks (b : gmap string string) a m,
    (Go.printRemap_loop ks (Some b) a m).1
    = m + Z.of_nat (length (filter
            (fun k => Go.map_get (Some b) k ≠ Go.map_get a k) ks))).
  { induction ks as [|k ks IH]; intros b a m; simpl; [lia|].
    rewrite IH, filter_cons.
    destruct (decide (Go.map_get (Some b) k ≠ Go.map_get a k)) as [Hne|Heq].
    - rewrite bool_decide_eq_false_2 by done. simpl. lia.
    - apply dec_stable in Heq. rewrite bool_decide_eq_true_2 by done. simpl. lia. }
  assert (Hnil : ∀ ks a m, (Go.printRemap_loop ks None a m).1 = m).
  { induction ks as [|k ks IH]; intros a m; simpl; [done|]. apply IH. }
  split_and!.
  - intros lb what [m|]; unfold Go.printRemap; cbn [fst].
    + rewrite Hgo. rewrite (proj2 (length_zero_iff_nil _)); [done|].
      induction (Go.demoKeys lb) as [|k ks IH]; [done|].
      by rewrite filter_cons_False by (intros H; by apply H).
    + apply Hnil.
  - intros lb what b a. unfold Go.printRemap. cbn [fst]. rewrite Hgo. lia.
  - intros Object_keys m. eexists. split; [done|]. cbn [TS.moved].
    rewrite TSFacts.diff_rows_moved.
    rewrite (proj2 (length_zero_iff_nil _)); [done|].
    induction (TS.dedup _ _) as [|k ks IH]; [done|].
    by rewrite filter_cons_False by (intros H; by apply H).
  - intros Object_keys b a. eexists. split; [done|]. cbn [TS.moved TS.rows]. split.
    + rewrite TSFacts.diff_rows_moved_rows. lia.
    + apply TSFacts.diff_rows_changed.
Qed.

End Claims.

(** ** Further properties of the engine *)

Module GoMore.
Import Go GoSpec GoFacts.
Local Open Scope Z_scope.

(** *** Consistent hashing: adding a backend, order of the topology *)

(** X1.  Appending one backend to the topology moves a key only onto the new
    backend: the key is routed either to the appended backend or to the
    backend it had before. *)
Theorem bounded_movement_on_add (bs : list Backend) (b : Backend) (key : string) :
  ∃ x, ch_route bs key = Ok x ∧
       (ch_route (bs ++ [b]) key = Ok (Some b) ∨ ch_route (bs ++ [b]) key = Ok x).
Proof.
  rewrite !ch_route_spec, ring_app. cbn [ring_from fold_left].
  set (slot := chPos key (2 ^ 32)). set (kb := chPos (Backend_String b) (2 ^ 32)).
  eexists. split; [done|].
  destruct (pick_is_Some slot (ins kb b (ring (2 ^ 32) bs))) as [b' Hb'].
  { intros Hnil. pose proof (ins_length kb b (ring (2 ^ 32) bs)) as Hl.
    by rewrite Hnil in Hl. }
  rewrite Hb'. destruct (decide (b' = b)) as [->|Hne]; [by left|right].
  f_equal. symmetry.
  by apply (pick_del1 slot (kb, b) _ _ b' (ins_del1_new kb b _) Hb').
Qed.

Lemma ring_order_independent ts bs bs' :
  bs ≡ₚ bs' →
  NoDup ((fun b => chPos (Backend_String b) ts) <$> bs) →
  ring ts bs = ring ts bs'.
Proof.
  intros Hperm Hnd.
  apply (StronglySorted_unique_strong key_le); try apply ring_sorted.
  - intros [k1 b1] [k2 b2] H1 H2 Hle1 Hle2. unfold key_le in *. simpl in *.
    assert (k1 = k2) as <- by lia. f_equal.
    rewrite ring_Permutation in H1. rewrite ring_Permutation, <-Hperm in H2.
    apply list_elem_of_fmap in H1 as (x1 & [= -> ->] & Hx1).
    apply list_elem_of_fmap in H2 as (x2 & [= Hk ->] & Hx2).
    apply list_elem_of_lookup in Hx1 as [i1 Hi1].
    apply list_elem_of_lookup in Hx2 as [i2 Hi2].
    assert (i1 = i2) as ->; [|congruence].
    eapply (NoDup_lookup _ i1 i2); [exact Hnd|..];
      rewrite list_lookup_fmap; [by rewrite Hi1|by rewrite Hi2, Hk].
  - by rewrite !ring_Permutation, Hperm.
Qed.

(** X2.  When no two backends hash to the same ring position, the routing of
    a key does not depend on the order of the backends in the topology. *)
Theorem route_order_independent (bs bs' : list Backend) (key : string) :
  bs ≡ₚ bs' →
  NoDup (position <$> bs) →
  ch_route bs key = ch_route bs' key.
Proof.
  intros Hperm Hnd. rewrite !ch_route_spec.
  by rewrite (ring_order_independent _ bs bs' Hperm Hnd).
Qed.

Lemma route_order_independent_witness :
  ch_route seed "10.0.0.1" = ch_route (reverse seed) "10.0.0.1".
Proof.
  apply route_order_independent.
  - symmetry. apply reverse_Permutation.
  - apply (bool_decide_unpack _). vm_compute. reflexivity.
Defined.

(** *** The strategies *)

Lemma CH_Init_loop_app bs1 bs2 s :
  CH_Init_loop (bs1 ++ bs2) s = (s' ← CH_Init_loop bs1 s; CH_Init_loop bs2 s').
Proof.
  revert s. induction bs1 as [|b bs1 IH]; intros s; [done|].
  cbn [app CH_Init_loop].
  destruct (insert _ b s) as [s1|msg]; [|done]. cbn [mbind result_bind]. apply IH.
Qed.

(** X3.  For each of the four strategies, initialising on a topology
    extended by one backend is the same as initialising on the topology and
    then registering the backend: [RegisterBackend] is [Init], one step at a
    time. *)
Theorem Init_snoc_RegisterBackend (bs : list Backend) (b : Backend) (st : Strategy) :
  Init (bs ++ [b]) st = (st' ← Init bs st; RegisterBackend b st').
Proof.
  destruct st as [s|s|s|s]; try done.
  cbn [Init Strategy_strategy Strategy_Init CH_strategy].
  unfold CH_Init. rewrite CH_Init_loop_app.
  destruct (CH_Init_loop bs _) as [s1|msg]; [|done].
  cbn [mbind result_bind fmap result_fmap CH_Init_loop].
  cbn [RegisterBackend Strategy_strategy Strategy_RegisterBackend CH_strategy].
  unfold CH_RegisterBackend. by destruct (insert _ b s1).
Qed.

Lemma GetNextBackend_key req req' (st : Strategy) :
  key req = key req' → GetNextBackend req st = GetNextBackend req' st.
Proof.
  intros Hk. destruct st as [s|s|s|s]; simpl;
    unfold SimpleHash_GetNextBackend, CH_GetNextBackend; by rewrite ?Hk.
Qed.

(** X4.  A strategy without a cursor (simple hash, static, consistent hash)
    is sticky: serving any sequence of requests leaves it unchanged, and each
    request gets the backend that any request with the same key gets from the
    strategy on its own. *)
Theorem stateless_strategies_are_sticky (st : Strategy) (reqs : list IncomingReq) :
  Strategy_wf st →
  len (Strategy_backends st) < 2 ^ 32 →
  cursor st = None →
  ∃ rs, serve reqs st = Ok (rs, st) ∧
        Forall2 (fun req r =>
                   ∀ req', key req' = key req → GetNextBackend req' st = Ok (r, st))
                reqs rs.
Proof.
  intros Hwf Hsz Hc. induction reqs as [|req reqs IH].
  - exists []. split; [done|constructor].
  - destruct (GetNextBackend_total st req Hwf Hsz) as (r & st' & Hr & _ & _ & _ & _ & Hst).
    specialize (Hst Hc). subst st'.
    destruct IH as (rs & Hrs & Hall).
    exists (r :: rs). split.
    + cbn [serve]. rewrite Hr. cbn [mbind result_bind snd fst]. by rewrite Hrs.
    + constructor; [|done]. intros req' Hk.
      by rewrite (GetNextBackend_key req' req st Hk).
Qed.

Lemma stateless_strategies_are_sticky_witness :
  ∃ rs, serve (mkReq "" <$> ["a"; "b"; "a"]) (lb_strategy lb0)
        = Ok (rs, lb_strategy lb0) ∧
        Forall2 (fun req r =>
                   ∀ req', key req' = key req →
                           GetNextBackend req' (lb_strategy lb0)
                           = Ok (r, lb_strategy lb0))
                (mkReq "" <$> ["a"; "b"; "a"]) rs.
Proof.
  apply stateless_strategies_are_sticky.
  - vm_compute. split; [repeat constructor; discriminate|reflexivity].
  - vm_compute. reflexivity.
  - vm_compute. reflexivity.
Defined.

(** X5.  In every state the program can build, the static strategy returns
    the first backend of its list for every request (none when the list is
    empty) and is left unchanged: nothing in the engine moves its index away
    from 0. *)
Theorem static_returns_first (s : StaticBalancingStrategy) (req : IncomingReq) :
  reachable (Static s) →
  GetNextBackend req (Static s) = Ok (head (st_Backends s), Static s).
Proof.
  intros Hreach. pose proof (reachable_wf _ Hreach) as Hidx. simpl in Hidx.
  cbn [GetNextBackend Strategy_strategy Strategy_GetNextBackend Static_strategy].
  unfold Static_GetNextBackend. rewrite Hidx.
  destruct (st_Backends s) as [|b bs]; [done|].
  replace (len (b :: bs) =? 0) with false; [done|].
  symmetry. apply Z.eqb_neq. unfold len. simpl length. lia.
Qed.

Lemma static_returns_first_witness :
  GetNextBackend (mkReq "" "10.0.0.7") (Static (mkStatic 0 seed))
  = Ok (head seed, Static (mkStatic 0 seed)).
Proof.
  apply (static_returns_first (mkStatic 0 seed)).
  apply (reach_new "static" seed). vm_compute. reflexivity.
Defined.

(** *** Ring positions *)

Lemma be_bytes_range n x : Forall (fun b => 0 ≤ b < 256) (Sha256.be_bytes n x).
Proof.
  induction n as [|n IH]; simpl; constructor; [|done].
  apply Z.mod_pos_bound. lia.
Qed.

Lemma Sum256_range msg : Forall (fun b => 0 ≤ b < 256) (Sha256.Sum256 msg).
Proof.
  unfold Sha256.Sum256. apply Forall_join, Forall_fmap, Forall_forall.
  intros x _. apply be_bytes_range.
Qed.

Lemma be_word_range bs :
  Forall (fun b => 0 ≤ b < 256) bs →
  0 ≤ Sha256.be_word bs < 256 ^ Z.of_nat (length bs).
Proof.
  unfold Sha256.be_word. intros Hbs.
  assert (Hgen : ∀ acc k, 0 ≤ acc < 256 ^ Z.of_nat k →
    0 ≤ fold_left (fun acc b => acc * 256 + b) bs acc
      < 256 ^ Z.of_nat (k + length bs)).
  { induction Hbs as [|b bs Hb _ IH]; intros acc k Hacc.
    - simpl. by rewrite Nat.add_0_r.
    - simpl. replace (k + S (length bs))%nat with (S k + length bs)%nat by lia.
      apply IH. rewrite Nat2Z.inj_succ, Z.pow_succ_r by lia. lia. }
  apply (Hgen 0 0%nat). simpl. lia.
Qed.

(** X6.  A ring position is a 32-bit unsigned value, whatever the size of
    the hash space; and with the hash space [1 << 32] that the constructor
    sets, the reduction modulo [totalSlots] changes nothing. *)
Theorem chPos_is_uint32 (key : string) (totalSlots : Z) :
  0 ≤ chPos key totalSlots < 2 ^ 32 ∧ chPos key (2 ^ 32) = chPos key 0.
Proof.
  assert (Hv : 0 ≤ BigEndian_Uint32 (Sha256.Sum256 (bytes_of_string key)) < 2 ^ 32).
  { unfold BigEndian_Uint32.
    pose proof (be_word_range (take 4 (Sha256.Sum256 (bytes_of_string key)))
                  (Forall_take _ _ _ (Sum256_range _))) as H.
    rewrite length_take in H.
    assert (256 ^ Z.of_nat (4 `min` length (Sha256.Sum256 (bytes_of_string key)))
            ≤ 2 ^ 32); [|lia].
    change (2 ^ 32) with (256 ^ 4). apply Z.pow_le_mono_r; lia. }
  set (v := BigEndian_Uint32 (Sha256.Sum256 (bytes_of_string key))) in *.
  assert (Heq : ∀ ts, chPos key ts = if ts =? 0 then v else (v mod ts) mod 2 ^ 32)
    by done.
  rewrite !Heq. split.
  - destruct (totalSlots =? 0); [done|]. apply Z.mod_pos_bound. lia.
  - change (2 ^ 32 =? 0) with false. change (0 =? 0) with true. cbv iota.
    rewrite (Z.mod_small v) by lia. apply Z.mod_small. lia.
Qed.

(** *** The control plane *)

Lemma find_backend_first host port bs i :
  0 ≤ i → find_backend host port bs i ≠ -1 →
  ∃ l1 B l2, bs = l1 ++ B :: l2 ∧ identity B = (host, port) ∧
             Forall (fun b => identity b ≠ (host, port)) l1 ∧
             find_backend host port bs i = i + len l1.
Proof.
  revert i. induction bs as [|b bs IH]; intros i Hi Hne; [done|].
  simpl in *. destruct (bool_decide (Host b = host) && (Port b =? port)) eqn:E.
  - exists [], b, bs.
    apply andb_true_iff in E as [E1%bool_decide_eq_true E2%Z.eqb_eq].
    split; [done|]. split; [unfold identity; congruence|]. split; [constructor|].
    unfold len. simpl. lia.
  - destruct (IH (i + 1) ltac:(lia) Hne) as (l1 & B & l2 & -> & HB & Hall & Hf).
    exists (b :: l1), B, l2. split; [done|]. split; [done|]. split.
    + constructor; [|done]. unfold identity. intros [= H1 H2].
      apply andb_false_iff in E as [E%bool_decide_eq_false|E%Z.eqb_neq]; done.
    + rewrite Hf. unfold len. simpl length. lia.
Qed.



Lemma snapshot_inv lb :
  LB_inv lb →
  len (lb_backends lb) < 2 ^ 32 →
  ∃ m lb', snapshot lb = Ok (Some m, lb') ∧ LB_inv lb' ∧
           lb_backends lb' = lb_backends lb ∧ demoKeys lb' = demoKeys lb.
Proof.
  intros [Hwf Hperm] Hsz.
  destruct (snapshot_total lb Hwf) as (m & lb' & Hs & Hbs & Hdk & Hwf' & Hsb & _).
  { unfold len. by rewrite Hperm. }
  exists m, lb'. split; [done|]. split; [|done].
  split; [done|]. by rewrite Hsb, Hbs.
Qed.

(** X8.  On a balancer whose strategy is in step with the topology, an
    event with a payload of the expected type is handled without a panic;
    the loop ends on the exit event and on no other; and the balancer
    afterwards is again in step: its strategy is well formed and routes to
    exactly the backends of the topology, which has grown by at most one. *)
Theorem control_plane_keeps_strategy_in_step (e : Event) (lb : LB) :
  LB_inv lb →
  len (lb_backends lb) + 1 < 2 ^ 32 →
  well_typed e →
  ∃ r log,
    handle e lb = Ok (r, log) ∧
    (r = None ↔ EventName e = CMD_Exit) ∧
    (∀ lb', r = Some lb' →
            LB_inv lb' ∧ demoKeys lb' = demoKeys lb ∧
            len (lb_backends lb') ≤ len (lb_backends lb) + 1).
Proof.
  intros Hinv Hsz (Hadd & Hrm & Hst).
  destruct e as [name data]. cbn [EventName EventData] in *.
  unfold handle. cbn [EventName EventData].
  destruct (snapshot_inv lb Hinv ltac:(lia)) as (m & lb1 & Hs1 & Hinv1 & Hbs1 & Hdk1).
  case_bool_decide as Hexit.
  { eexists _, _. split; [done|]. split; [done|]. by intros lb' [=]. }
  assert (∀ lb' : LB, (Some lb' = None ↔ name = CMD_Exit)) as Hnone
    by (intros lb'; split; [done|by intros ?]).
  case_bool_decide as Ha.
  { destruct (Hadd Ha) as [b ->]. rewrite Hs1. cbn [mbind result_bind].
    cbn [set_backends lb_backends lb_strategy].
    destruct (Strategy_Init_spec (lb_backends lb1 ++ [b]) (lb_strategy lb1))
      as (st & -> & Hwf' & Hperm & _).
    cbn [mbind result_bind].
    set (lb2 := set_strategy st _).
    assert (len (lb_backends lb2) = len (lb_backends lb) + 1) as Hlen2.
    { subst lb2. simpl. unfold len. rewrite length_app, Hbs1. simpl. lia. }
    destruct (snapshot_inv lb2) as (m' & lb3 & -> & Hinv3 & Hbs3 & Hdk3).
    { by split. }
    { lia. }
    cbn [mbind result_bind]. eexists _, _. split; [done|]. split; [done|].
    intros lb' [= <-]. split; [done|]. split; [by rewrite Hdk3|].
    rewrite Hbs3. lia. }
  case_bool_decide as Hr.
  { destruct (Hrm Hr) as [port ->]. rewrite Hs1. cbn [mbind result_bind].
    destruct (removeBackend "localhost" port lb1) as [found lb2] eqn:Erm.
    destruct found.
    - apply removeBackend_true in Erm as (l1 & B & l2 & Hl & _ & Hl' & Hst2 & Hdk2).
      destruct (Strategy_Init_spec (lb_backends lb2) (lb_strategy lb2))
        as (st & -> & Hwf' & Hperm & _).
      cbn [mbind result_bind].
      set (lb3 := set_strategy st lb2).
      assert (len (lb_backends lb3) ≤ len (lb_backends lb)) as Hlen3.
      { subst lb3. simpl. rewrite Hl', <-Hbs1, Hl. unfold len.
        rewrite !length_app. simpl. lia. }
      destruct (snapshot_inv lb3) as (m' & lb4 & -> & Hinv4 & Hbs4 & Hdk4).
      { by split. }
      { lia. }
      cbn [mbind result_bind]. eexists _, _. split; [done|]. split; [done|].
      intros lb' [= <-]. split; [done|]. split.
      + rewrite Hdk4. subst lb3. simpl. by rewrite Hdk2.
      + rewrite Hbs4. lia.
    - apply removeBackend_false in Erm as [-> _].
      eexists _, _. split; [done|]. split; [done|].
      intros lb' [= <-]. split; [done|]. split; [done|]. rewrite Hbs1. lia. }
  case_bool_decide as Hs.
  { destruct (Hst Hs) as [sname ->]. rewrite Hs1. cbn [mbind result_bind].
    destruct (strategy_by_name_spec sname (lb_backends lb1))
      as (st & -> & Hwf' & Hperm & _).
    cbn [mbind result_bind].
    set (lb2 := set_strategy st lb1).
    destruct (snapshot_inv lb2) as (m' & lb3 & -> & Hinv3 & Hbs3 & Hdk3).
    { by split. }
    { subst lb2. simpl. rewrite Hbs1. lia. }
    cbn [mbind result_bind]. eexists _, _. split; [done|]. split; [done|].
    intros lb' [= <-]. split; [done|]. split; [by rewrite Hdk3|].
    rewrite Hbs3. subst lb2. simpl. rewrite Hbs1. lia. }
  case_bool_decide as Hm.
  { rewrite Hs1. cbn [mbind result_bind]. eexists _, _. split; [done|].
    split; [done|]. intros lb' [= <-]. split; [done|]. split; [done|].
    rewrite Hbs1. lia. }
  eexists _, _. split; [done|]. split; [done|].
  intros lb' [= <-]. split; [done|]. split; [done|]. lia.
Qed.

Lemma control_plane_keeps_strategy_in_step_witness :
  ∃ r log,
    handle (ev_rm 8083) lb0 = Ok (r, log) ∧
    (r = None ↔ EventName (ev_rm 8083) = CMD_Exit) ∧
    (∀ lb', r = Some lb' →
            LB_inv lb' ∧ demoKeys lb' = demoKeys lb0 ∧
            len (lb_backends lb') ≤ len (lb_backends lb0) + 1).
Proof.
  apply control_plane_keeps_strategy_in_step.
  - split.
    + vm_compute. split; [repeat constructor; discriminate|reflexivity].
    + destruct (New_spec seed) as (s & Hs & He & _ & [_ Hlen]).
      change (lb_strategy lb0) with
        (lb_strategy (lb_of (s ← NewConsistentHashStrategy seed;
           Ok {| lb_backends := seed; lb_strategy := ConsistentHash s;
                 demoKeys := demoKeys lb0 |}))).
      rewrite Hs. cbn [mbind result_bind lb_of lb_strategy Strategy_backends].
      rewrite (backends_entries s Hlen), He, ring_Permutation.
      rewrite <-list_fmap_compose. by rewrite list_fmap_id.
  - vm_compute. reflexivity.
  - split_and!; [discriminate| |discriminate]. intros _. by eexists.
Defined.

(** X9.  Handling a queue of events in two parts is handling the whole
    queue: the second part starts from the balancer the first part leaves and
    the logs are joined; once the first part has ended the loop (on an exit
    event), no later event is handled. *)
Theorem run_app (es1 es2 : list Event) (lb : LB) :
  run (es1 ++ es2) lb
  = (r1 ← run es1 lb;
     match r1.1 with
     | None => Ok r1
     | Some lb' => r2 ← run es2 lb'; Ok (r2.1, r1.2 ++ r2.2)
     end).
Proof.
  revert lb. induction es1 as [|e es1 IH]; intros lb.
  - cbn [app run mbind result_bind fst snd].
    destruct (run es2 lb) as [[r log]|]; done.
  - cbn [app run]. destruct (handle e lb) as [[r log]|msg]; [|done].
    cbn [mbind result_bind fst snd]. destruct r as [lb1|]; [|done].
    rewrite IH. destruct (run es1 lb1) as [[r1 log1]|]; [|done].
    cbn [mbind result_bind fst snd]. destruct r1 as [lb2|]; [|done].
    destruct (run es2 lb2) as [[r2 log2]|]; [|done].
    cbn [mbind result_bind fst snd]. by rewrite app_assoc.
Qed.

(** *** Snapshots *)

Lemma snapshot_loop_table ks st m0 :
  Strategy_wf st →
  len (Strategy_backends st) < 2 ^ 32 →
  cursor st = None →
  ∃ m, snapshot_loop ks st m0 = Ok (m, st) ∧
       ∀ k, m !! k = if decide (k ∈ ks) then Some (route_label st k) else m0 !! k.
Proof.
  intros Hwf Hsz Hc. revert m0. induction ks as [|k ks IH]; intros m0.
  - exists m0. split; [done|]. intros k. by rewrite decide_False by apply not_elem_of_nil.
  - destruct (GetNextBackend_total st {| reqId := ""; key := k |} Hwf Hsz)
      as (r & st' & Hr & _ & _ & _ & _ & Hst).
    specialize (Hst Hc). subst st'.
    cbn [snapshot_loop]. rewrite Hr. cbn [mbind result_bind].
    assert (Hlabel : route_label st k
                     = match r with Some b => Backend_String b | None => "<nil>" end).
    { unfold route_label. rewrite Hr. by destruct r. }
    assert (∃ m, snapshot_loop ks st (<[k := route_label st k]> m0) = Ok (m, st) ∧
       ∀ k', m !! k' = if decide (k' ∈ ks) then Some (route_label st k')
                       else <[k := route_label st k]> m0 !! k')
      as (m & Hm & Hlook) by apply IH.
    exists m. split.
    + rewrite Hlabel in Hm. by destruct r.
    + intros k'. rewrite Hlook.
      destruct (decide (k' ∈ ks)) as [Hin|Hnin].
      * by rewrite decide_True by (by right).
      * destruct (decide (k' = k)) as [->|Hne].
        -- rewrite lookup_insert_eq. by rewrite decide_True by left.
        -- rewrite lookup_insert_ne by done.
           rewrite decide_False; [done|]. by intros [?|?]%elem_of_cons.
Qed.

(** X10.  With a strategy without a cursor, a snapshot leaves the balancer
    as it was and returns a map that holds exactly the demo keys, each with
    the identity of the backend the strategy routes it to (or ["<nil>"] when
    there is none). *)
Theorem snapshot_is_routing_table (lb : LB) :
  Strategy_wf (lb_strategy lb) →
  len (Strategy_backends (lb_strategy lb)) < 2 ^ 32 →
  cursor (lb_strategy lb) = None →
  ∃ m : gmap string string,
    snapshot lb = Ok (Some m, lb) ∧
    ∀ k, m !! k = if decide (k ∈ demoKeys lb)
                  then Some (route_label (lb_strategy lb) k) else None.
Proof.
  intros Hwf Hsz Hc. unfold snapshot.
  destruct (snapshot_loop_table (demoKeys lb) (lb_strategy lb) ∅ Hwf Hsz Hc)
    as (m & -> & Hm).
  cbn [mbind result_bind fst snd]. exists m. split; [by destruct lb|].
  intros k. rewrite Hm. by rewrite lookup_empty.
Qed.

Lemma snapshot_is_routing_table_witness :
  ∃ m : gmap string string,
    snapshot lb0 = Ok (Some m, lb0) ∧
    ∀ k, m !! k = if decide (k ∈ demoKeys lb0)
                  then Some (route_label (lb_strategy lb0) k) else None.
Proof.
  apply snapshot_is_routing_table.
  - vm_compute. split; [repeat constructor; discriminate|reflexivity].
  - vm_compute. reflexivity.
  - vm_compute. reflexivity.
Defined.

Lemma snapshot_loop_round_robin ks s m0 :
  0 ≤ rr_Index s < len (rr_Backends s) →
  ∃ m, snapshot_loop ks (RoundRobin s) m0
       = Ok (m, RoundRobin
                  {| rr_Index := (rr_Index s + len ks) mod len (rr_Backends s);
                     rr_Backends := rr_Backends s |}).
Proof.
  revert s m0. induction ks as [|k ks IH]; intros s m0 Hidx.
  - exists m0. cbn [snapshot_loop]. unfold len at 1. simpl length.
    rewrite Z.add_0_r, Z.mod_small by lia. by destruct s.
  - assert (rr_Backends s ≠ []) as Hne.
    { intros Hnil. rewrite Hnil in Hidx. unfold len in Hidx. simpl in Hidx. lia. }
    destruct (RR_next {| reqId := ""; key := k |} s) as (b & Hb & _); [lia|done|].
    cbn [snapshot_loop GetNextBackend Strategy_strategy Strategy_GetNextBackend
         RR_strategy].
    rewrite Hb. cbn [fmap result_fmap prod_map mbind result_bind fst snd id].
    pose proof (Z.mod_pos_bound (rr_Index s + 1) (len (rr_Backends s))
                  ltac:(lia)) as Hm.
    destruct (IH {| rr_Index := (rr_Index s + 1) mod len (rr_Backends s);
                    rr_Backends := rr_Backends s |}
                 (<[k := Backend_String b]> m0) Hm) as (m & Hs).
    cbn [rr_Index rr_Backends] in Hs. exists m. rewrite Hs. do 3 f_equal.
    rewrite Z.add_mod_idemp_l by lia. unfold len. simpl length.
    by replace (rr_Index s + 1 + Z.of_nat (length ks))
      with (rr_Index s + Z.of_nat (S (length ks))) by lia.
Qed.

(** X11.  With round robin active over K backends, K > 0, a snapshot over n
    demo keys sets the cursor to [(cursor + n) mod K] and changes nothing
    else in the balancer; the cursor is back where it was exactly when K
    divides n. *)
Theorem snapshot_moves_round_robin_cursor (lb : LB) (s : RRBalancingStrategy) :
  lb_strategy lb = RoundRobin s →
  0 ≤ rr_Index s < len (rr_Backends s) →
  (∃ m : gmap string string,
     snapshot lb
     = Ok (Some m,
           set_strategy
             (RoundRobin
                {| rr_Index := (rr_Index s + len (demoKeys lb)) mod len (rr_Backends s);
                   rr_Backends := rr_Backends s |}) lb)) ∧
  ((rr_Index s + len (demoKeys lb)) mod len (rr_Backends s) = rr_Index s
   ↔ len (demoKeys lb) mod len (rr_Backends s) = 0).
Proof.
  intros Hst Hidx. split.
  - unfold snapshot. rewrite Hst.
    destruct (snapshot_loop_round_robin (demoKeys lb) s ∅ Hidx) as (m & ->).
    cbn [mbind result_bind fst snd]. by exists m.
  - set (K := len (rr_Backends s)) in *. set (n := len (demoKeys lb)).
    pose proof (Z.mod_pos_bound n K ltac:(lia)) as Hn.
    rewrite <-(Z.add_mod_idemp_r (rr_Index s) n K) by lia.
    destruct (decide (rr_Index s + n mod K < K)) as [Hlt|Hge].
    + rewrite Z.mod_small by lia. lia.
    + replace (rr_Index s + n mod K) with (rr_Index s + n mod K - K + 1 * K) by lia.
      rewrite Z.mod_add, Z.mod_small by lia. lia.
Qed.

Lemma snapshot_moves_round_robin_cursor_witness :
  (∃ m : gmap string string,
     snapshot (mkLB seed (RoundRobin (mkRR 1 seed)) ["a"; "b"; "c"])
     = Ok (Some m,
           set_strategy
             (RoundRobin {| rr_Index := (1 + len ["a"; "b"; "c"]) mod len seed;
                            rr_Backends := seed |})
             (mkLB seed (RoundRobin (mkRR 1 seed)) ["a"; "b"; "c"]))) ∧
  ((1 + len ["a"; "b"; "c"]) mod len seed = 1 ↔ len ["a"; "b"; "c"] mod len seed = 0).
Proof.
  apply (snapshot_moves_round_robin_cursor
           (mkLB seed (RoundRobin (mkRR 1 seed)) ["a"; "b"; "c"]) (mkRR 1 seed)).
  - reflexivity.
  - vm_compute. split; [discriminate|reflexivity].
Defined.

(** *** The churn report *)

Lemma printRemap_loop_bounds ks before after moved :
  moved ≤ (printRemap_loop ks before after moved).1 ≤ moved + len ks ∧
  length (printRemap_loop ks before after moved).2 = length ks.
Proof.
  revert moved. unfold len.
  induction ks as [|k ks IH]; intros moved; [simpl; lia|].
  cbn [printRemap_loop]. destruct before as [b|]; cbn [fst snd length].
  - destruct (negb _).
    + destruct (IH (moved + 1)) as [H1 H2]. lia.
    + destruct (IH moved) as [H1 H2]. lia.
  - destruct (IH moved) as [H1 H2]. lia.
Qed.

(** X12.  The count of moved keys that [printRemap] reports lies between 0
    and the number of demo keys.  With a before-map the log is the header,
    one row per demo key and a last line with that count and the total;
    without one (a plain listing) nothing is counted and no count line is
    logged. *)
Theorem printRemap_count_and_log (lb : LB) (what : string) (before after : GoMap) :
  0 ≤ (printRemap lb what before after).1 ≤ len (demoKeys lb) ∧
  match before with
  | Some _ =>
      length (printRemap lb what before after).2 = S (S (length (demoKeys lb))) ∧
      last (printRemap lb what before after).2
      = Some (LogMoved (printRemap lb what before after).1 (len (demoKeys lb)))
  | None =>
      (printRemap lb what before after).1 = 0 ∧
      length (printRemap lb what before after).2 = S (length (demoKeys lb)) ∧
      Forall (fun l => ∀ moved total, l ≠ LogMoved moved total)
        (printRemap lb what before after).2
  end.
Proof.
  unfold printRemap. cbn [fst snd].
  destruct (printRemap_loop_bounds (demoKeys lb) before after 0) as [Hb Hl].
  split; [lia|]. destruct before as [b|].
  - split.
    + cbn [length]. rewrite length_app, Hl. simpl. lia.
    + by rewrite last_cons, last_snoc.
  - split_and!.
    + assert (∀ ks z, (printRemap_loop ks None after z).1 = z) as Hz; [|apply Hz].
      induction ks as [|k ks IH]; intros z; [done|].
      cbn [printRemap_loop fst]. apply IH.
    + cbn [length]. rewrite length_app, Hl. simpl. lia.
    + rewrite app_nil_r. constructor; [done|].
      assert (∀ ks z, Forall (fun l => ∀ moved total, l ≠ LogMoved moved total)
                        (printRemap_loop ks None after z).2) as Hz; [|apply Hz].
      induction ks as [|k ks IH]; intros z; [constructor|].
      cbn [printRemap_loop snd]. constructor; [done|apply IH].
Qed.

(** *** [clientIP] *)

Import Stdlib.Strings.Ascii.

Lemma LastIndexByte_from_notin c s i last :
  c ∉ s → LastIndexByte_from c s i last = last.
Proof.
  revert i last. induction s as [|x s IH]; intros i last Hnin; [done|].
  cbn [LastIndexByte_from]. rewrite bool_decide_eq_false_2 by set_solver.
  apply IH. set_solver.
Qed.

Lemma LastIndexByte_from_last c s1 s2 i last :
  c ∉ s2 → LastIndexByte_from c (s1 ++ c :: s2) i last = i + len s1.
Proof.
  revert i last. unfold len. induction s1 as [|x s1 IH]; intros i last Hnin.
  - cbn [app LastIndexByte_from]. rewrite bool_decide_eq_true_2 by done.
    rewrite LastIndexByte_from_notin by done. simpl. lia.
  - cbn [app LastIndexByte_from]. rewrite IH by done. simpl length. lia.
Qed.

Lemma drop_while_head {A} (f : A → bool) (l : list A) :
  (∀ x, head l = Some x → f x = false) → drop_while f l = l.
Proof. destruct l as [|x l]; [done|]. intros H. simpl. by rewrite (H x). Qed.

Lemma Trim_no_ends (cutset l : list Ascii.ascii) :
  (∀ c, head l = Some c → c ∉ cutset) →
  (∀ c, last l = Some c → c ∉ cutset) →
  Trim (String.string_of_list_ascii l) cutset = String.string_of_list_ascii l.
Proof.
  intros Hh Hl. unfold Trim. rewrite String.list_ascii_of_string_of_list_ascii.
  rewrite (drop_while_head _ (reverse l)).
  - rewrite reverse_involutive. by rewrite drop_while_head
      by (intros c Hc; apply bool_decide_eq_false_2; auto).
  - intros c Hc. rewrite head_reverse in Hc. apply bool_decide_eq_false_2. auto.
Qed.

(** X13.  [clientIP] undoes the formatting of an address: for a host whose
    first and last bytes are not square brackets and a port without a colon,
    it returns the host both from ["host:port"] and from ["[host]:port"];
    when the address has no colon it is returned as it is. *)
Theorem clientIP_round_trip (host port : list Ascii.ascii) :
  ":"%char ∉ port →
  (∀ c, head host = Some c → c ∉ ["["%char; "]"%char]) →
  (∀ c, last host = Some c → c ∉ ["["%char; "]"%char]) →
  clientIP (String.string_of_list_ascii (host ++ ":"%char :: port))
    = String.string_of_list_ascii host ∧
  clientIP (String.string_of_list_ascii
              ("["%char :: host ++ "]"%char :: ":"%char :: port))
    = String.string_of_list_ascii host ∧
  clientIP (String.string_of_list_ascii port) = String.string_of_list_ascii port.
Proof.
  intros Hport Hh Hl. split_and!.
  - unfold clientIP, LastIndexByte, prefix.
    rewrite String.list_ascii_of_string_of_list_ascii.
    rewrite LastIndexByte_from_last by done.
    pose proof (len_nonneg host) as Hn.
    replace (negb (0 + len host =? -1)) with true
      by (symmetry; apply negb_true_iff, Z.eqb_neq; lia).
    unfold len. replace (Z.to_nat (0 + Z.of_nat (length host))) with (length host) by lia.
    rewrite take_app_length. by apply Trim_no_ends.
  - unfold clientIP, LastIndexByte, prefix.
    rewrite String.list_ascii_of_string_of_list_ascii.
    replace ("["%char :: host ++ "]"%char :: ":"%char :: port)
      with (("["%char :: host ++ ["]"%char]) ++ ":"%char :: port)
      by (simpl; by rewrite <-app_assoc).
    rewrite LastIndexByte_from_last by done.
    pose proof (len_nonneg ("["%char :: host ++ ["]"%char])) as Hn.
    replace (negb (0 + len ("["%char :: host ++ ["]"%char]) =? -1)) with true
      by (symmetry; apply negb_true_iff, Z.eqb_neq; lia).
    unfold len.
    replace (Z.to_nat (0 + Z.of_nat (length ("["%char :: host ++ ["]"%char]))))
      with (length ("["%char :: host ++ ["]"%char])) by lia.
    rewrite take_app_length. unfold Trim.
    rewrite String.list_ascii_of_string_of_list_ascii. f_equal.
    destruct host as [|x host']; [done|].
    change ("["%char :: (x :: host') ++ ["]"%char])
      with (("["%char :: x :: host') ++ ["]"%char]).
    rewrite reverse_snoc. cbn [drop_while].
    rewrite bool_decide_eq_true_2 by (right; left).
    rewrite (drop_while_head _ (reverse ("["%char :: x :: host'))).
    + rewrite reverse_involutive. cbn [drop_while].
      rewrite bool_decide_eq_true_2 by left.
      by rewrite bool_decide_eq_false_2 by auto.
    + intros c Hc. rewrite head_reverse, last_cons_cons in Hc.
      apply bool_decide_eq_false_2. auto.
  - unfold clientIP, LastIndexByte.
    rewrite String.list_ascii_of_string_of_list_ascii.
    by rewrite LastIndexByte_from_notin by done.
Qed.

Lemma clientIP_round_trip_witness :
  clientIP "::1:80" = "::1" ∧ clientIP "[::1]:80" = "::1" ∧ clientIP "80" = "80".
Proof.
  apply (clientIP_round_trip (String.list_ascii_of_string "::1")
           (String.list_ascii_of_string "80")).
  - apply (bool_decide_unpack _). vm_compute. reflexivity.
  - intros c [= <-]. apply (bool_decide_unpack _). vm_compute. reflexivity.
  - intros c [= <-]. apply (bool_decide_unpack _). vm_compute. reflexivity.
Defined.

(** *** Malformed events; adding and removing again *)

Lemma lb0_inv : LB_inv lb0.
Proof.
  split.
  - vm_compute. split; [repeat constructor; discriminate|reflexivity].
  - destruct (New_spec seed) as (s & Hs & He & _ & [_ Hlen]).
    change (lb_strategy lb0) with
      (lb_strategy (lb_of (s ← NewConsistentHashStrategy seed;
         Ok {| lb_backends := seed; lb_strategy := ConsistentHash s;
               demoKeys := demoKeys lb0 |}))).
    rewrite Hs. cbn [mbind result_bind lb_of lb_strategy Strategy_backends].
    rewrite (backends_entries s Hlen), He, ring_Permutation.
    rewrite <-list_fmap_compose. by rewrite list_fmap_id.
Qed.

(** X14.  The handlers of add, remove and strategy change assert the dynamic
    type of the payload after taking the snapshot: a payload of another type
    makes the loop panic with the handler's message and leaves no balancer
    behind.  No other event looks at its payload. *)
Theorem malformed_event_panics (e : Event) (lb : LB) :
  LB_inv lb →
  len (lb_backends lb) < 2 ^ 32 →
  (EventName e = CMD_BackendAdd → (∀ b, EventData e ≠ DBackend b) →
     handle e lb = Panic "invalid backend data") ∧
  (EventName e = CMD_BackendRemove → (∀ n, EventData e ≠ DInt n) →
     handle e lb = Panic "invalid remove data") ∧
  (EventName e = CMD_StrategyChange → (∀ n, EventData e ≠ DString n) →
     handle e lb = Panic "invalid strategy name") ∧
  (EventName e ∉ [CMD_BackendAdd; CMD_BackendRemove; CMD_StrategyChange] →
     ∀ d, handle (mkEvent (EventName e) d) lb = handle e lb ∧
          ∃ r, handle e lb = Ok r).
Proof.
  intros Hinv Hsz.
  destruct (snapshot_inv lb Hinv Hsz) as (m & lb1 & Hs1 & _).
  destruct e as [name data]. cbn [EventName EventData].
  split_and!.
  - intros -> Hd. unfold handle. cbn [EventName EventData].
    rewrite bool_decide_eq_false_2 by done. rewrite bool_decide_eq_true_2 by done.
    rewrite Hs1. cbn [mbind result_bind]. destruct data as [x|x|x|]; try done.
    by destruct (Hd x).
  - intros -> Hd. unfold handle. cbn [EventName EventData].
    rewrite !bool_decide_eq_false_2 by done. rewrite bool_decide_eq_true_2 by done.
    rewrite Hs1. cbn [mbind result_bind]. destruct data as [x|x|x|]; try done.
    by destruct (Hd x).
  - intros -> Hd. unfold handle. cbn [EventName EventData].
    rewrite !bool_decide_eq_false_2 by done. rewrite bool_decide_eq_true_2 by done.
    rewrite Hs1. cbn [mbind result_bind]. destruct data as [x|x|x|]; try done.
    by destruct (Hd x).
  - intros Hn d. unfold handle. cbn [EventName EventData].
    case_bool_decide; [by eauto|].
    case_bool_decide; [subst; exfalso; apply Hn; set_solver|].
    case_bool_decide; [subst; exfalso; apply Hn; set_solver|].
    case_bool_decide; [subst; exfalso; apply Hn; set_solver|].
    case_bool_decide; [|by eauto].
    rewrite Hs1. cbn [mbind result_bind]. by eauto.
Qed.

Lemma malformed_event_panics_witness :
  (EventName (mkEvent CMD_BackendRemove (DString "8081")) = CMD_BackendAdd →
   (∀ b, EventData (mkEvent CMD_BackendRemove (DString "8081")) ≠ DBackend b) →
     handle (mkEvent CMD_BackendRemove (DString "8081")) lb0
     = Panic "invalid backend data") ∧
  (EventName (mkEvent CMD_BackendRemove (DString "8081")) = CMD_BackendRemove →
   (∀ n, EventData (mkEvent CMD_BackendRemove (DString "8081")) ≠ DInt n) →
     handle (mkEvent CMD_BackendRemove (DString "8081")) lb0
     = Panic "invalid remove data") ∧
  (EventName (mkEvent CMD_BackendRemove (DString "8081")) = CMD_StrategyChange →
   (∀ n, EventData (mkEvent CMD_BackendRemove (DString "8081")) ≠ DString n) →
     handle (mkEvent CMD_BackendRemove (DString "8081")) lb0
     = Panic "invalid strategy name") ∧
  (EventName (mkEvent CMD_BackendRemove (DString "8081"))
     ∉ [CMD_BackendAdd; CMD_BackendRemove; CMD_StrategyChange] →
     ∀ d, handle (mkEvent (EventName (mkEvent CMD_BackendRemove (DString "8081"))) d) lb0
          = handle (mkEvent CMD_BackendRemove (DString "8081")) lb0 ∧
          ∃ r, handle (mkEvent CMD_BackendRemove (DString "8081")) lb0 = Ok r).
Proof.
  apply malformed_event_panics.
  - apply lb0_inv.
  - vm_compute. reflexivity.
Defined.

Lemma find_backend_app host port l1 B l2 i :
  Forall (fun b => identity b ≠ (host, port)) l1 →
  identity B = (host, port) →
  find_backend host port (l1 ++ B :: l2) i = i + len l1.
Proof.
  intros Hall HB. revert i. induction Hall as [|b l1 Hb Hall IH]; intros i.
  - simpl. injection HB as -> ->.
    rewrite bool_decide_eq_true_2, Z.eqb_refl by done. unfold len. simpl. lia.
  - simpl. destruct (bool_decide (Host b = host) && (Port b =? port)) eqn:E.
    + apply andb_true_iff in E as [E1%bool_decide_eq_true E2%Z.eqb_eq].
      destruct Hb. unfold identity. congruence.
    + rewrite IH. unfold len. simpl length. lia.
Qed.

Lemma removeBackend_at host port lb l1 B l2 :
  lb_backends lb = l1 ++ B :: l2 →
  Forall (fun b => identity b ≠ (host, port)) l1 →
  identity B = (host, port) →
  removeBackend host port lb = (true, set_backends (l1 ++ l2) lb).
Proof.
  intros Hbs Hall HB. unfold removeBackend, set_backends. rewrite Hbs.
  rewrite (find_backend_app host port l1 B l2 0 Hall HB).
  pose proof (len_nonneg l1).
  destruct (0 + len l1 =? -1) eqn:E; [apply Z.eqb_eq in E; lia|].
  do 2 f_equal. unfold len.
  replace (Z.to_nat (0 + Z.of_nat (length l1))) with (length l1) by lia.
  replace (Z.to_nat (0 + Z.of_nat (length l1) + 1)) with (S (length l1)) by lia.
  rewrite take_app_length. f_equal.
  rewrite (cons_middle B), app_assoc.
  apply drop_app_length'. rewrite length_app. simpl. lia.
Qed.

Lemma first_match_dec (P : Backend → Prop) `{!∀ b, Decision (P b)} (bs : list Backend) :
  Forall (fun b => ¬ P b) bs ∨
  ∃ l1 B l2, bs = l1 ++ B :: l2 ∧ Forall (fun b => ¬ P b) l1 ∧ P B.
Proof.
  induction bs as [|b bs IH]; [by left|].
  destruct (decide (P b)) as [Hb|Hb].
  - right. by exists [], b, bs.
  - destruct IH as [IH|(l1 & B & l2 & -> & Hall & HB)].
    + left. by constructor.
    + right. exists (b :: l1), B, l2. split; [done|]. split; [by constructor|done].
Qed.

Lemma handle_add_spec b lb :
  LB_inv lb →
  len (lb_backends lb) + 1 < 2 ^ 32 →
  ∃ lb' log,
    handle (mkEvent CMD_BackendAdd (DBackend b)) lb = Ok (Some lb', log) ∧
    lb_backends lb' = lb_backends lb ++ [b] ∧
    LB_inv lb' ∧ demoKeys lb' = demoKeys lb.
Proof.
  intros Hinv Hsz. rewrite handle_add_eq.
  destruct (snapshot_inv lb Hinv ltac:(lia)) as (m & lb1 & -> & Hinv1 & Hbs1 & Hdk1).
  cbn [mbind result_bind]. cbn [set_backends lb_backends lb_strategy].
  destruct (Strategy_Init_spec (lb_backends lb1 ++ [b]) (lb_strategy lb1))
    as (st & -> & Hwf' & Hperm & _).
  cbn [mbind result_bind].
  set (lb2 := set_strategy st _).
  destruct (snapshot_inv lb2) as (m' & lb3 & -> & Hinv3 & Hbs3 & Hdk3).
  { by split. }
  { subst lb2. simpl. unfold len in *. rewrite length_app, Hbs1. simpl. lia. }
  cbn [mbind result_bind]. eexists _, _. split; [done|].
  rewrite Hbs3, Hdk3. subst lb2. simpl. by rewrite Hbs1.
Qed.

Lemma handle_rm_spec port lb l1 B l2 :
  LB_inv lb →
  len (lb_backends lb) < 2 ^ 32 →
  lb_backends lb = l1 ++ B :: l2 →
  Forall (fun b => identity b ≠ ("localhost", port)) l1 →
  identity B = ("localhost", port) →
  ∃ lb' log,
    handle (mkEvent CMD_BackendRemove (DInt port)) lb = Ok (Some lb', log) ∧
    lb_backends lb' = l1 ++ l2 ∧
    LB_inv lb' ∧ demoKeys lb' = demoKeys lb.
Proof.
  intros Hinv Hsz Hbs Hall HB. rewrite handle_rm_eq.
  destruct (snapshot_inv lb Hinv Hsz) as (m & lb1 & -> & Hinv1 & Hbs1 & Hdk1).
  cbn [mbind result_bind].
  rewrite (removeBackend_at "localhost" port lb1 l1 B l2) by congruence.
  cbn [set_backends lb_backends lb_strategy].
  destruct (Strategy_Init_spec (l1 ++ l2) (lb_strategy lb1))
    as (st & -> & Hwf' & Hperm & _).
  cbn [mbind result_bind].
  set (lb2 := set_strategy st _).
  destruct (snapshot_inv lb2) as (m' & lb3 & -> & Hinv3 & Hbs3 & Hdk3).
  { by split. }
  { subst lb2. simpl. rewrite Hbs in Hsz. unfold len in *.
    rewrite length_app in *. simpl in Hsz. lia. }
  cbn [mbind result_bind]. eexists _, _. split; [done|].
  rewrite Hbs3, Hdk3. by subst lb2.
Qed.

(** X15.  Adding a backend on localhost and removing its port again is
    handled without a panic and leaves the strategy in step with the
    topology.  If no backend had that identity, the topology is as it was
    before.  If one had, the remove takes the older one: the first backend
    of that identity is gone and the added one stays at the end. *)
Theorem add_then_remove (b : Backend) (lb : LB) :
  LB_inv lb →
  len (lb_backends lb) + 1 < 2 ^ 32 →
  Host b = "localhost" →
  ∃ lb' log,
    run [mkEvent CMD_BackendAdd (DBackend b);
         mkEvent CMD_BackendRemove (DInt (Port b))] lb = Ok (Some lb', log) ∧
    LB_inv lb' ∧ demoKeys lb' = demoKeys lb ∧
    (Forall (fun x => identity x ≠ identity b) (lb_backends lb) →
       lb_backends lb' = lb_backends lb) ∧
    (∀ l1 B l2,
       lb_backends lb = l1 ++ B :: l2 →
       Forall (fun x => identity x ≠ identity b) l1 →
       identity B = identity b →
       lb_backends lb' = l1 ++ l2 ++ [b]).
Proof.
  intros Hinv Hsz Hhost.
  assert (identity b = ("localhost", Port b)) as Hid
    by (unfold identity; by rewrite Hhost).
  rewrite Hid.
  destruct (handle_add_spec b lb Hinv Hsz) as (lb1 & log1 & H1 & Hbs1 & Hinv1 & Hdk1).
  assert (len (lb_backends lb1) < 2 ^ 32) as Hsz1.
  { rewrite Hbs1. unfold len in *. rewrite length_app. simpl. lia. }
  assert (∀ l1 B l2,
    lb_backends lb1 = l1 ++ B :: l2 →
    Forall (fun x => identity x ≠ ("localhost", Port b)) l1 →
    identity B = ("localhost", Port b) →
    ∃ lb' log,
      run [mkEvent CMD_BackendAdd (DBackend b);
           mkEvent CMD_BackendRemove (DInt (Port b))] lb = Ok (Some lb', log) ∧
      LB_inv lb' ∧ demoKeys lb' = demoKeys lb ∧ lb_backends lb' = l1 ++ l2) as Hrun.
  { intros l1 B l2 Hl Hall HB.
    destruct (handle_rm_spec (Port b) lb1 l1 B l2 Hinv1 Hsz1 Hl Hall HB)
      as (lb2 & log2 & H2 & Hbs2 & Hinv2 & Hdk2).
    exists lb2, (log1 ++ log2 ++ []). cbn [run]. rewrite H1.
    cbn [mbind result_bind fst snd]. rewrite H2. cbn [mbind result_bind fst snd].
    split; [done|]. split; [done|]. split; [congruence|done]. }
  destruct (first_match_dec (fun x => identity x = ("localhost", Port b))
              (lb_backends lb)) as [Hfresh|(l1 & B & l2 & Hl & Hall & HB)].
  - destruct (Hrun (lb_backends lb) b []) as (lb' & log & Hr & Hinv' & Hdk' & Hbs');
      [done..|].
    exists lb', log. split_and!; try done.
    + intros _. by rewrite Hbs', app_nil_r.
    + intros l1 B l2 Hl _ HB. rewrite Hl in Hfresh.
      apply Forall_app in Hfresh as [_ Hfresh].
      by apply Forall_cons in Hfresh as [? _].
  - destruct (Hrun l1 B (l2 ++ [b])) as (lb' & log & Hr & Hinv' & Hdk' & Hbs');
      [by rewrite Hbs1, Hl, <-app_assoc|done..|].
    exists lb', log. split_and!; try done.
    + intros Hfresh. rewrite Hl in Hfresh.
      apply Forall_app in Hfresh as [_ Hfresh].
      by apply Forall_cons in Hfresh as [? _].
    + intros l1' B' l2' Hl' Hall' HB'.
      destruct (Hrun l1' B' (l2' ++ [b])) as (lb'' & log' & Hr' & _ & _ & Hbs'');
        [by rewrite Hbs1, Hl', <-app_assoc|done..|].
      rewrite Hr in Hr'. injection Hr' as <- _. done.
Qed.

Lemma add_then_remove_witness :
  ∃ lb' log,
    run [mkEvent CMD_BackendAdd (DBackend (localhost 8085));
         mkEvent CMD_BackendRemove (DInt (Port (localhost 8085)))] lb0
      = Ok (Some lb', log) ∧
    LB_inv lb' ∧ demoKeys lb' = demoKeys lb0 ∧
    (Forall (fun x => identity x ≠ identity (localhost 8085)) (lb_backends lb0) →
       lb_backends lb' = lb_backends lb0) ∧
    (∀ l1 B l2,
       lb_backends lb0 = l1 ++ B :: l2 →
       Forall (fun x => identity x ≠ identity (localhost 8085)) l1 →
       identity B = identity (localhost 8085) →
       lb_backends lb' = l1 ++ l2 ++ [localhost 8085]).
Proof.
  apply add_then_remove.
  - apply lb0_inv.
  - vm_compute. reflexivity.
  - reflexivity.
Defined.

End GoMore.

(** ** Further properties of the replica *)

Module TSMore.
Import TS TSSpec TSFacts.
Local Open Scope Z_scope.

(** *** The hash *)

Lemma lxor_mod_pow2 a b n :
  0 ≤ n → Z.lxor a b mod 2 ^ n = Z.lxor (a mod 2 ^ n) (b mod 2 ^ n).
Proof.
  intros Hn. apply Z.bits_inj'. intros i Hi.
  destruct (Z.lt_ge_cases i n) as [Hlt|Hge].
  - by rewrite Z.lxor_spec, !Z.mod_pow2_bits_low, Z.lxor_spec by lia.
  - by rewrite Z.lxor_spec, !Z.mod_pow2_bits_high by lia.
Qed.

Lemma ToInt32_mod x : ToInt32 x mod 2 ^ 32 = x mod 2 ^ 32.
Proof.
  unfold ToInt32.
  replace ((x + 2 ^ 31) mod 2 ^ 32 - 2 ^ 31)
    with ((x + 2 ^ 31) mod 2 ^ 32 + 2 ^ 31 + (-1) * 2 ^ 32) by lia.
  rewrite Z.mod_add by lia. rewrite Z.add_mod_idemp_l by lia.
  replace (x + 2 ^ 31 + 2 ^ 31) with (x + 1 * 2 ^ 32) by lia.
  by rewrite Z.mod_add by lia.
Qed.

Lemma shl_mod x n : 0 ≤ n → shl x n mod 2 ^ 32 = (x * 2 ^ n) mod 2 ^ 32.
Proof.
  intros Hn. unfold shl. rewrite ToInt32_mod, Z.shiftl_mul_pow2 by done.
  rewrite Z.mul_mod by lia. rewrite ToInt32_mod. by rewrite <-Z.mul_mod by lia.
Qed.

Lemma xor_mod h c :
  0 ≤ h < 2 ^ 32 → 0 ≤ c < 2 ^ 32 → xor h c mod 2 ^ 32 = Z.lxor h c.
Proof.
  intros Hh Hc. unfold xor.
  rewrite ToInt32_mod, lxor_mod_pow2, !ToInt32_mod by lia.
  by rewrite !Z.mod_small by lia.
Qed.

Lemma mod_eq_ex a b :
  a mod 2 ^ 32 = b mod 2 ^ 32 → ∃ k, a = b + k * 2 ^ 32.
Proof.
  intros H. exists (a / 2 ^ 32 - b / 2 ^ 32).
  pose proof (Z.div_mod a (2 ^ 32) ltac:(lia)).
  pose proof (Z.div_mod b (2 ^ 32) ltac:(lia)). lia.
Qed.

Lemma fnv_step h c :
  0 ≤ h < 2 ^ 32 → 0 ≤ c < 2 ^ 32 →
  ToUint32 (xor h c + (shl (xor h c) 1 + shl (xor h c) 4 + shl (xor h c) 7
                       + shl (xor h c) 8 + shl (xor h c) 24))
  = (Z.lxor h c * 16777619) mod 2 ^ 32.
Proof.
  intros Hh Hc. unfold ToUint32. set (x := xor h c).
  rewrite <-(xor_mod h c Hh Hc). fold x.
  rewrite Z.mul_mod_idemp_l by lia.
  destruct (mod_eq_ex _ _ (shl_mod x 1 ltac:(lia))) as [k1 ->].
  destruct (mod_eq_ex _ _ (shl_mod x 4 ltac:(lia))) as [k4 ->].
  destruct (mod_eq_ex _ _ (shl_mod x 7 ltac:(lia))) as [k7 ->].
  destruct (mod_eq_ex _ _ (shl_mod x 8 ltac:(lia))) as [k8 ->].
  destruct (mod_eq_ex _ _ (shl_mod x 24 ltac:(lia))) as [k24 ->].
  replace (x + (x * 2 ^ 1 + k1 * 2 ^ 32 + (x * 2 ^ 4 + k4 * 2 ^ 32)
                + (x * 2 ^ 7 + k7 * 2 ^ 32) + (x * 2 ^ 8 + k8 * 2 ^ 32)
                + (x * 2 ^ 24 + k24 * 2 ^ 32)))
    with (x * 16777619 + (k1 + k4 + k7 + k8 + k24) * 2 ^ 32) by lia.
  by rewrite Z.mod_add by lia.
Qed.

Lemma charCodes_range str : Forall (fun c => 0 ≤ c < 2 ^ 32) (charCodes str).
Proof.
  unfold charCodes. apply Forall_fmap, Forall_forall. intros c _. simpl.
  pose proof (Ascii.N_ascii_bounded c). lia.
Qed.

Lemma hash32_fnv32a str : hash32 str = fnv32a (bytes_of_string str).
Proof.
  unfold hash32, fnv1a, fnv32a.
  change (bytes_of_string str) with (charCodes str).
  assert (Hgen : ∀ cs h, Forall (fun c => 0 ≤ c < 2 ^ 32) cs → 0 ≤ h < 2 ^ 32 →
    ToUint32 (ToUint32 (fold_left
      (fun h c => let h0 := xor h c in
         ToUint32 (h0 + (shl h0 1 + shl h0 4 + shl h0 7 + shl h0 8 + shl h0 24)))
      cs h))
    = fold_left (fun h b => (Z.lxor h b * 16777619) mod 2 ^ 32) cs h).
  { induction cs as [|c cs IH]; intros h Hcs Hh.
    - cbn [fold_left]. unfold ToUint32. by rewrite !(Z.mod_small h) by lia.
    - apply Forall_cons in Hcs as [Hc Hcs]. cbn [fold_left].
      rewrite fnv_step by done. apply IH; [done|]. apply Z.mod_pos_bound. lia. }
  apply Hgen; [apply charCodes_range|lia].
Qed.

(** X16.  The hash of the replica is the 32-bit FNV-1a hash: on every
    string of code units below 256 (so on every ASCII key), [hash32] of
    [logic/hashing.ts], computed with signed 32-bit shifts and additions,
    equals the FNV-1a value that the simple-hash strategy of the engine
    computes on the bytes with those values, and lies in [[0, 2^32)]. *)
Theorem hash32_is_fnv1a (str : string) :
  hash32 str = fnv32a (bytes_of_string str) ∧ 0 ≤ hash32 str < 2 ^ 32.
Proof.
  split; [apply hash32_fnv32a|].
  unfold hash32, ToUint32. apply Z.mod_pos_bound. lia.
Qed.

(** *** Routing *)

Lemma hash32_range str : 0 ≤ hash32 str < 2 ^ 32.
Proof. unfold hash32, ToUint32. apply Z.mod_pos_bound. lia. Qed.

Lemma hash_index (srvs : list Server) k :
  srvs ≠ [] →
  ∃ s, at_index srvs (Z.rem (hash32 k) (len srvs)) = Some s ∧ s ∈ srvs ∧
       Z.rem (hash32 k) (len srvs) = hash32 k mod len srvs.
Proof.
  intros Hne. pose proof (hash32_range k) as Hh.
  assert (0 < len srvs) as Hpos.
  { unfold len. destruct srvs; [done|simpl; lia]. }
  rewrite Z.rem_mod_nonneg by lia.
  pose proof (Z.mod_pos_bound (hash32 k) (len srvs) Hpos) as Hb.
  rewrite at_index_lookup by lia.
  destruct (lookup_lt_is_Some_2 srvs (Z.to_nat (hash32 k mod len srvs))) as [s Hs].
  { unfold len in *. lia. }
  exists s. split; [done|]. split; [|done]. by eapply list_elem_of_lookup_2.
Qed.

Lemma ringPositions_server servers p :
  p ∈ ringPositions servers → server p ∈ servers.
Proof.
  unfold ringPositions. rewrite sort_by_key_Permutation.
  intros (s & Hp & Hs)%list_elem_of_bind. unfold replicas in Hp.
  apply list_elem_of_fmap in Hp as (r & -> & _). done.
Qed.

Lemma routePure_ok (staticIndex : Z) (srvs : list Server) (strat : Strategy)
    (k : string) :
  0 ≤ staticIndex →
  64 * len srvs < 2 ^ 31 →
  ∃ r, routePure staticIndex srvs strat k = Ok r ∧
       (r = None ↔ srvs = []) ∧
       (∀ s, r = Some s → s ∈ srvs) ∧
       (strat = STATIC → len srvs ≤ staticIndex → r = last srvs).
Proof.
  intros Hsi Hsz. unfold routePure.
  destruct (len srvs =? 0) eqn:E.
  { apply Z.eqb_eq in E. unfold len in E.
    assert (srvs = []) as -> by (apply length_zero_iff_nil; lia).
    exists None. by split_and!. }
  apply Z.eqb_neq in E.
  assert (srvs ≠ []) as Hne by (intros ->; by apply E).
  assert (∀ s : Server, (Some s = None ↔ srvs = [])) as Hnone
    by (intros s; split; [done|by intros ?]).
  destruct strat.
  - destruct (hash_index srvs k Hne) as (s & Hs & Hin & _).
    exists (Some s). rewrite Hs. split_and!; try done. by intros s' [= <-].
  - destruct (hash_index srvs k Hne) as (s & Hs & Hin & _).
    exists (Some s). unfold simpleHashPick.
    rewrite (proj2 (Z.eqb_neq _ _) E), Hs. split_and!; try done. by intros s' [= <-].
  - destruct (chPickServer_spec srvs k Hne Hsz) as (i & p & -> & _ & _ & _ & Hp).
    exists (Some (server p)). split_and!; try done.
    intros s' [= <-]. apply ringPositions_server. by eapply list_elem_of_lookup_2.
  - pose proof (GoFacts.len_nonneg srvs) as Hn. unfold len in *.
    rewrite at_index_lookup by lia.
    destruct (lookup_lt_is_Some_2 srvs
                (Z.to_nat (staticIndex `min` (Z.of_nat (length srvs) - 1)))) as [s Hs].
    { lia. }
    exists (Some s). rewrite Hs. split_and!; try done.
    + intros s' [= <-]. by eapply list_elem_of_lookup_2.
    + intros _ Hge. rewrite last_lookup, <-Hs. f_equal. lia.
Qed.

(** X17.  The pure router never throws and returns no server exactly when
    the server list is empty; otherwise it returns a server of the list, for
    each of the four strategies.  The static strategy clamps its index to the
    last server.  (Static index not negative; fewer than 2^31 ring entries.) *)
Theorem routePure_total (staticIndex : Z) (srvs : list Server) (strat : Strategy)
    (k : string) :
  0 ≤ staticIndex →
  64 * len srvs < 2 ^ 31 →
  ∃ r, routePure staticIndex srvs strat k = Ok r ∧
       (r = None ↔ srvs = []) ∧
       (∀ s, r = Some s → s ∈ srvs) ∧
       (strat = STATIC → len srvs ≤ staticIndex → r = last srvs).
Proof. apply routePure_ok. Qed.

Lemma routePure_total_witness :
  ∃ r, routePure 7 servers4 STATIC "10.0.0.1" = Ok r ∧
       (r = None ↔ servers4 = []) ∧
       (∀ s, r = Some s → s ∈ servers4) ∧
       (STATIC = STATIC → len servers4 ≤ 7 → r = last servers4).
Proof.
  apply routePure_total.
  - discriminate.
  - vm_compute. reflexivity.
Defined.



(** *** Consistent hashing with replicas: bounded movement *)

Lemma sort_insert_head p l :
  Forall (fun q => key p ≤ key q) l → sort_insert p l = p :: l.
Proof.
  destruct 1 as [|q l Hq _]; [done|]. simpl.
  destruct (key p <=? key q) eqn:E; [done|]. apply Z.leb_gt in E. lia.
Qed.

Lemma sort_insert_filter_comm (Q : RingPair → Prop) `{!∀ p, Decision (Q p)} p l :
  StronglySorted pair_le l →
  filter Q (sort_insert p l)
  = if decide (Q p) then sort_insert p (filter Q l) else filter Q l.
Proof.
  induction 1 as [|q l Hs IH Hall]; simpl.
  - rewrite filter_cons, filter_nil. by destruct (decide (Q p)).
  - destruct (key p <=? key q) eqn:E.
    + apply Z.leb_le in E. rewrite (filter_cons _ p).
      destruct (decide (Q p)); [|done].
      rewrite sort_insert_head; [done|].
      apply Forall_forall. intros x [HQ Hx]%list_elem_of_filter.
      apply elem_of_cons in Hx as [->|Hx]; [done|].
      rewrite Forall_forall in Hall. specialize (Hall x Hx).
      unfold pair_le in Hall. lia.
    + rewrite (filter_cons _ q), IH, (filter_cons _ q).
      destruct (decide (Q p)), (decide (Q q)); try done.
      simpl. by rewrite E.
Qed.

Lemma sort_by_key_filter (Q : RingPair → Prop) `{!∀ p, Decision (Q p)} l :
  filter Q (sort_by_key l) = sort_by_key (filter Q l).
Proof.
  induction l as [|p l IH]; [done|]. simpl.
  rewrite sort_insert_filter_comm by apply sort_by_key_sorted.
  rewrite filter_cons, IH. by destruct (decide (Q p)).
Qed.

Lemma ringPositions_snoc servers s :
  s ∉ servers →
  ringPositions servers
  = filter (fun p => server p ≠ s) (ringPositions (servers ++ [s])).
Proof.
  intros Hnin. unfold ringPositions. rewrite sort_by_key_filter. f_equal.
  rewrite bind_app, filter_app.
  assert (filter (fun p => server p ≠ s) ([s] ≫= replicas) = []) as ->.
  { rewrite bind_cons, app_nil_r. unfold replicas.
    induction (seqZ 0 REPLICAS) as [|r rs IH]; [done|].
    rewrite fmap_cons, filter_cons_False; [done|]. simpl. by intros H. }
  rewrite app_nil_r. symmetry.
  induction servers as [|s' servers IH]; [done|].
  rewrite bind_cons, filter_app, IH by set_solver. f_equal.
  unfold replicas. induction (seqZ 0 REPLICAS) as [|r rs IHr]; [done|].
  rewrite fmap_cons, filter_cons_True; [by rewrite IHr|]. simpl. set_solver.
Qed.

Lemma find_filter {A} (R : A → bool) (Q : A → Prop) `{!∀ x, Decision (Q x)} l p :
  find R l = Some p → Q p → find R (filter Q l) = Some p.
Proof.
  induction l as [|y l IH]; [done|]. simpl. intros Hf HQ.
  destruct (R y) eqn:Ey.
  - injection Hf as ->. rewrite filter_cons_True by done. simpl. by rewrite Ey.
  - rewrite filter_cons. destruct (decide (Q y)); [|by apply IH].
    simpl. rewrite Ey. by apply IH.
Qed.

Lemma find_filter_None {A} (R : A → bool) (Q : A → Prop) `{!∀ x, Decision (Q x)} l :
  find R l = None → find R (filter Q l) = None.
Proof.
  induction l as [|y l IH]; [done|]. simpl. destruct (R y) eqn:Ey; [done|].
  intros Hf. rewrite filter_cons. destruct (decide (Q y)); [|by apply IH].
  simpl. rewrite Ey. by apply IH.
Qed.

Lemma pick_pair_filter (Q : RingPair → Prop) `{!∀ x, Decision (Q x)} slot l p :
  pick_pair slot l = Some p → Q p → pick_pair slot (filter Q l) = Some p.
Proof.
  unfold pick_pair. intros Hp HQ.
  destruct (find _ l) as [p'|] eqn:Ef.
  - injection Hp as ->. by rewrite (find_filter _ Q l p).
  - rewrite find_filter_None by done.
    destruct l as [|y l]; [done|]. simpl in Hp. injection Hp as ->.
    by rewrite filter_cons_True.
Qed.

Lemma chPickServer_pick servers keyStr :
  64 * len servers < 2 ^ 31 →
  chPickServer servers keyStr
  = Ok (server <$> pick_pair (hash32 keyStr) (ringPositions servers)).
Proof.
  intros Hsz. destruct (decide (servers = [])) as [->|Hne]; [done|].
  destruct (chPickServer_spec servers keyStr Hne Hsz)
    as (i & p & -> & Hb & Hlo & Hhi & Hp).
  do 2 f_equal. unfold pick_pair.
  rewrite (GoFacts.find_skip _ _ i).
  2:{ intros a q Ha Hq. specialize (Hlo a q Ha Hq). apply Z.leb_gt. lia. }
  destruct (decide (i = length (ringPositions servers))) as [->|Hi].
  - rewrite drop_ge by done. simpl. rewrite Nat.Div0.mod_same in Hp.
    by rewrite head_lookup, Hp.
  - rewrite Nat.mod_small in Hp by lia.
    rewrite (drop_S _ p) by done. simpl.
    by rewrite (proj2 (Z.leb_le _ _) (Hhi i p ltac:(lia) Hp)).
Qed.

(** X19.  Bounded movement in the replica: when a server that is not yet in
    the list is appended (or, read backwards, when the last server is
    removed), a key whose server on the longer list is not that server has
    the same server on the shorter list.  Only keys of the added or removed
    server move. *)
Theorem replica_bounded_movement (servers : list Server) (s x : Server)
    (keyStr : string) :
  s ∉ servers →
  64 * len (servers ++ [s]) < 2 ^ 31 →
  chPickServer (servers ++ [s]) keyStr = Ok (Some x) →
  x ≠ s →
  chPickServer servers keyStr = Ok (Some x).
Proof.
  intros Hnin Hsz Hpick Hne.
  rewrite chPickServer_pick in Hpick by done.
  rewrite chPickServer_pick.
  2:{ unfold len in *. rewrite length_app in Hsz. simpl in Hsz. lia. }
  injection Hpick as Hpick.
  destruct (pick_pair _ (ringPositions (servers ++ [s]))) as [p|] eqn:Ep; [|done].
  injection Hpick as <-.
  rewrite (ringPositions_snoc servers s Hnin).
  by rewrite (pick_pair_filter (fun p => server p ≠ s) _ _ p Ep Hne).
Qed.

Lemma replica_bounded_movement_witness :
  chPickServer servers4 "10.0.0.1" = Ok (Some (srv 8084)).
Proof.
  apply (replica_bounded_movement servers4 (srv 8085) (srv 8084) "10.0.0.1").
  - apply (bool_decide_unpack _). vm_compute. reflexivity.
  - vm_compute. reflexivity.
  - vm_compute. reflexivity.
  - discriminate.
Defined.

(** *** Server lists *)

Local Set Warnings "-clear-no-such-hyp".

Lemma filter_ge_succ_lt (ports : list Z) (p : Z) :
  p ∈ ports →
  (length (filter (fun x => (p + 1 ≤ x)%Z) ports)
   < length (filter (fun x => (p ≤ x)%Z) ports))%nat.
Proof.
  induction ports as [|y ports IH]; intros Hin; [by apply elem_of_nil in Hin|].
  assert (Hle : (length (filter (fun x => (p + 1 ≤ x)%Z) ports)
                 ≤ length (filter (fun x => (p ≤ x)%Z) ports))%nat).
  { clear. induction ports as [|z ports IH]; [done|].
    rewrite !filter_cons. repeat case_decide; simpl; lia. }
  rewrite !filter_cons.
  destruct (decide (y = p)) as [->|Hne].
  - rewrite decide_False, decide_True by lia. simpl. lia.
  - apply elem_of_cons in Hin as [->|Hin]; [done|]. specialize (IH Hin).
    repeat case_decide; simpl; lia.
Qed.

Lemma nextPort_loop_spec fuel ports p :
  (length (filter (fun x => (p ≤ x)%Z) ports) < fuel)%nat →
  (nextPort_loop fuel ports p ∉ ports) ∧
  (p ≤ nextPort_loop fuel ports p) ∧
  (∀ q, p ≤ q < nextPort_loop fuel ports p → q ∈ ports).
Proof.
  revert p. induction fuel as [|fuel IH]; intros p Hfuel; [lia|].
  cbn [nextPort_loop]. case_bool_decide as Hin.
  - pose proof (filter_ge_succ_lt ports p Hin) as Hlt.
    destruct (IH (p + 1) ltac:(lia)) as (H1 & H2 & H3).
    split; [done|]. split; [lia|]. intros q Hq.
    destruct (decide (q = p)) as [->|Hne]; [done|]. apply H3. lia.
  - split; [done|]. split; [lia|]. intros q Hq. lia.
Qed.

Lemma nextPort_spec (servers : list Server) :
  (nextPort servers ∉ port <$> servers) ∧
  (8081 ≤ nextPort servers ≤ 8081 + len servers) ∧
  (∀ q, 8081 ≤ q < nextPort servers → q ∈ port <$> servers).
Proof.
  unfold nextPort.
  destruct (nextPort_loop_spec (S (length (port <$> servers))) (port <$> servers) 8081)
    as (H1 & H2 & H3).
  { pose proof (length_filter (fun x => 8081 ≤ x) (port <$> servers)). lia. }
  split; [done|]. split; [|done]. split; [done|].
  set (r := nextPort_loop _ _ _) in *.
  destruct (decide (r ≤ 8081 + len servers)) as [|Hgt]; [done|exfalso].
  assert (Hsub : seqZ 8081 (len servers + 1) ⊆ port <$> servers).
  { intros q Hq. apply elem_of_seqZ in Hq. apply H3. lia. }
  assert (length (seqZ 8081 (len servers + 1)) ≤ length (port <$> servers))%nat as Hl.
  { apply submseteq_length, NoDup_submseteq; [apply NoDup_seqZ|done]. }
  rewrite length_seqZ, length_fmap in Hl. unfold len in Hl. lia.
Qed.

(** X20.  [nextPort] returns the least port from 8081 on that no server of
    the list uses: the port is not in use, every port from 8081 up to it is,
    and it is at most 8081 plus the number of servers. *)
Theorem nextPort_least_free (servers : list Server) :
  (nextPort servers ∉ port <$> servers) ∧
  (8081 ≤ nextPort servers ≤ 8081 + len servers) ∧
  (∀ q, 8081 ≤ q < nextPort servers → q ∈ port <$> servers).
Proof. apply nextPort_spec. Qed.

Lemma initServers_ports n : port <$> initServers n = seqZ 8081 n.
Proof.
  unfold initServers. rewrite <-list_fmap_compose.
  apply list_eq. intros i. rewrite list_lookup_fmap.
  destruct (decide (Z.of_nat i < n)) as [Hlt|Hge].
  - rewrite !lookup_seqZ_lt by lia. simpl. f_equal.
  - rewrite !lookup_seqZ_ge by lia. done.
Qed.

(** X21.  After [initServers(n)], the servers use the ports 8081 to
    8080 + n, each once, with the identity ["localhost:" + port]; and the next
    free port is 8081 + n. *)
Theorem nextPort_initServers (n : Z) :
  0 ≤ n →
  port <$> initServers n = seqZ 8081 n ∧
  Forall (fun s => id s = "localhost:" +:+ pretty (port s)) (initServers n) ∧
  NoDup (id <$> initServers n) ∧
  nextPort (initServers n) = 8081 + n.
Proof.
  intros Hn. split; [apply initServers_ports|]. split; [|split].
  - unfold initServers. apply Forall_fmap, Forall_forall. by intros i _.
  - unfold initServers. rewrite <-list_fmap_compose.
    apply NoDup_fmap_2; [|apply NoDup_seqZ].
    intros i j Hij. simpl in Hij.
    apply (inj (String.append "localhost:")), (inj pretty) in Hij. lia.
  - destruct (nextPort_spec (initServers n)) as (H1 & H2 & H3).
    rewrite initServers_ports in H1, H3. rewrite elem_of_seqZ in H1.
    destruct (decide (nextPort (initServers n) < 8081 + n)) as [Hlt|Hge]; [lia|].
    destruct (decide (nextPort (initServers n) = 8081 + n)) as [|Hne]; [done|].
    specialize (H3 (8081 + n) ltac:(lia)). apply elem_of_seqZ in H3. lia.
Qed.

Lemma nextPort_initServers_witness :
  port <$> initServers 4 = seqZ 8081 4 ∧
  Forall (fun s => id s = "localhost:" +:+ pretty (port s)) (initServers 4) ∧
  NoDup (id <$> initServers 4) ∧
  nextPort (initServers 4) = 8081 + 4.
Proof. apply nextPort_initServers. discriminate. Defined.

(** *** The churn diff *)

Lemma dedup_spec seen xs :
  NoDup (dedup seen xs) ∧
  (∀ x, x ∈ dedup seen xs ↔ x ∈ xs ∧ x ∉ seen) ∧
  dedup seen xs `sublist_of` xs.
Proof.
  revert seen. induction xs as [|y xs IH]; intros seen.
  - split; [constructor|]. split; [|constructor]. intros x. set_solver.
  - cbn [dedup]. case_bool_decide as Hin.
    + destruct (IH seen) as (H1 & H2 & H3). split; [done|]. split.
      * intros x. rewrite H2. set_solver.
      * by constructor.
    + destruct (IH (y :: seen)) as (H1 & H2 & H3). split; [|split].
      * constructor; [|done]. rewrite H2. set_solver.
      * intros x. rewrite elem_of_cons, H2. 
        destruct (decide (x = y)) as [->|Hne]; set_solver.
      * by constructor.
Qed.



Lemma diff_rows_keys ks b a m :
  row_k <$> (diff_rows ks b a m).2 = ks ∧
  Forall (fun row => row_b row = b !! row_k row ∧ row_a row = a !! row_k row)
    (diff_rows ks b a m).2.
Proof.
  revert m. induction ks as [|k ks IH]; intros m; [by split; [|constructor]|].
  cbn [diff_rows snd]. destruct (IH (if negb (bool_decide (b !! k = a !! k))
                                     then m + 1 else m)) as [H1 H2].
  split; [by rewrite fmap_cons, H1|]. by constructor.
Qed.

(** X23.  The diff of two mappings has one row per distinct key of the two
    mappings, in the order of their first occurrence; a row is marked as
    changed exactly when the entries of the two mappings for its key differ
    (an entry on one side only counts as different); the moved count is the
    number of changed rows, the total is the number of rows, and so the
    moved count lies between 0 and the total.  Without a before or an after
    mapping there is no diff. *)
Theorem diff_rows_and_counts (Object_keys : gmap string string → list string)
    (b a : gmap string string) :
  (∃ d, diff Object_keys (Some b) (Some a) = Some d ∧
        row_k <$> rows d = dedup [] (Object_keys b ++ Object_keys a) ∧
        Forall (fun row => changed row = true ↔ b !! row_k row ≠ a !! row_k row)
          (rows d) ∧
        moved d = len (filter (fun row => changed row = true) (rows d)) ∧
        total d = len (rows d) ∧
        0 ≤ moved d ≤ total d) ∧
  diff Object_keys None (Some a) = None ∧
  diff Object_keys (Some b) None = None.
Proof.
  split; [|done]. eexists. split; [done|]. cbn [rows total moved].
  set (ks := dedup [] _).
  destruct (diff_rows_keys ks b a 0) as [Hk Hr].
  split; [done|]. split.
  { pose proof (diff_rows_changed ks b a 0) as Hc.
    rewrite Forall_forall in *. intros row Hrow.
    destruct (Hr row Hrow) as [<- <-]. by apply Hc. }
  split; [by rewrite diff_rows_moved_rows|].
  assert (length (diff_rows ks b a 0).2 = length ks) as Hl
    by (by rewrite <-Hk at 2; rewrite length_fmap).
  split; [unfold len; by rewrite Hl|].
  rewrite diff_rows_moved.
  pose proof (length_filter (fun k => b !! k ≠ a !! k) ks). unfold len. lia.
Qed.

(** X24.  Swapping the before and the after mapping changes neither the
    moved count nor the total of the diff, whatever the order in which the
    keys of an object are enumerated. *)
Theorem diff_symmetric (Object_keys : gmap string string → list string)
    (b a : gmap string string) :
  ∃ d d', diff Object_keys (Some b) (Some a) = Some d ∧
          diff Object_keys (Some a) (Some b) = Some d' ∧
          moved d = moved d' ∧ total d = total d'.
Proof.
  eexists _, _. split; [done|]. split; [done|]. cbn [moved total].
  set (ks := dedup [] (Object_keys b ++ Object_keys a)).
  set (ks' := dedup [] (Object_keys a ++ Object_keys b)).
  assert (ks ≡ₚ ks') as Hp.
  { destruct (dedup_spec [] (Object_keys b ++ Object_keys a)) as (H1 & H2 & _).
    destruct (dedup_spec [] (Object_keys a ++ Object_keys b)) as (H1' & H2' & _).
    apply NoDup_Permutation; [done|done|]. intros x. subst ks ks'.
    rewrite H2, H2'. set_solver. }
  split.
  - rewrite !diff_rows_moved. do 2 f_equal.
    rewrite (list_filter_iff _ (fun k => a !! k ≠ b !! k)) by (intros x; split; auto).
    by rewrite Hp.
  - unfold len. by rewrite Hp.
Qed.

(** *** Mappings *)

Lemma computeMap_loop_table staticIndex srvs strat ks m0 :
  0 ≤ staticIndex →
  64 * len srvs < 2 ^ 31 →
  ∃ m, computeMap_loop staticIndex srvs strat ks m0 = Ok m ∧
       ∀ k, m !! k = if decide (k ∈ ks ∧ k ≠ "__proto__")
                     then Some (route_id staticIndex srvs strat k) else m0 !! k.
Proof.
  intros Hsi Hsz. revert m0. induction ks as [|k ks IH]; intros m0.
  - exists m0. split; [done|]. intros k.
    rewrite decide_False; [done|]. intros [Hk _]. by apply elem_of_nil in Hk.
  - destruct (routePure_ok staticIndex srvs strat k Hsi Hsz) as (r & Hr & _).
    cbn [computeMap_loop]. rewrite Hr. cbn [mbind result_bind].
    assert (route_id staticIndex srvs strat k
            = match r with Some s => id s | None => "<nil>" end) as Hid.
    { unfold route_id. rewrite Hr. by destruct r. }
    rewrite <-Hid.
    destruct (IH (obj_set k (route_id staticIndex srvs strat k) m0)) as (m & -> & Hm).
    exists m. split; [done|]. intros k'. rewrite Hm.
    destruct (decide (k' ∈ ks ∧ k' ≠ "__proto__")) as [[Hin Hp]|Hnin].
    + by rewrite decide_True by (split; [by right|done]).
    + unfold obj_set. destruct (decide (k' = k)) as [->|Hne].
      * case_bool_decide as Hp.
        -- rewrite decide_False; [done|]. by intros [_ ?].
        -- rewrite lookup_insert_eq. by rewrite decide_True by (split; [left|done]).
      * assert (¬ (k' ∈ k :: ks ∧ k' ≠ "__proto__")) as Hnin'.
        { intros [[?|?]%elem_of_cons ?]; [done|]. by apply Hnin. }
        rewrite decide_False by done.
        case_bool_decide; [done|]. by rewrite lookup_insert_ne.
Qed.

(** X25.  [computeMap] never throws and returns a mapping whose own
    entries are exactly the tracked keys other than [__proto__], each with
    the identity of the server the pure router gives it (["<nil>"] when the
    server list is empty); a tracked key [__proto__] leaves no entry.  It
    reads neither the round-robin pointer nor any other mutable state. *)
Theorem computeMap_is_routing_table (staticIndex : Z) (strat : Strategy)
    (trackedKeys : list string) (srvs : list Server) :
  0 ≤ staticIndex →
  64 * len srvs < 2 ^ 31 →
  ∃ m : gmap string string,
    computeMap staticIndex strat trackedKeys srvs = Ok m ∧
    (∀ k, m !! k = if decide (k ∈ trackedKeys ∧ k ≠ "__proto__")
                   then Some (route_id staticIndex srvs strat k) else None) ∧
    (srvs = [] → ∀ k, k ∈ trackedKeys → k ≠ "__proto__" → m !! k = Some "<nil>").
Proof.
  intros Hsi Hsz. unfold computeMap.
  destruct (computeMap_loop_table staticIndex srvs strat trackedKeys ∅ Hsi Hsz)
    as (m & -> & Hm).
  exists m. split; [done|]. split.
  - intros k. rewrite Hm. by rewrite lookup_empty.
  - intros -> k Hk Hp. rewrite Hm, decide_True by done. done.
Qed.

Lemma computeMap_is_routing_table_witness :
  ∃ m : gmap string string,
    computeMap 0 RR ["a"; "__proto__"] servers4 = Ok m ∧
    (∀ k, m !! k = if decide (k ∈ ["a"; "__proto__"] ∧ k ≠ "__proto__")
                   then Some (route_id 0 servers4 RR k) else None) ∧
    (servers4 = [] → ∀ k, k ∈ ["a"; "__proto__"] → k ≠ "__proto__" →
                     m !! k = Some "<nil>").
Proof.
  apply computeMap_is_routing_table.
  - discriminate.
  - vm_compute. reflexivity.
Defined.

(** *** The assignment table *)

Lemma assign_member (next : gmap string (list string)) i k sid x :
  (∃ l, <[i := default [] (next !! i) ++ [k]]> next !! sid = Some l ∧ x ∈ l)
  ↔ (∃ l, next !! sid = Some l ∧ x ∈ l) ∨ (sid = i ∧ x = k).
Proof.
  destruct (decide (sid = i)) as [->|Hne].
  - rewrite lookup_insert_eq. split.
    + intros (l & [= <-] & Hx). apply elem_of_app in Hx as [Hx|Hx].
      * left. destruct (next !! i) as [l0|]; [by exists l0|by apply elem_of_nil in Hx].
      * right. apply list_elem_of_singleton in Hx. done.
    + intros [(l & Hl & Hx)|[_ ->]]; eexists; (split; [done|]).
      * rewrite Hl. simpl. apply elem_of_app. by left.
      * apply elem_of_app. right. by apply list_elem_of_singleton.
  - rewrite lookup_insert_ne by done. split; [by left|].
    by intros [?|[? _]].
Qed.

Lemma rebuildAssignments_loop_spec staticIndex srvs strat keys
    (next : gmap string (list string)) :
  0 ≤ staticIndex →
  64 * len srvs < 2 ^ 31 →
  Forall (fun s => id s ∉ Object_prototype_names) srvs →
  NoDup keys →
  (∀ sid l k, next !! sid = Some l → k ∈ l → k ∉ keys) →
  (∀ sid l, next !! sid = Some l → NoDup l ∧ l ≠ []) →
  ∃ next',
    rebuildAssignments_loop staticIndex srvs strat keys next = Ok next' ∧
    (∀ sid x, (∃ l, next' !! sid = Some l ∧ x ∈ l)
              ↔ (∃ l, next !! sid = Some l ∧ x ∈ l)
                ∨ (x ∈ keys ∧ ∃ s, routePure staticIndex srvs strat x = Ok (Some s)
                                   ∧ id s = sid)) ∧
    (∀ sid l, next' !! sid = Some l → NoDup l ∧ l ≠ []).
Proof.
  intros Hsi Hsz Hids. revert next.
  induction keys as [|k keys IH]; intros next Hnd Hfresh Hlists.
  - exists next. split; [done|]. split; [|done]. intros sid x. split; [by left|].
    intros [?|[Hx _]]; [done|]. by apply elem_of_nil in Hx.
  - apply NoDup_cons in Hnd as [Hk Hnd].
    destruct (routePure_ok staticIndex srvs strat k Hsi Hsz)
      as (r & Hr & _ & Hsrv & _).
    cbn [rebuildAssignments_loop]. rewrite Hr. cbn [mbind result_bind].
    destruct r as [s|].
    + rewrite bool_decide_eq_false_2
        by (rewrite Forall_forall in Hids; apply Hids, Hsrv; done).
      set (next1 := <[id s := default [] (next !! id s) ++ [k]]> next).
      assert (Hnext1 :
        <[id s := default [] (match next !! id s with
                              | Some _ => next
                              | None => <[id s := []]> next
                              end !! id s) ++ [k]]>
          (match next !! id s with
           | Some _ => next
           | None => <[id s := []]> next
           end) = next1).
      { subst next1. destruct (next !! id s) as [l0|] eqn:E.
        - by rewrite E.
        - by rewrite lookup_insert_eq, insert_insert_eq. }
      rewrite Hnext1.
      destruct (IH next1 Hnd) as (next' & -> & Hmem & Hl').
      * intros sid l x Hl Hx.
        assert ((∃ l, next !! sid = Some l ∧ x ∈ l) ∨ (sid = id s ∧ x = k)) as [H|[_ ->]]
          by (apply assign_member; eauto); [|done].
        destruct H as (l0 & Hl0 & Hx0).
        specialize (Hfresh sid l0 x Hl0 Hx0). by intros ?; apply Hfresh; right.
      * intros sid l Hl. subst next1.
        destruct (decide (sid = id s)) as [->|Hne].
        -- rewrite lookup_insert_eq in Hl. injection Hl as <-. split.
           ++ apply NoDup_app. split_and!.
              ** destruct (next !! id s) as [l0|] eqn:E; [|constructor].
                 by apply (Hlists (id s)).
              ** intros x Hx ->%list_elem_of_singleton.
                 destruct (next !! id s) as [l0|] eqn:E;
                   [|by apply elem_of_nil in Hx].
                 apply (Hfresh (id s) l0 k E Hx). by left.
              ** apply NoDup_singleton.
           ++ by destruct (default [] (next !! id s)).
        -- rewrite lookup_insert_ne in Hl by done. by apply (Hlists sid).
      * exists next'. split; [done|]. split; [|done].
        intros sid x. rewrite Hmem. subst next1. rewrite assign_member.
        split.
        -- intros [[H|[-> ->]]|[Hx Hs]].
           ++ by left.
           ++ right. split; [by left|]. by exists s.
           ++ right. split; [by right|done].
        -- intros [H|[Hx (s' & Hs' & Hid)]]; [by left; left|].
           apply elem_of_cons in Hx as [->|Hx].
           ++ left. right. rewrite Hr in Hs'. by simplify_eq.
           ++ right. split; [done|]. by exists s'.
    + destruct (IH next Hnd) as (next' & -> & Hmem & Hl').
      * intros sid l x Hl Hx Hin. apply (Hfresh sid l x Hl Hx). by right.
      * done.
      * exists next'. split; [done|]. split; [|done].
        intros sid x. rewrite Hmem. split.
        -- intros [H|[Hx Hs]]; [by left|]. right. split; [by right|done].
        -- intros [H|[Hx (s' & Hs' & Hid)]]; [by left|].
           apply elem_of_cons in Hx as [->|Hx].
           ++ rewrite Hr in Hs'. done.
           ++ right. split; [done|]. by exists s'.
Qed.

(** X26.  When no server id is the name of a property of
    [Object.prototype], the assignment table partitions the tracked keys by
    server: a key is on the list of a server id exactly when it is a tracked
    key that the pure router gives to the server with that id; no list is
    empty and no list names a key twice, however often the key was
    tracked. *)
Theorem rebuildAssignments_partitions (staticIndex : Z) (strat : Strategy)
    (trackedKeys : list string) (srvs : list Server) :
  0 ≤ staticIndex →
  64 * len srvs < 2 ^ 31 →
  Forall (fun s => id s ∉ Object_prototype_names) srvs →
  ∃ next : gmap string (list string),
    rebuildAssignments staticIndex strat trackedKeys srvs = Ok next ∧
    (∀ sid k, (∃ l, next !! sid = Some l ∧ k ∈ l)
              ↔ k ∈ trackedKeys ∧
                ∃ s, routePure staticIndex srvs strat k = Ok (Some s) ∧ id s = sid) ∧
    (∀ sid l, next !! sid = Some l → NoDup l ∧ l ≠ []).
Proof.
  intros Hsi Hsz Hids. unfold rebuildAssignments.
  destruct (dedup_spec [] trackedKeys) as (Hnd & Hin & _).
  destruct (rebuildAssignments_loop_spec staticIndex srvs strat
              (dedup [] trackedKeys) ∅ Hsi Hsz Hids Hnd)
    as (next & -> & Hmem & Hl).
  - intros sid l k Hl. by rewrite lookup_empty in Hl.
  - intros sid l Hl. by rewrite lookup_empty in Hl.
  - exists next. split; [done|]. split; [|done].
    intros sid k. rewrite Hmem. split.
    + intros [(l & Hl' & _)|[Hk Hs]]; [by rewrite lookup_empty in Hl'|].
      split; [|done]. apply Hin in Hk. tauto.
    + intros [Hk Hs]. right. split; [|done]. apply Hin. split; [done|].
      apply not_elem_of_nil.
Qed.

Lemma rebuildAssignments_partitions_witness :
  ∃ next : gmap string (list string),
    rebuildAssignments 0 CH ["a"; "b"; "a"] servers4 = Ok next ∧
    (∀ sid k, (∃ l, next !! sid = Some l ∧ k ∈ l)
              ↔ k ∈ ["a"; "b"; "a"] ∧
                ∃ s, routePure 0 servers4 CH k = Ok (Some s) ∧ id s = sid) ∧
    (∀ sid l, next !! sid = Some l → NoDup l ∧ l ≠ []).
Proof.
  apply rebuildAssignments_partitions.
  - discriminate.
  - vm_compute. reflexivity.
  - apply (bool_decide_unpack _). vm_compute. reflexivity.
Defined.

(** *** Round robin in the replica *)

Lemma routePure_rr staticIndex srvs k :
  routePure staticIndex srvs RR k = routePure staticIndex srvs SIMPLE k.
Proof. unfold routePure, simpleHashPick. by destruct (len srvs =? 0). Qed.

(** X27.  For the mappings, the assignment table and the diffs of the
    replica, round robin is simple hash: under the strategy RR every key
    gets the server it gets under SIMPLE, so the mapping and the assignment
    table of any list of tracked keys are the same under the two
    strategies, and the round-robin pointer plays no part in them. *)
Theorem round_robin_is_simple_hash (staticIndex : Z) (trackedKeys : list string)
    (srvs : list Server) :
  computeMap staticIndex RR trackedKeys srvs
    = computeMap staticIndex SIMPLE trackedKeys srvs ∧
  rebuildAssignments staticIndex RR trackedKeys srvs
    = rebuildAssignments staticIndex SIMPLE trackedKeys srvs.
Proof.
  split.
  - unfold computeMap. generalize (∅ : gmap string string).
    induction trackedKeys as [|k ks IH]; intros m; [done|].
    cbn [computeMap_loop]. rewrite routePure_rr.
    destruct (routePure staticIndex srvs SIMPLE k) as [r|msg]; [|done].
    cbn [mbind result_bind]. apply IH.
  - unfold rebuildAssignments. generalize (∅ : gmap string (list string)).
    induction (dedup [] trackedKeys) as [|k ks IH]; intros m; [done|].
    cbn [rebuildAssignments_loop]. rewrite routePure_rr.
    destruct (routePure staticIndex srvs SIMPLE k) as [[s|]|msg]; [| |done].
    + cbn [mbind result_bind]. case_bool_decide; [done|]. apply IH.
    + cbn [mbind result_bind]. apply IH.
Qed.

End TSMore.
